(** * Launch orchestrator of itch ([src/tasks/launch.ts])

    A shallow embedding of [caveProblem], [doStart], [launchTypeForAction]
    and [appExt], and the properties of the launch call that follow from
    them.  Asynchronous code is sequential between its [await] points, so
    [doStart] is a program in a small monad: it reads and writes the package
    store, records every call to a collaborator in a chronological trace,
    and ends in a JavaScript completion (fall off the end, [return], or
    [throw]). *)

From Stdlib Require Import Ascii String ZArith QArith Lia.
From stdpp Require Import base option list strings pretty gmap.

Local Open Scope string_scope.
Local Open Scope list_scope.
Local Open Scope Z_scope.

(** ** Strings and the four regular expressions of the file *)

Module Str.

(** ASCII case folding, which is all the [i] flag does to the ASCII
    patterns used here. *)
Definition lower (c : ascii) : ascii :=
  let n := N_of_ascii c in
  if ((65 <=? n) && (n <=? 90))%N then ascii_of_N (n + 32) else c.

Fixpoint lowercase (s : string) : string :=
  match s with
  | EmptyString => EmptyString
  | String c r => String (lower c) (lowercase r)
  end.

(** [starts_with p s]: [p] matches at the first position of [s] ([^p]). *)
Fixpoint starts_with (p s : string) : bool :=
  match p, s with
  | EmptyString, _ => true
  | String a p', String b s' => if Ascii.eqb a b then starts_with p' s' else false
  | String _ _, EmptyString => false
  end.

(** [ends_with p s]: [p] matches up to the end of the input ([p$]). *)
Fixpoint ends_with (p s : string) : bool :=
  String.eqb p s ||
  match s with
  | EmptyString => false
  | String _ s' => ends_with p s'
  end.

Definition starts_with_ci (p s : string) : bool := starts_with p (lowercase s).
Definition ends_with_ci (p s : string) : bool := ends_with p (lowercase s).

Fixpoint drop (n : nat) (s : string) : string :=
  match n, s with
  | O, _ => s
  | S n', String _ s' => drop n' s'
  | S _, EmptyString => EmptyString
  end.

(** [s.replace(/pat/, by)] for a literal pattern and a replacement without
    [$]: the leftmost occurrence only. *)
Fixpoint replace_first (pat by_ s : string) : string :=
  if starts_with pat s then by_ +:+ drop (String.length pat) s
  else match s with
       | EmptyString => EmptyString
       | String c s' => String c (replace_first pat by_ s')
       end.

(** [`${xs}`] of an array of strings: the elements joined by commas. *)
Fixpoint join_comma (xs : list string) : string :=
  match xs with
  | [] => ""
  | [x] => x
  | x :: rest => x +:+ "," +:+ join_comma rest
  end.

(** JavaScript truthiness of a possibly missing string. *)
Definition truthy (o : option string) : bool :=
  match o with
  | Some s => negb (String.eqb s "")
  | None => false
  end.

End Str.

(** ** Data model ([../types], as [launch.ts] uses it) *)

(** [ICaveRecord]: the package record.  Optional fields are [option]s. *)
Record ICaveRecord := mkCave {
  c_id : string;
  c_gameId : Z;
  c_launchType : option string;
  c_executables : option (list string);
  c_gamePath : option string;
  c_secondsRun : option Z;
  c_lastTouched : option Z;
  c_uploadId : Z;
  c_uploads : gmap Z string;
}.

Record IGameRecord := mkGame {
  g_id : Z;
  g_title : string;
  g_cover : option string;
}.

(** [IManifestAction]; a missing [name] is the empty string (both falsy). *)
Record IManifestAction := mkAction {
  a_name : string;
  a_path : string;
  a_icon : option string;
  a_args : option (list string);
  a_scope : option string;
}.

(** What [toml.parse] returns: the [actions] key may be absent. *)
Record IManifest := mkManifest {
  m_actions : option (list IManifestAction);
}.

(** Values of the run environment ([IEnvironment]). *)
Inductive envValue :=
| EnvStr (s : string)
| EnvNum (n : Z).

Record ILaunchOpts := mkLaunchOpts {
  lo_cave : ICaveRecord;
  lo_manifestAction : option IManifestAction;
  lo_env : gmap string envValue;
  lo_args : list string;
}.

(** Thrown values: [Crash] and [Cancelled] of [./errors] are two unrelated
    classes, everything else is a plain [Error] (or a [TypeError]). *)
Inductive errClass := Crash | Cancelled | PlainError | TypeError.

Record JsError := mkError {
  e_class : errClass;
  e_message : string;
  e_reason : option (list string);
}.

Definition instanceof (e : JsError) (k : errClass) : bool :=
  match e_class e, k with
  | Crash, Crash | Cancelled, Cancelled
  | PlainError, PlainError | TypeError, TypeError => true
  | _, _ => false
  end.

(** ** [caveProblem] (lines 71-87) *)

Definition caveProblem (cave : ICaveRecord) : option (list string) :=
  match c_launchType cave with
  | Some "native" =>
      match c_executables cave with
      | None | Some [] => Some ["game.install.no_executables_found"]
      | Some (_ :: _) => None
      end
  | Some "html" =>
      if Str.truthy (c_gamePath cave) then None
      else Some ["game.install.no_html_index_found"]
  | _ => None
  end.

(** ** The tests of [launchTypeForAction] (lines 340-363), and [appExt]
    (lines 365-371) *)

(** What the binary probe [fnout.path] tells about a file. *)
Record sniffResult := mkSniff {
  linuxExecutable : bool;
  macExecutable : bool;
}.

(** [/\.(app|exe|bat|sh)$/i] *)
Definition re_native (s : string) : bool :=
  Str.ends_with_ci ".app" s || Str.ends_with_ci ".exe" s
  || Str.ends_with_ci ".bat" s || Str.ends_with_ci ".sh" s.

(** [/\.html?$/i] *)
Definition re_html (s : string) : bool :=
  Str.ends_with_ci ".htm" s || Str.ends_with_ci ".html" s.

(** [/^https?:/i] *)
Definition re_external (s : string) : bool :=
  Str.starts_with_ci "http:" s || Str.starts_with_ci "https:" s.

(** [appExt], for what [os.itchPlatform()] answers. *)
Definition appExt (itchPlatform : string) : string :=
  if String.eqb itchPlatform "osx" then ".app"
  else if String.eqb itchPlatform "windows" then ".exe"
  else "".


(** ** The package store ([globalMarket]) *)

(** The partial record given to [saveEntity]: the launch call only ever
    writes these two fields. *)
Record cavePatch := mkPatch {
  p_secondsRun : option Z;
  p_lastTouched : option Z;
}.

Module Market.

Definition blank (id : string) : ICaveRecord :=
  mkCave id 0 None None None None None 0 ∅.

Definition merge (p : cavePatch) (c : ICaveRecord) : ICaveRecord :=
  mkCave (c_id c) (c_gameId c) (c_launchType c) (c_executables c) (c_gamePath c)
    (match p_secondsRun p with Some s => Some s | None => c_secondsRun c end)
    (match p_lastTouched p with Some t => Some t | None => c_lastTouched c end)
    (c_uploadId c) (c_uploads c).

(** Modelled from the spec: the store is not part of [launch.ts]; its
    [save(id, partialFields)] is a whole-field upsert, so the fields of the
    patch replace the stored ones and the others stay. *)
Definition saveEntity (id : string) (p : cavePatch)
    (caves : gmap string ICaveRecord) : gmap string ICaveRecord :=
  <[id := merge p (default (blank id) (caves !! id))]> caves.

(** Modelled from the spec: [get(id) -> record]; [undefined] when the
    record is not in the table. *)
Definition getEntity (id : string) (caves : gmap string ICaveRecord)
    : option ICaveRecord := caves !! id.

End Market.

(** ** Collaborators, the trace, and the monad *)

Record bigButton := mkBigButton {
  bb_label : string;
  bb_defaultValue : string;
  bb_action : string;     (* payload of [actions.modalResponse] *)
  bb_icon : string;
  bb_className : string;
}.

Record subkeyResult := mkSubkey {
  sk_key : string;
  sk_expiresAt : envValue;
}.

(** The value [promisedModal] resolves to. *)
Inductive modalAction :=
| MODAL_RESPONSE (manifestActionName : string)
| MODAL_CLOSED.

Inductive logLevel := LInfo | LWarn | LError.

(** One constructor for every [logger] call of [doStart]. *)
Inductive logMessage :=
| LogReconfiguring (problem : list string)
| LogLaunching (game : IGameRecord)
| LogLookingForManifest (manifestPath : string)
| LogFoundManifest
| LogErrorReadingManifest (e : JsError)
| LogManifest (m : IManifest)
| LogNoManifest
| LogRequestingSubkey (scope : string)
| LogGotSubkey (sk : subkeyResult)
| LogLaunchingPrepare (launchType : string)
| LogNoPrepare (launchType : string)
| LogErrorWhileLaunching (caveId : string) (e : JsError)
| LogIgnoringCrash (secondsRunning : Q) (e : JsError)
| LogCrashedWith (e : JsError)
| LogErrorMessage (e : JsError).

(** [detail] of the failure modal: [t.format(e.reason)] or [String(e)]. *)
Inductive errorDetail :=
| Localized (reason : list string)
| Stringified (e : JsError).

(** Every effect of [doStart] on the world outside it, in the order of
    the source. *)
Inductive event :=
| EvGameLazily (gameId : Z)
| EvSaveEntity (id : string) (p : cavePatch)
| EvExplorerOpen (path : string)
| EvLog (l : logLevel) (m : logMessage)
| EvConfigure (game : IGameRecord) (cave : ICaveRecord) (upload : option string)
| EvGetEntities
| EvExists (path : string)
| EvReadFile (path : string)
| EvSniff (fullPath : string)
| EvValidateManifest (m : IManifest)
| EvPromisedModal (game : IGameRecord) (bigButtons : list bigButton) (buttons : list string)
| EvSubkey (key : string) (gameId : Z) (scope : string)
| EvPrepare (launchType : string) (opts : ILaunchOpts) (manifest : option IManifest)
| EvLaunch (launchType : string) (opts : ILaunchOpts)
| EvSetInterval (ms : Z)
| EvClearInterval
| EvBlockerStart (reason : string)
| EvBlockerStop (id : Z)
| EvDiegoHire
| EvOpenModal (game : IGameRecord) (detail : errorDetail)
| EvLoggerClose.

(** What a promise settles to. *)
Inductive settled (A : Type) :=
| Fulfilled (a : A)
| Rejected (e : JsError).
Arguments Fulfilled {A} a.
Arguments Rejected {A} e.

(** What the collaborators answer during one launch call. *)
Record World := mkWorld {
  w_gameLazily : settled IGameRecord;
  w_actionForGame : string;
  w_appPath : ICaveRecord -> string;
  w_join : string -> string -> string;
  w_itchPlatform : string;
  w_sniff : string -> settled (option sniffResult);   (* [fnout.path]; [None] is [null] *)
  w_configure : gmap string ICaveRecord -> settled (gmap string ICaveRecord);
  w_exists : bool;
  w_readManifest : settled IManifest;
  w_defaultManifestIcons : string -> option string;
  w_promisedModal : modalAction;
  w_subkey : settled subkeyResult;
  w_prepare : settled unit;   (* the call of line 290, whatever [prepares] gave *)
  w_blockerId : Z;
  w_ticks : list Z;           (* [Date.now()] of each timer callback fired
                                 while the launcher is awaited *)
  w_launcher : settled unit;  (* the call of line 311, whatever [launchers] gave *)
  w_nowOpen : Z;              (* [Date.now()], line 159 *)
  w_startedAt : Z;            (* line 295 *)
  w_nowCaught : Z;            (* line 316 *)
  w_nowFinally : Z;           (* line 335 *)
  w_gameLazilyOnError : settled IGameRecord;   (* line 102 *)
}.

(** [IStartTaskOpts], as far as [doStart] reads it. *)
Record IStartTaskOpts := mkOpts {
  o_cave : ICaveRecord;
  o_key : string;                   (* [credentials.key] *)
  o_preventDisplaySleep : bool;     (* [preferences.preventDisplaySleep] *)
}.

(** Completion of a block of statements. *)
Inductive completion (A : Type) :=
| Normal (a : A)
| Return
| Throw (e : JsError).
Arguments Normal {A} a.
Arguments Return {A}.
Arguments Throw {A} e.

Record result (A : Type) := mkResult {
  r_completion : completion A;
  r_caves : gmap string ICaveRecord;
  r_trace : list event;
}.
Arguments mkResult {A} _ _ _.
Arguments r_completion {A} _.
Arguments r_caves {A} _.
Arguments r_trace {A} _.

Definition M (A : Type) : Type := gmap string ICaveRecord -> result A.

Definition ret {A} (a : A) : M A := fun caves => mkResult (Normal a) caves [].
Definition return_ {A} : M A := fun caves => mkResult Return caves [].
Definition throw {A} (e : JsError) : M A := fun caves => mkResult (Throw e) caves [].

Definition bind {A B} (m : M A) (f : A -> M B) : M B := fun caves =>
  let r := m caves in
  match r_completion r with
  | Normal a =>
      let r' := f a (r_caves r) in
      mkResult (r_completion r') (r_caves r') (r_trace r ++ r_trace r')
  | Return => mkResult Return (r_caves r) (r_trace r)
  | Throw e => mkResult (Throw e) (r_caves r) (r_trace r)
  end.

Notation "'let!' x := m 'in' k" := (bind m (fun x => k))
  (at level 10, x pattern, m at level 100, k at level 200).
Notation "m ;; k" := (bind m (fun _ => k))
  (at level 100, k at level 200, right associativity).

Definition emit (ev : event) : M unit := fun caves => mkResult (Normal tt) caves [ev].
Definition log (l : logLevel) (m : logMessage) : M unit := emit (EvLog l m).

(** [await] of a collaborator's promise. *)
Definition await {A} (ev : event) (p : settled A) : M A := fun caves =>
  match p with
  | Fulfilled a => mkResult (Normal a) caves [ev]
  | Rejected e => mkResult (Throw e) caves [ev]
  end.

(** The moment a promise whose call is already in the trace settles. *)
Definition await_settled {A} (p : settled A) : M A := fun caves =>
  match p with
  | Fulfilled a => mkResult (Normal a) caves []
  | Rejected e => mkResult (Throw e) caves []
  end.

Definition saveEntity (id : string) (p : cavePatch) : M unit := fun caves =>
  mkResult (Normal tt) (Market.saveEntity id p caves) [EvSaveEntity id p].

(** [await startTask(store, {name: "configure", ...})]: the task works on
    the store. *)
Definition startTask (ev : event)
    (task : gmap string ICaveRecord -> settled (gmap string ICaveRecord)) : M unit :=
  fun caves =>
    match task caves with
    | Fulfilled caves' => mkResult (Normal tt) caves' [ev]
    | Rejected e => mkResult (Throw e) caves [ev]
    end.

Definition getCaves : M (gmap string ICaveRecord) := fun caves =>
  mkResult (Normal caves) caves [].

(** [try { body } catch (e) { handler e }] *)
Definition try_catch {A} (body : M A) (handler : JsError -> M A) : M A := fun caves =>
  let r := body caves in
  match r_completion r with
  | Throw e =>
      let r' := handler e (r_caves r) in
      mkResult (r_completion r') (r_caves r') (r_trace r ++ r_trace r')
  | _ => r
  end.

(** [try { body } finally { fin }]: [fin] runs whatever [body] completes
    with, and an abrupt completion of [fin] replaces that of [body]. *)
Definition try_finally {A} (body : M A) (fin : M unit) : M A := fun caves =>
  let r := body caves in
  let r' := fin (r_caves r) in
  mkResult
    (match r_completion r' with
     | Normal _ => r_completion r
     | Return => Return
     | Throw e => Throw e
     end)
    (r_caves r') (r_trace r ++ r_trace r').

(** A callback run by the event loop: its effects happen, and however it
    completes (an exception included) the suspended call is not concerned. *)
Definition fire (callback : M unit) : M unit := fun caves =>
  let r := callback caves in
  mkResult (Normal tt) (r_caves r) (r_trace r).

(** How an [async function] body settles its promise. *)
Inductive outcome :=
| Resolved
| Raised (e : JsError).

Definition settle (c : completion unit) : outcome :=
  match c with
  | Normal _ | Return => Resolved
  | Throw e => Raised e
  end.

(** ** [launchTypeForAction] (lines 340-363) *)

Section Classifier.
(** [os.itchPlatform()], [ospath.join] and [fnout.path]. *)
Variable itchPlatform : string.
Variable join : string -> string -> string.
Variable sniff : string -> settled (option sniffResult).

(** The three tests on the path answer at once.  Past them the probe is
    awaited, so its rejection is the classifier's, and its answer is read
    without a check: when there is none, reading [linuxExecutable] throws. *)
Definition launchTypeForAction (appPath actionPath : string) : M string :=
  if re_native actionPath then ret "native"
  else if re_html actionPath then ret "html"
  else if re_external actionPath then ret "external"
  else
    let platform := itchPlatform in
    let fullPath := join appPath actionPath in
    let! sniffRes := await (EvSniff fullPath) (sniff fullPath) in
    match sniffRes with
    | None =>
        throw (mkError TypeError "Cannot read property 'linuxExecutable' of null" None)
    | Some sniffRes =>
        if (linuxExecutable sniffRes && String.eqb platform "linux")
           || (macExecutable sniffRes && String.eqb platform "osx")
        then ret "native"
        else ret "shell"
    end.
End Classifier.

(** ** Numbers *)

(** [secondsRun] is a JavaScript number, that is an IEEE 754 double.  The
    launch call reads it, adds the interval and writes the sum back, on
    whole numbers of seconds; the model keeps the integer and gives the sum
    the rounding of the double: exact up to [2^53], and to the nearest
    double, ties to the even mantissa, beyond. *)
Module Number.

(** The distance between the doubles around [z]. *)
Definition ulp (z : Z) : Z :=
  if Z.abs z <? 2 ^ 53 then 1 else 2 ^ (Z.log2 (Z.abs z) - 52).

Definition round (z : Z) : Z :=
  let u := ulp z in
  let q := z / u in
  let r := z mod u in
  if 2 * r <? u then q * u
  else if u <? 2 * r then (q + 1) * u
  else if Z.even q then q * u
  else (q + 1) * u.

(** [x + y] *)
Definition add (x y : Z) : Z := round (x + y).

End Number.

(** ** [doStart] (lines 144-338) *)

Definition UPDATE_PLAYTIME_INTERVAL : Z := 10.

Definition touch (now : Z) : cavePatch := mkPatch None (Some now).

(** The [launchers] and [prepares] tables (lines 273-287) are object
    literals, and [launchers[launchType]] is a property lookup: besides the
    keys written in the literal it finds everything the literal inherits
    from [Object.prototype].  What it finds there is truthy, so neither the
    test of line 280 nor the one of line 288 tells it from a registered
    strategy. *)
Definition objectPrototypeKeys : list string :=
  ["constructor"; "hasOwnProperty"; "isPrototypeOf"; "propertyIsEnumerable";
   "toLocaleString"; "toString"; "valueOf"; "__proto__";
   "__defineGetter__"; "__defineSetter__"; "__lookupGetter__"; "__lookupSetter__"].

Definition inherited (key : string) : bool :=
  existsb (String.eqb key) objectPrototypeKeys.

(** [launchers[launchType]] is truthy. *)
Definition launchers (launchType : string) : bool :=
  String.eqb launchType "native" || String.eqb launchType "html"
  || String.eqb launchType "shell" || String.eqb launchType "external"
  || inherited launchType.

(** [prepares[launchType]] is truthy. *)
Definition prepares (launchType : string) : bool :=
  String.eqb launchType "native" || inherited launchType.

(** Modelled from the spec: [validateManifest] of
    [./launch/validate-manifest] is not in the sources; it throws unless an
    [actions] list exists and every action has a non-empty name. *)
Definition validManifest (m : IManifest) : bool :=
  match m_actions m with
  | None => false
  | Some acts => forallb (fun a => negb (String.eqb (a_name a) "")) acts
  end.

Definition validateManifest (m : IManifest) : M unit :=
  emit (EvValidateManifest m);;
  if validManifest m then ret tt
  else throw (mkError PlainError "in manifest, required field is missing" None).

(** The button pushed for one action (lines 219-224). *)
Definition bigButtonFor (icons : string -> option string)
    (actionOption : IManifestAction) : bigButton :=
  let icon :=
    if Str.truthy (a_icon actionOption) then default "star" (a_icon actionOption)
    else if Str.truthy (icons (a_name actionOption))
         then default "star" (icons (a_name actionOption))
         else "star" in
  mkBigButton ("action.name." +:+ a_name actionOption) (a_name actionOption)
    (a_name actionOption) icon ("action-" +:+ a_name actionOption).

(** The callback of [each] at lines 215-225, folded over the actions from
    index [i] on. *)
Fixpoint bigButtonsFrom (icons : string -> option string) (i : nat)
    (acts : list IManifestAction) : M (list bigButton) :=
  match acts with
  | [] => ret []
  | actionOption :: rest =>
      if String.eqb (a_name actionOption) "" then
        throw (mkError PlainError
                 ("in manifest, action " +:+ pretty i +:+ " is missing a name") None)
      else
        let! bs := bigButtonsFrom icons (S i) rest in
        ret (bigButtonFor icons actionOption :: bs)
  end.

(** [findWhere(actions, {name})]: position of the first action so named. *)
Definition findWhere (name : string) (acts : list IManifestAction) : option nat :=
  fst <$> list_find (fun a => a_name a = name) acts.

(** Line 250: the action, with [{{EXT}}] in its path replaced. *)
Definition withExt (ext : string) (manifestAction : IManifestAction) : IManifestAction :=
  mkAction (a_name manifestAction)
    (Str.replace_first "{{EXT}}" ext (a_path manifestAction))
    (a_icon manifestAction) (a_args manifestAction) (a_scope manifestAction).

(** The error of lines 182-184: its [reason] is the problem. *)
Definition readinessError (problem : list string) : JsError :=
  mkError PlainError
    ("The game could not be configured (" +:+ Str.join_comma problem +:+ ")")
    (Some problem).

Section DoStart.
Variable w : World.
Variable opts : IStartTaskOpts.

(** Lines 154-185: the game, the [open] shortcut, the readiness check
    and the single repair. *)
Definition readiness : M (IGameRecord * ICaveRecord * string) :=
  let cave := o_cave opts in
  let! game := await (EvGameLazily (c_gameId cave)) (w_gameLazily w) in
  let action := w_actionForGame w in
  if String.eqb action "open" then
    saveEntity (c_id cave) (touch (w_nowOpen w));;
    emit (EvExplorerOpen (w_appPath w cave));;
    return_
  else
    let launchType := default "native" (c_launchType cave) in
    let! reloaded :=
      match caveProblem cave with
      | Some problem =>
          log LWarn (LogReconfiguring problem);;
          startTask (EvConfigure game cave (c_uploads cave !! c_uploadId cave))
                    (w_configure w);;
          emit EvGetEntities;;
          let! caves := getCaves in
          ret (caves !! c_id cave)
      | None => ret (Some cave)
      end in
    match reloaded with
    | None =>
        throw (mkError TypeError "Cannot read property 'launchType' of undefined" None)
    | Some cave =>
        match caveProblem cave with
        | Some problem =>
            throw (readinessError problem)
        | None =>
            log LInfo (LogLaunching game);;
            ret (game, cave, launchType)
        end
    end.

(** Lines 189-247: the manifest, and which of its actions to run (as a
    position in [manifest.actions]). *)
Definition resolveManifest (game : IGameRecord) (appPath : string)
    : M (option IManifest * option nat) :=
  let manifestPath := w_join w appPath ".itch.toml" in
  log LInfo (LogLookingForManifest manifestPath);;
  let! hasManifest := await (EvExists manifestPath) (Fulfilled (w_exists w)) in
  if hasManifest : bool then
    log LInfo LogFoundManifest;;
    let! manifest :=
      try_catch (await (EvReadFile manifestPath) (w_readManifest w))
                (fun e => log LError (LogErrorReadingManifest e);; throw e) in
    log LInfo (LogManifest manifest);;
    validateManifest manifest;;
    match m_actions manifest with
    | None => throw (mkError TypeError "Cannot read property 'length' of undefined" None)
    | Some acts =>
        if (1 <? length acts)%nat then
          let! bigButtons := bigButtonsFrom (w_defaultManifestIcons w) 0 acts in
          let buttons := ["cancel"] in
          let! response := await (EvPromisedModal game bigButtons buttons)
                                 (Fulfilled (w_promisedModal w)) in
          match response with
          | MODAL_RESPONSE manifestActionName =>
              ret (Some manifest, findWhere manifestActionName acts)
          | MODAL_CLOSED => return_
          end
        else
          ret (Some manifest, match acts with [] => None | _ :: _ => Some 0%nat end)
    end
  else
    log LInfo LogNoManifest;;
    ret (None, None).

(** Lines 249-271: the action's path, the launch type it implies, the
    scoped key, and the arguments.  [manifestAction.path = ...] writes
    into the action object that [manifest.actions] holds, so the manifest
    handed to the prepare step sees the new path too. *)
Definition launchOptions (game : IGameRecord) (launchType : string) (appPath : string)
    (manifest : option IManifest) (selected : option nat)
    : M (string * ILaunchOpts * option IManifest) :=
  let acts := default [] (manifest ≫= m_actions) in
  match selected ≫= (fun i => (fun a => (i, a)) <$> acts !! i) with
  | Some (i, manifestAction) =>
      let manifestAction := withExt (appExt (w_itchPlatform w)) manifestAction in
      let path := a_path manifestAction in
      let manifest := Some (mkManifest (Some (<[i := manifestAction]> acts))) in
      let! launchType :=
        launchTypeForAction (w_itchPlatform w) (w_join w) (w_sniff w) appPath path in
      let! env :=
        if Str.truthy (a_scope manifestAction) then
          let scope := default "" (a_scope manifestAction) in
          log LInfo (LogRequestingSubkey scope);;
          let! subkey := await (EvSubkey (o_key opts) (g_id game) scope) (w_subkey w) in
          log LInfo (LogGotSubkey subkey);;
          ret (<["ITCHIO_API_KEY_EXPIRES_AT" := sk_expiresAt subkey]>
                 (<["ITCHIO_API_KEY" := EnvStr (sk_key subkey)]> ∅))
        else ret ∅ in
      let args := default [] (a_args manifestAction) in
      ret (launchType, mkLaunchOpts (o_cave opts) (Some manifestAction) env args, manifest)
  | None =>
      ret (launchType, mkLaunchOpts (o_cave opts) None ∅ [], manifest)
  end.

(** Lines 273-296: the launcher must exist, the prepare step is
    optional; then the start time is taken and stored. *)
Definition prepareLaunch (cave : ICaveRecord) (launchType : string)
    (launchOpts : ILaunchOpts) (manifest : option IManifest) : M Z :=
  if launchers launchType then
    (if prepares launchType then
       log LInfo (LogLaunchingPrepare launchType);;
       await (EvPrepare launchType launchOpts manifest) (w_prepare w)
     else log LInfo (LogNoPrepare launchType));;
    let startedAt := w_startedAt w in
    saveEntity (c_id cave) (touch startedAt);;
    ret startedAt
  else
    throw (mkError PlainError
             ("Unsupported launch type '" +:+ default "undefined" (c_launchType cave) +:+ "'")
             None).

(** The timer callback (lines 302-307). *)
Definition playtimeTick (caveId : string) (now : Z) : M unit :=
  let! caves := getCaves in
  match Market.getEntity caveId caves with
  | None => throw (mkError TypeError "Cannot read property 'secondsRun' of undefined" None)
  | Some record =>
      let previousSecondsRun := default 0 (c_secondsRun record) in
      let newSecondsRun := Number.add UPDATE_PLAYTIME_INTERVAL previousSecondsRun in
      saveEntity caveId (mkPatch (Some newSecondsRun) (Some now))
  end.

(** The callbacks the timer fires while the launch call is suspended. *)
Fixpoint timerCallbacks (callback : Z -> M unit) (fires : list Z) : M unit :=
  match fires with
  | [] => ret tt
  | now :: rest =>
      fire (callback now);;
      timerCallbacks callback rest
  end.

(** Line 316.  The clock counts whole milliseconds, so the quotient is
    taken in the rationals: its comparison with 2 is the one the
    floating-point division gives. *)
Definition secondsRunning (startedAt : Z) : Q :=
  (inject_Z (w_nowCaught w - startedAt) / inject_Z 1000)%Q.

(** The [catch] block (lines 313-329). *)
Definition onLaunchError (cave : ICaveRecord) (startedAt : Z) (e : JsError) : M unit :=
  log LError (LogErrorWhileLaunching (c_id cave) e);;
  (if instanceof e Crash then
     if negb (Qle_bool (secondsRunning startedAt) (inject_Z 2)) then
       log LWarn (LogIgnoringCrash (secondsRunning startedAt) e);;
       return_
     else ret tt
   else ret tt);;
  if instanceof e Cancelled then return_ else throw e.

(** The [finally] block (lines 330-337). *)
Definition cleanup (cave : ICaveRecord) (powerSaveBlockerId : option Z) : M unit :=
  emit EvClearInterval;;
  match powerSaveBlockerId with
  | Some blockerId => emit (EvBlockerStop blockerId)
  | None => ret tt
  end;;
  saveEntity (c_id cave) (touch (w_nowFinally w)).

(** The [try] block (lines 302-311): the timer, the lock, and the launcher;
    the timer's callbacks run while the launcher is awaited. *)
Definition launchAndWait (cave : ICaveRecord) (launchType : string)
    (launchOpts : ILaunchOpts) : M unit :=
  emit (EvSetInterval (UPDATE_PLAYTIME_INTERVAL * 1000));;
  (if o_preventDisplaySleep opts
   then emit (EvBlockerStart "prevent-display-sleep") else ret tt);;
  emit (EvLaunch launchType launchOpts);;
  timerCallbacks (playtimeTick (c_id cave)) (w_ticks w);;
  await_settled (w_launcher w).

(** Lines 298-337.  Nothing before the launcher is awaited can throw, so
    in [finally] the variable [powerSaveBlockerId] holds what line 309
    assigned: the blocker's id, or [null]. *)
Definition dispatch (cave : ICaveRecord) (launchType : string)
    (launchOpts : ILaunchOpts) (startedAt : Z) : M unit :=
  let powerSaveBlockerId :=
    if o_preventDisplaySleep opts then Some (w_blockerId w) else None in
  try_finally
    (try_catch (launchAndWait cave launchType launchOpts)
               (onLaunchError cave startedAt))
    (cleanup cave powerSaveBlockerId).

(** Lines 189-296, for a package that is ready. *)
Definition preLaunch (game : IGameRecord) (cave : ICaveRecord) (launchType : string)
    : M (ICaveRecord * string * ILaunchOpts * Z) :=
  let appPath := w_appPath w cave in
  let! (manifest, selected) := resolveManifest game appPath in
  let! (launchType, launchOpts, manifest) :=
    launchOptions game launchType appPath manifest selected in
  let! startedAt := prepareLaunch cave launchType launchOpts manifest in
  ret (cave, launchType, launchOpts, startedAt).

(** Everything before the [try] of line 301. *)
Definition preDispatch : M (ICaveRecord * string * ILaunchOpts * Z) :=
  let! (game, cave, launchType) := readiness in
  preLaunch game cave launchType.

Definition doStartBody : M unit :=
  let! (cave, launchType, launchOpts, startedAt) := preDispatch in
  dispatch cave launchType launchOpts startedAt.

Definition doStart (caves : gmap string ICaveRecord) : result unit :=
  doStartBody caves.

(** [start] (lines 89-142): the caller of [doStart], and the only place
    that shows a failure to the user. *)
Definition start (caves : gmap string ICaveRecord) : result unit :=
  let cave := o_cave opts in
  try_finally
    (try_catch doStartBody
       (fun e =>
          let! game := await (EvGameLazily (c_gameId cave)) (w_gameLazilyOnError w) in
          log LError (LogCrashedWith e);;
          log LError (LogErrorMessage e);;
          emit EvDiegoHire;;
          let errorMessage :=
            match e_reason e with
            | Some reason => Localized reason
            | None => Stringified e
            end in
          emit (EvOpenModal game errorMessage)))
    (emit EvLoggerClose)
    caves.
End DoStart.

(** ** A concrete launch, used to run the definitions *)

Module Demo.

Definition game : IGameRecord := mkGame 42 "Overland" None.

Definition cave : ICaveRecord :=
  mkCave "cave-1" 42 (Some "native") (Some ["overland.exe"]) None (Some 120) None
    7 {[ 7 := "overland-win.zip" ]}.

(** The same package with nothing to run. *)
Definition brokenCave : ICaveRecord :=
  mkCave "cave-1" 42 (Some "native") (Some []) None (Some 120) None
    7 {[ 7 := "overland-win.zip" ]}.

Definition caves : gmap string ICaveRecord := {[ "cave-1" := cave ]}.
Definition brokenCaves : gmap string ICaveRecord := {[ "cave-1" := brokenCave ]}.

Definition play : IManifestAction := mkAction "play" "Overland{{EXT}}" None None None.
Definition editor : IManifestAction :=
  mkAction "editor" "editor.sh" (Some "tools") (Some ["--edit"]) (Some "download").
Definition manual : IManifestAction := mkAction "manual" "docs/index.html" None None None.

Definition crash : JsError := mkError Crash "task crashed" None.
Definition cancelled : JsError := mkError Cancelled "cancelled" None.
Definition boom : JsError := mkError PlainError "spawn ENOENT" None.

(** No manifest, a launcher that returns after two timer callbacks. *)
Definition world : World :=
  {| w_gameLazily := Fulfilled game;
     w_actionForGame := "launch";
     w_appPath := fun c => "/apps/" +:+ c_id c;
     w_join := fun a b => a +:+ "/" +:+ b;
     w_itchPlatform := "linux";
     w_sniff := fun _ => Fulfilled (Some (mkSniff false false));
     w_configure := fun cs => Fulfilled cs;
     w_exists := false;
     w_readManifest := Fulfilled (mkManifest (Some [play]));
     w_defaultManifestIcons := fun _ => None;
     w_promisedModal := MODAL_CLOSED;
     w_subkey := Fulfilled (mkSubkey "subkey-abc" (EnvStr "2017-01-01T00:00:00Z"));
     w_prepare := Fulfilled tt;
     w_blockerId := 3;
     w_ticks := [11000; 21000];
     w_launcher := Fulfilled tt;
     w_nowOpen := 900;
     w_startedAt := 1000;
     w_nowCaught := 1500;
     w_nowFinally := 25000;
     w_gameLazilyOnError := Fulfilled game |}.

Definition withManifest (acts : list IManifestAction) (answer : modalAction) (w : World) : World :=
  {| w_gameLazily := w_gameLazily w; w_actionForGame := w_actionForGame w;
     w_appPath := w_appPath w; w_join := w_join w; w_itchPlatform := w_itchPlatform w;
     w_sniff := w_sniff w; w_configure := w_configure w;
     w_exists := true;
     w_readManifest := Fulfilled (mkManifest (Some acts));
     w_defaultManifestIcons := w_defaultManifestIcons w;
     w_promisedModal := answer;
     w_subkey := w_subkey w; w_prepare := w_prepare w; w_blockerId := w_blockerId w;
     w_ticks := w_ticks w; w_launcher := w_launcher w; w_nowOpen := w_nowOpen w;
     w_startedAt := w_startedAt w; w_nowCaught := w_nowCaught w;
     w_nowFinally := w_nowFinally w; w_gameLazilyOnError := w_gameLazilyOnError w |}.

(** The launcher throws [e], and the [catch] block reads the clock at
    [caught]. *)
Definition failing (e : JsError) (caught : Z) (w : World) : World :=
  {| w_gameLazily := w_gameLazily w; w_actionForGame := w_actionForGame w;
     w_appPath := w_appPath w; w_join := w_join w; w_itchPlatform := w_itchPlatform w;
     w_sniff := w_sniff w; w_configure := w_configure w; w_exists := w_exists w;
     w_readManifest := w_readManifest w;
     w_defaultManifestIcons := w_defaultManifestIcons w;
     w_promisedModal := w_promisedModal w;
     w_subkey := w_subkey w; w_prepare := w_prepare w; w_blockerId := w_blockerId w;
     w_ticks := [];
     w_launcher := Rejected e;
     w_nowOpen := w_nowOpen w;
     w_startedAt := w_startedAt w; w_nowCaught := caught;
     w_nowFinally := caught + 1; w_gameLazilyOnError := w_gameLazilyOnError w |}.

Definition opts : IStartTaskOpts := mkOpts cave "api-key" true.
Definition brokenOpts : IStartTaskOpts := mkOpts brokenCave "api-key" true.

End Demo.

(** ** Reading traces *)

Definition isConfigure (ev : event) : bool :=
  match ev with EvConfigure _ _ _ => true | _ => false end.
Definition isModal (ev : event) : bool :=
  match ev with EvPromisedModal _ _ _ => true | _ => false end.
Definition isManifestAccess (ev : event) : bool :=
  match ev with
  | EvExists _ | EvReadFile _ | EvValidateManifest _ => true
  | _ => false
  end.
Definition isStrategy (ev : event) : bool :=
  match ev with EvPrepare _ _ _ | EvLaunch _ _ => true | _ => false end.
Definition isSubkey (ev : event) : bool :=
  match ev with EvSubkey _ _ _ => true | _ => false end.
Definition isClearInterval (ev : event) : bool :=
  match ev with EvClearInterval => true | _ => false end.
Definition isSetInterval (ev : event) : bool :=
  match ev with EvSetInterval _ => true | _ => false end.
Definition isBlockerStart (ev : event) : bool :=
  match ev with EvBlockerStart _ => true | _ => false end.
Definition isBlockerStop (ev : event) : bool :=
  match ev with EvBlockerStop _ => true | _ => false end.
Definition isOpenModal (ev : event) : bool :=
  match ev with EvOpenModal _ _ => true | _ => false end.

(** Timer and lock events: what the lifecycle manager owns. *)
Definition isLifecycle (ev : event) : bool :=
  isSetInterval ev || isClearInterval ev || isBlockerStart ev || isBlockerStop ev.

(** Number of events of a kind in a trace. *)
Fixpoint count (kind : event -> bool) (tr : list event) : nat :=
  match tr with
  | [] => 0
  | ev :: rest => (if kind ev then 1 else 0) + count kind rest
  end.

(** [emits P m]: whatever the store, every event of [m] satisfies [P]. *)
Definition emits {A} (P : event -> Prop) (m : M A) : Prop :=
  forall caves, Forall P (r_trace (m caves)).

(** ** Vocabulary of the statements *)

(** The events each part of [doStart] can emit. *)
Definition inReadiness (ev : event) : bool :=
  match ev with
  | EvGameLazily _ | EvSaveEntity _ _ | EvExplorerOpen _ | EvLog _ _
  | EvConfigure _ _ _ | EvGetEntities => true
  | _ => false
  end.

Definition inResolveManifest (ev : event) : bool :=
  match ev with
  | EvLog _ _ | EvExists _ | EvReadFile _ | EvValidateManifest _
  | EvPromisedModal _ _ _ => true
  | _ => false
  end.

Definition inLaunchOptions (ev : event) : bool :=
  match ev with EvLog _ _ | EvSniff _ | EvSubkey _ _ _ => true | _ => false end.

Definition inPrepareLaunch (ev : event) : bool :=
  match ev with EvLog _ _ | EvPrepare _ _ _ | EvSaveEntity _ _ => true | _ => false end.

Definition inDispatch (ev : event) : bool :=
  match ev with
  | EvLog _ _ | EvLaunch _ _ | EvSaveEntity _ _ | EvSetInterval _ | EvClearInterval
  | EvBlockerStart _ | EvBlockerStop _ => true
  | _ => false
  end.

(** [prepend tr r]: the result [r], after the events [tr]. *)
Definition prepend {A} (tr : list event) (r : result A) : result A :=
  mkResult (r_completion r) (r_caves r) (tr ++ r_trace r).

(** Calls to the logger. *)
Definition isLog (ev : event) : bool :=
  match ev with EvLog _ _ => true | _ => false end.

(** How the [catch] block completes for what the launcher settled to. *)
Definition verdict (w : World) (startedAt : Z) : completion unit :=
  match w_launcher w with
  | Fulfilled _ => Normal tt
  | Rejected e =>
      if instanceof e Crash && negb (Qle_bool (secondsRunning w startedAt) (inject_Z 2))
      then Return
      else if instanceof e Cancelled then Return else Throw e
  end.

(** The events of the [finally] block. *)
Definition cleanupEvents (w : World) (opts : IStartTaskOpts) (cave : ICaveRecord)
    : list event :=
  [EvClearInterval]
  ++ (if o_preventDisplaySleep opts then [EvBlockerStop (w_blockerId w)] else [])
  ++ [EvSaveEntity (c_id cave) (touch (w_nowFinally w))].

(** What the [try] block settles to. *)
Definition launched (w : World) : completion unit :=
  match w_launcher w with
  | Fulfilled _ => Normal tt
  | Rejected e => Throw e
  end.

(** Whether the [catch] block takes the late-crash exit for [e]. *)
Definition lateCrash (w : World) (startedAt : Z) (e : JsError) : bool :=
  instanceof e Crash && negb (Qle_bool (secondsRunning w startedAt) (inject_Z 2)).

(** The events of lines 154-296, and of lines 189-296. *)
Definition beforeDispatch (ev : event) : bool :=
  inReadiness ev || inResolveManifest ev || inLaunchOptions ev || inPrepareLaunch ev.

Definition inPreLaunch (ev : event) : bool :=
  inResolveManifest ev || inLaunchOptions ev || inPrepareLaunch ev.

(** What a tick saves when it finds [record] in the store. *)
Definition tickPatch (record : ICaveRecord) (now : Z) : cavePatch :=
  mkPatch (Some (Number.add UPDATE_PLAYTIME_INTERVAL (default 0 (c_secondsRun record))))
    (Some now).

(** The events of a repair: the warning, the task, the reload. *)
Definition repairEvents (game : IGameRecord) (cave : ICaveRecord) (problem : list string)
    : list event :=
  [EvLog LWarn (LogReconfiguring problem);
   EvConfigure game cave (c_uploads cave !! c_uploadId cave);
   EvGetEntities].

(** How many times the readiness part starts the repair task. *)
Definition repairs (w : World) (opts : IStartTaskOpts) : nat :=
  match w_gameLazily w with
  | Rejected _ => 0
  | Fulfilled _ =>
      if String.eqb (w_actionForGame w) "open" then 0
      else match caveProblem (o_cave opts) with Some _ => 1 | None => 0 end
  end.

(** What the environment of launch options must be, given the action they
    carry and what the credential client answered. *)
Definition envOk (w : World) (lo : ILaunchOpts) : Prop :=
  match lo_manifestAction lo with
  | Some action =>
      if Str.truthy (a_scope action) then
        exists subkey,
          w_subkey w = Fulfilled subkey
          /\ lo_env lo !! "ITCHIO_API_KEY" = Some (EnvStr (sk_key subkey))
          /\ lo_env lo !! "ITCHIO_API_KEY_EXPIRES_AT" = Some (sk_expiresAt subkey)
      else lo_env lo = ∅
  | None => lo_env lo = ∅
  end.

(** The same, for the options a prepare or launch strategy is called with. *)
Definition strategyEnvOk (w : World) (ev : event) : Prop :=
  match ev with
  | EvPrepare _ lo _ | EvLaunch _ lo => envOk w lo
  | _ => True
  end.

(** The events of lines 193-210, for a manifest that is there and valid. *)
Definition manifestEvents (manifestPath : string) (manifest : IManifest) : list event :=
  [EvLog LInfo (LogLookingForManifest manifestPath);
   EvExists manifestPath;
   EvLog LInfo LogFoundManifest;
   EvReadFile manifestPath;
   EvLog LInfo (LogManifest manifest);
   EvValidateManifest manifest].

(** The prompt of lines 229-235: one big button per action, and [cancel]. *)
Definition choicePrompt (w : World) (game : IGameRecord) (acts : list IManifestAction)
    : event :=
  EvPromisedModal game (map (bigButtonFor (w_defaultManifestIcons w)) acts) ["cancel"].

(** The options a prepare or launch strategy is called with carry the
    action [action]. *)
Definition strategyCarries (action : IManifestAction) (ev : event) : Prop :=
  match ev with
  | EvPrepare _ lo _ | EvLaunch _ lo => lo_manifestAction lo = Some action
  | _ => True
  end.







(** ** The generic installer ([installers/generic]) *)

Module Generic.

(** What JavaScript hands around where the code expects a kind. *)
Inductive kind :=
| Undefined
| Null
| Kind (name : string).

(** [!kind] *)
Definition falsy (k : kind) : bool :=
  match k with
  | Undefined | Null => true
  | Kind name => String.eqb name ""
  end.

(** [`${kind}`] *)
Definition show (k : kind) : string :=
  match k with
  | Undefined => "undefined"
  | Null => "null"
  | Kind name => name
  end.

(** What the installer does to the world outside it. *)
Inductive step :=
| Log (message : string)
| ReadArchive (archive_path : string)
| RunFile (archive_path : string)
| Require (module : string)
| CallInstall (module : string)
| CallUninstall (module : string).

(** The collaborators of one call: the platform, the reader's [data]
    events and how it ends, the matches each [StreamSearch] reports when a
    buffer is pushed after the earlier ones, the output of [file(1)], and
    the installer modules. *)
Record Env := mkEnv {
  platform : string;
  archive_path : string;
  buffers : list string;
  readerError : option JsError;
  streamMatches : string -> list string -> string -> nat;
  fileOutput : settled (list string);
  installerResult : string -> settled unit;
}.

(** A trace of steps and what the promise settles to. *)
Definition run (A : Type) : Type := list step * settled A.

Definition pure {A} (a : A) : run A := ([], Fulfilled a).
Definition fail {A} (e : JsError) : run A := ([], Rejected e).
Definition tell (s : step) : run unit := ([s], Fulfilled tt).

Definition andThen {A B} (m : run A) (f : A -> run B) : run B :=
  match m with
  | (tr, Fulfilled a) => let (tr', r) := f a in (tr ++ tr', r)
  | (tr, Rejected e) => (tr, Rejected e)
  end.

Definition builtin_needles : list (string * string) :=
  [("inno", "Inno Setup Setup Data");
   ("nsis", "Nullsoft.NSIS.exehead");
   ("air", "META-INF/AIR/application.xml")].

Definition external_needles : list (string * string) :=
  [("archive", "InstallShield self-extracting archive")].

(** [on_info], once per match a search reports: the needle is logged and
    [result] becomes its key. *)
Fixpoint on_matches (k v : string) (n : nat) (result : kind) : list step * kind :=
  match n with
  | O => ([], result)
  | S n' =>
      let (tr, result') := on_matches k v n' (Kind k) in
      (Log ("builtin_sniff: found needle " +:+ v) :: tr, result')
  end.

(** One [data] event: the buffer is pushed to every search, in the order of
    the needles. *)
Fixpoint on_data (env : Env) (needles : list (string * string))
    (earlier : list string) (buf : string) (result : kind) : list step * kind :=
  match needles with
  | [] => ([], result)
  | (k, v) :: rest =>
      let (tr, result') := on_matches k v (streamMatches env v earlier buf) result in
      let (tr', result'') := on_data env rest earlier buf result' in
      (tr ++ tr', result'')
  end.

Fixpoint on_stream (env : Env) (needles : list (string * string))
    (earlier bufs : list string) (result : kind) : list step * kind :=
  match bufs with
  | [] => ([], result)
  | buf :: rest =>
      let (tr, result') := on_data env needles earlier buf result in
      let (tr', result'') := on_stream env needles (earlier ++ [buf]) rest result' in
      (tr ++ tr', result'')
  end.

(** [builtin_sniff] (lines 45-75).  The promise [p] resolves to [result],
    but the function ends with [await p] and no [return]: it resolves to
    [undefined]. *)
Definition builtin_sniff (env : Env) (needles : list (string * string)) : run kind :=
  let (tr, result) := on_stream env needles [] (buffers env) Null in
  let p : run kind :=
    match readerError env with
    | Some e => (ReadArchive (archive_path env) :: tr, Rejected e)
    | None => (ReadArchive (archive_path env) :: tr, Fulfilled result)
    end in
  andThen p (fun _ => pure Undefined).

(** The loop of lines 97-103. *)
Fixpoint match_detail (needles : list (string * string)) (detail : string) : run kind :=
  match needles with
  | [] => pure Null
  | (k, v) :: rest =>
      if String.eqb detail v then
        andThen (tell (Log ("external_sniff: found needle " +:+ v))) (fun _ => pure (Kind k))
      else match_detail rest detail
  end.

(** [external_sniff] (lines 86-106). *)
Definition external_sniff (env : Env) (needles : list (string * string)) : run kind :=
  andThen (RunFile (archive_path env) :: [], fileOutput env) (fun file_output =>
    match file_output !! 2%nat with
    | None | Some "" => pure Null
    | Some detail => match_detail needles detail
    end).

(** [identify] (lines 36-43). *)
Definition identify (env : Env) : run kind :=
  andThen (builtin_sniff env builtin_needles) (fun kind =>
    if falsy kind then external_sniff env external_needles else pure kind).

(** [find_installer] (lines 20-34): the module it requires. *)
Definition find_installer (env : Env) : run string :=
  if negb (String.eqb (platform env) "win32") then
    fail (mkError PlainError "Exe installers are only supported on Windows" None)
  else
    andThen (identify env) (fun type =>
      andThen (tell (Log ("found generic installer type: " +:+ show type))) (fun _ =>
        let module := if falsy type then "./naked" else "./" +:+ show type in
        andThen (tell (Require module)) (fun _ => pure module))).

(** [install] and [uninstall] (lines 10-18). *)
Definition install (env : Env) : run unit :=
  andThen (find_installer env) (fun installer =>
    (CallInstall installer :: [], installerResult env installer)).

Definition uninstall (env : Env) : run unit :=
  andThen (find_installer env) (fun installer =>
    (CallUninstall installer :: [], installerResult env installer)).

(** The verdict of [file(1)] alone: its third line against the one
    external needle. *)
Definition externalKind (out : list string) : kind :=
  if decide (out !! 2%nat = Some "InstallShield self-extracting archive")
  then Kind "archive" else Null.

(** The module [find_installer] requires for that verdict. *)
Definition pickedModule (out : list string) : string :=
  if decide (out !! 2%nat = Some "InstallShield self-extracting archive")
  then "./archive" else "./naked".

Definition isRequire (s : step) : bool :=
  match s with Require _ => true | _ => false end.

(** An Inno Setup installer on Windows: the stream search finds its needle
    in the second buffer, and [file(1)] has only two lines to say. *)
Definition innoEnv : Env :=
  {| platform := "win32";
     archive_path := "C:/downloads/setup.exe";
     buffers := ["MZ"; "Inno Setup Setup Data (5.5.0)"];
     readerError := None;
     streamMatches := fun v earlier _ =>
       if String.eqb v "Inno Setup Setup Data" && bool_decide (earlier = ["MZ"])
       then 1%nat else 0%nat;
     fileOutput := Fulfilled ["PE32 executable (GUI) Intel 80386"; "for MS Windows"];
     installerResult := fun _ => Fulfilled tt |}.

(** The same download on another platform, and with a reader that fails. *)
Definition onPlatform (p : string) (env : Env) : Env :=
  mkEnv p (archive_path env) (buffers env) (readerError env) (streamMatches env)
    (fileOutput env) (installerResult env).

Definition unreadable (e : JsError) (env : Env) : Env :=
  mkEnv (platform env) (archive_path env) (buffers env) (Some e) (streamMatches env)
    (fileOutput env) (installerResult env).

Definition touchesArchive (s : step) : bool :=
  match s with ReadArchive _ | RunFile _ => true | _ => false end.

End Generic.

(** More runs of the launch call, for the properties beyond the claims. *)
Module Demo2.

Definition setAction (action : string) (w : World) : World :=
  {| w_gameLazily := w_gameLazily w; w_actionForGame := action;
     w_appPath := w_appPath w; w_join := w_join w; w_itchPlatform := w_itchPlatform w;
     w_sniff := w_sniff w; w_configure := w_configure w; w_exists := w_exists w;
     w_readManifest := w_readManifest w;
     w_defaultManifestIcons := w_defaultManifestIcons w;
     w_promisedModal := w_promisedModal w;
     w_subkey := w_subkey w; w_prepare := w_prepare w; w_blockerId := w_blockerId w;
     w_ticks := w_ticks w; w_launcher := w_launcher w; w_nowOpen := w_nowOpen w;
     w_startedAt := w_startedAt w; w_nowCaught := w_nowCaught w;
     w_nowFinally := w_nowFinally w; w_gameLazilyOnError := w_gameLazilyOnError w |}.

(** The manifest file is there but cannot be read or parsed. *)
Definition badManifest (e : JsError) (w : World) : World :=
  {| w_gameLazily := w_gameLazily w; w_actionForGame := w_actionForGame w;
     w_appPath := w_appPath w; w_join := w_join w; w_itchPlatform := w_itchPlatform w;
     w_sniff := w_sniff w; w_configure := w_configure w; w_exists := true;
     w_readManifest := Rejected e;
     w_defaultManifestIcons := w_defaultManifestIcons w;
     w_promisedModal := w_promisedModal w;
     w_subkey := w_subkey w; w_prepare := w_prepare w; w_blockerId := w_blockerId w;
     w_ticks := w_ticks w; w_launcher := w_launcher w; w_nowOpen := w_nowOpen w;
     w_startedAt := w_startedAt w; w_nowCaught := w_nowCaught w;
     w_nowFinally := w_nowFinally w; w_gameLazilyOnError := w_gameLazilyOnError w |}.

(** The credential client, the prepare step, or the lookup of the game for
    the failure report, fails. *)
Definition noSubkey (e : JsError) (w : World) : World :=
  {| w_gameLazily := w_gameLazily w; w_actionForGame := w_actionForGame w;
     w_appPath := w_appPath w; w_join := w_join w; w_itchPlatform := w_itchPlatform w;
     w_sniff := w_sniff w; w_configure := w_configure w; w_exists := w_exists w;
     w_readManifest := w_readManifest w;
     w_defaultManifestIcons := w_defaultManifestIcons w;
     w_promisedModal := w_promisedModal w;
     w_subkey := Rejected e; w_prepare := w_prepare w; w_blockerId := w_blockerId w;
     w_ticks := w_ticks w; w_launcher := w_launcher w; w_nowOpen := w_nowOpen w;
     w_startedAt := w_startedAt w; w_nowCaught := w_nowCaught w;
     w_nowFinally := w_nowFinally w; w_gameLazilyOnError := w_gameLazilyOnError w |}.

Definition noPrepare (e : JsError) (w : World) : World :=
  {| w_gameLazily := w_gameLazily w; w_actionForGame := w_actionForGame w;
     w_appPath := w_appPath w; w_join := w_join w; w_itchPlatform := w_itchPlatform w;
     w_sniff := w_sniff w; w_configure := w_configure w; w_exists := w_exists w;
     w_readManifest := w_readManifest w;
     w_defaultManifestIcons := w_defaultManifestIcons w;
     w_promisedModal := w_promisedModal w;
     w_subkey := w_subkey w; w_prepare := Rejected e; w_blockerId := w_blockerId w;
     w_ticks := w_ticks w; w_launcher := w_launcher w; w_nowOpen := w_nowOpen w;
     w_startedAt := w_startedAt w; w_nowCaught := w_nowCaught w;
     w_nowFinally := w_nowFinally w; w_gameLazilyOnError := w_gameLazilyOnError w |}.

Definition noReport (e : JsError) (w : World) : World :=
  {| w_gameLazily := w_gameLazily w; w_actionForGame := w_actionForGame w;
     w_appPath := w_appPath w; w_join := w_join w; w_itchPlatform := w_itchPlatform w;
     w_sniff := w_sniff w; w_configure := w_configure w; w_exists := w_exists w;
     w_readManifest := w_readManifest w;
     w_defaultManifestIcons := w_defaultManifestIcons w;
     w_promisedModal := w_promisedModal w;
     w_subkey := w_subkey w; w_prepare := w_prepare w; w_blockerId := w_blockerId w;
     w_ticks := w_ticks w; w_launcher := w_launcher w; w_nowOpen := w_nowOpen w;
     w_startedAt := w_startedAt w; w_nowCaught := w_nowCaught w;
     w_nowFinally := w_nowFinally w; w_gameLazilyOnError := Rejected e |}.

(** The repair turns the package into an HTML game. *)
Definition htmlCave : ICaveRecord :=
  mkCave "cave-1" 42 (Some "html") None (Some "index.html") (Some 120) None
    7 {[ 7 := "overland-win.zip" ]}.

Definition repairing (w : World) : World :=
  {| w_gameLazily := w_gameLazily w; w_actionForGame := w_actionForGame w;
     w_appPath := w_appPath w; w_join := w_join w; w_itchPlatform := w_itchPlatform w;
     w_sniff := w_sniff w;
     w_configure := fun caves => Fulfilled (<["cave-1" := htmlCave]> caves);
     w_exists := w_exists w;
     w_readManifest := w_readManifest w;
     w_defaultManifestIcons := w_defaultManifestIcons w;
     w_promisedModal := w_promisedModal w;
     w_subkey := w_subkey w; w_prepare := w_prepare w; w_blockerId := w_blockerId w;
     w_ticks := w_ticks w; w_launcher := w_launcher w; w_nowOpen := w_nowOpen w;
     w_startedAt := w_startedAt w; w_nowCaught := w_nowCaught w;
     w_nowFinally := w_nowFinally w; w_gameLazilyOnError := w_gameLazilyOnError w |}.

(** A package of a type no launcher is registered for. *)
Definition flashCave : ICaveRecord :=
  mkCave "cave-1" 42 (Some "flash") None None (Some 120) None 7 {[ 7 := "overland-win.zip" ]}.
Definition flashOpts : IStartTaskOpts := mkOpts flashCave "api-key" true.
Definition flashCaves : gmap string ICaveRecord := {[ "cave-1" := flashCave ]}.

(** A package whose launch type is a key of [Object.prototype]. *)
Definition constructorCave : ICaveRecord :=
  mkCave "cave-1" 42 (Some "constructor") None None (Some 120) None
    7 {[ 7 := "overland-win.zip" ]}.
Definition constructorOpts : IStartTaskOpts := mkOpts constructorCave "api-key" true.
Definition constructorCaves : gmap string ICaveRecord := {[ "cave-1" := constructorCave ]}.

(** Two actions with the same name. *)
Definition play2 : IManifestAction := mkAction "play" "Overland2{{EXT}}" None None None.

End Demo2.

(** ** More vocabulary *)

Definition isLoggerClose (ev : event) : bool :=
  match ev with EvLoggerClose => true | _ => false end.
Definition isDiegoHire (ev : event) : bool :=
  match ev with EvDiegoHire => true | _ => false end.
Definition isLaunch (ev : event) : bool :=
  match ev with EvLaunch _ _ => true | _ => false end.
Definition isPrepare (ev : event) : bool :=
  match ev with EvPrepare _ _ _ => true | _ => false end.
Definition isSave (ev : event) : bool :=
  match ev with EvSaveEntity _ _ => true | _ => false end.

(** [detail] of the failure modal for the error [e] (lines 111-118). *)
Definition detailOf (e : JsError) : errorDetail :=
  match e_reason e with
  | Some reason => Localized reason
  | None => Stringified e
  end.

(** The events of the [catch] block of [start] when the game is found. *)
Definition reportEvents (cave : ICaveRecord) (game : IGameRecord) (e : JsError)
    : list event :=
  [EvGameLazily (c_gameId cave);
   EvLog LError (LogCrashedWith e);
   EvLog LError (LogErrorMessage e);
   EvDiegoHire;
   EvOpenModal game (detailOf e)].

(** The fields of a record that the launch call never writes. *)
Definition static (c : ICaveRecord) :=
  (c_id c, c_gameId c, c_launchType c, c_executables c, c_gamePath c,
   c_uploadId c, c_uploads c).

(** The play time the store holds for a package: 0 without a record or
    without the field. *)
Definition seconds (id : string) (caves : gmap string ICaveRecord) : Z :=
  default 0 (caves !! id ≫= c_secondsRun).

(** [caves'] differs from [caves] at most in the [secondsRun] and
    [lastTouched] of the record [id] (which is created when it was not
    there). *)
Definition onlyPlaytime (id : string) (caves caves' : gmap string ICaveRecord) : Prop :=
  (forall id', id' <> id -> caves' !! id' = caves !! id')
  /\ static (default (Market.blank id) (caves' !! id))
     = static (default (Market.blank id) (caves !! id)).

(** The same, with the play time unchanged too. *)
Definition onlyTouched (id : string) (caves caves' : gmap string ICaveRecord) : Prop :=
  onlyPlaytime id caves caves' /\ seconds id caves' = seconds id caves.

(** [keeps R m]: the store after [m] is related by [R] to the one before. *)
Definition keeps {A} (R : relation (gmap string ICaveRecord)) (m : M A) : Prop :=
  forall caves, R caves (r_caves (m caves)).

(** The record the call works with once it is found ready: the one it
    was given, or the one read again after the repair. *)
Definition readyCave (w : World) (opts : IStartTaskOpts)
    (caves : gmap string ICaveRecord) : option ICaveRecord :=
  match r_completion (readiness w opts caves) with
  | Normal (_, cave, _) => Some cave
  | _ => None
  end.

Definition registeredTypes : list string := ["native"; "html"; "shell"; "external"].

(** Where a launch type may come from: with a manifest action, it is what
    the classifier returns for the install folder of the record in use and
    the action's path, one of the four registered types; without one, it
    is the type of the record the call was given. *)
Definition typedBy (w : World) (opts : IStartTaskOpts) (caves : gmap string ICaveRecord)
    (lt : string) (lo : ILaunchOpts) : Prop :=
  match lo_manifestAction lo with
  | Some action =>
      In lt registeredTypes
      /\ exists cave,
           readyCave w opts caves = Some cave
           /\ forall caves0,
                r_completion
                  (launchTypeForAction (w_itchPlatform w) (w_join w) (w_sniff w)
                     (w_appPath w cave) (a_path action) caves0)
                = Normal lt
  | None => lt = default "native" (c_launchType (o_cave opts))
  end.

(** What holds of every strategy call: the prepare step is the one
    registered for [native], or what the table inherits under the key; the
    launcher is one of the four registered ones, or inherited as well. *)
Definition strategyTypeOk (w : World) (opts : IStartTaskOpts)
    (caves : gmap string ICaveRecord) (ev : event) : Prop :=
  match ev with
  | EvPrepare lt lo _ =>
      typedBy w opts caves lt lo
      /\ match lo_manifestAction lo with
         | Some _ => lt = "native"
         | None => lt = "native" \/ inherited lt = true
         end
  | EvLaunch lt lo =>
      typedBy w opts caves lt lo
      /\ match lo_manifestAction lo with
         | Some _ => In lt registeredTypes
         | None => In lt registeredTypes \/ inherited lt = true
         end
  | _ => True
  end.

(** Whether the call gets to its lifecycle block (line 298). *)
Definition reachesDispatch (w : World) (opts : IStartTaskOpts)
    (caves : gmap string ICaveRecord) : bool :=
  match r_completion (preDispatch w opts caves) with
  | Normal _ => true
  | _ => false
  end.

(** [stops bad e m]: when [m] emits an event of the kind [bad], it throws
    [e]. *)
Definition stops {A} (bad : event -> bool) (e : JsError) (m : M A) : Prop :=
  forall caves, count bad (r_trace (m caves)) <> 0%nat -> r_completion (m caves) = Throw e.

(** The position lines 212-244 select in the actions of a valid manifest:
    the first action named by the user's answer when there are several,
    the only action when there is one. *)
Definition selection (w : World) (acts : list IManifestAction) : option nat :=
  if (1 <? length acts)%nat then
    match w_promisedModal w with
    | MODAL_RESPONSE manifestActionName => findWhere manifestActionName acts
    | MODAL_CLOSED => None
    end
  else match acts with [] => None | _ :: _ => Some 0%nat end.

(** The manifest as the prepare step sees it once the action at [selected]
    has had its path rewritten in place. *)
Definition rewritten (w : World) (manifest : IManifest) (acts : list IManifestAction)
    (selected : option nat) : option IManifest :=
  match selected ≫= (fun i => (fun a => (i, a)) <$> acts !! i) with
  | Some (i, action) =>
      Some (mkManifest (Some (<[i := withExt (appExt (w_itchPlatform w)) action]> acts)))
  | None => Some manifest
  end.

(** What every strategy call carries, for the actions [acts] and the
    selected position. *)
Definition strategySelected (w : World) (manifest : IManifest) (acts : list IManifestAction)
    (selected : option nat) (ev : event) : Prop :=
  let chosen := withExt (appExt (w_itchPlatform w)) <$> (selected ≫= (fun i => acts !! i)) in
  match ev with
  | EvPrepare _ lo seen =>
      lo_manifestAction lo = chosen
      /\ lo_args lo = default [] (chosen ≫= a_args)
      /\ seen = rewritten w manifest acts selected
  | EvLaunch _ lo =>
      lo_manifestAction lo = chosen
      /\ lo_args lo = default [] (chosen ≫= a_args)
  | _ => True
  end.

(** A strategy called as if there were no manifest: no action, no
    arguments, an empty environment. *)
Definition strategyPlain (ev : event) : Prop :=
  match ev with
  | EvPrepare _ lo _ | EvLaunch _ lo =>
      lo_manifestAction lo = None /\ lo_args lo = [] /\ lo_env lo = ∅
  | _ => True
  end.

(** The manifest the prepare step is given holds the very action the
    options carry, at its old position among the otherwise unchanged
    actions [acts]. *)
Definition prepareSeesChosen (manifest : IManifest) (acts : list IManifestAction)
    (ev : event) : Prop :=
  match ev with
  | EvPrepare _ lo seen =>
      match lo_manifestAction lo with
      | Some action =>
          exists i seenActs,
            seen = Some (mkManifest (Some seenActs))
            /\ seenActs !! i = Some action
            /\ length seenActs = length acts
            /\ (forall j, j <> i -> seenActs !! j = acts !! j)
      | None => seen = Some manifest
      end
  | _ => True
  end.

(** [pat] occurs somewhere in [s]. *)
Definition occursIn (pat s : string) : Prop :=
  exists before after, s = before +:+ pat +:+ after.

(** The same, as a test. *)
Fixpoint occurs (pat s : string) : bool :=
  Str.starts_with pat s ||
  match s with
  | EmptyString => false
  | String _ s' => occurs pat s'
  end.

(** The repair fails, or it succeeds and the record is gone. *)
Module Demo3.

Definition noRepair (e : JsError) (w : World) : World :=
  {| w_gameLazily := w_gameLazily w; w_actionForGame := w_actionForGame w;
     w_appPath := w_appPath w; w_join := w_join w; w_itchPlatform := w_itchPlatform w;
     w_sniff := w_sniff w;
     w_configure := fun _ => Rejected e;
     w_exists := w_exists w;
     w_readManifest := w_readManifest w;
     w_defaultManifestIcons := w_defaultManifestIcons w;
     w_promisedModal := w_promisedModal w;
     w_subkey := w_subkey w; w_prepare := w_prepare w; w_blockerId := w_blockerId w;
     w_ticks := w_ticks w; w_launcher := w_launcher w; w_nowOpen := w_nowOpen w;
     w_startedAt := w_startedAt w; w_nowCaught := w_nowCaught w;
     w_nowFinally := w_nowFinally w; w_gameLazilyOnError := w_gameLazilyOnError w |}.

Definition uninstalling (w : World) : World :=
  {| w_gameLazily := w_gameLazily w; w_actionForGame := w_actionForGame w;
     w_appPath := w_appPath w; w_join := w_join w; w_itchPlatform := w_itchPlatform w;
     w_sniff := w_sniff w;
     w_configure := fun caves => Fulfilled (delete "cave-1" caves);
     w_exists := w_exists w;
     w_readManifest := w_readManifest w;
     w_defaultManifestIcons := w_defaultManifestIcons w;
     w_promisedModal := w_promisedModal w;
     w_subkey := w_subkey w; w_prepare := w_prepare w; w_blockerId := w_blockerId w;
     w_ticks := w_ticks w; w_launcher := w_launcher w; w_nowOpen := w_nowOpen w;
     w_startedAt := w_startedAt w; w_nowCaught := w_nowCaught w;
     w_nowFinally := w_nowFinally w; w_gameLazilyOnError := w_gameLazilyOnError w |}.

End Demo3.



(** [pat] matches at none of the positions of [before] in the string
    [before +:+ rest]: no occurrence of it begins there. *)
Definition noEarlier (pat before rest : string) : bool :=
  forallb (fun i => negb (Str.starts_with pat (Str.drop i (before +:+ rest))))
    (seq 0 (String.length before)).

(** ** Running the definitions *)

Example classify_exe :
  launchTypeForAction "linux" (fun a b => a +:+ "/" +:+ b) (fun _ => Fulfilled None)
    "/apps/g" "run.EXE" ∅
  = mkResult (Normal "native") ∅ [].
Proof. reflexivity. Qed.

Example classify_html_and_url :
  let classify := fun actionPath =>
    r_completion
      (launchTypeForAction "windows" (fun a b => a +:+ "/" +:+ b)
         (fun _ => Fulfilled (Some (mkSniff false false))) "/apps/g" actionPath ∅) in
  classify "index.html" = Normal "html"
  /\ classify "https://example.com" = Normal "external"
  /\ classify "https://example.com/setup.exe" = Normal "native"
  /\ classify "README" = Normal "shell".
Proof. repeat split. Qed.

(** A file the probe has nothing to say about. *)
Example classify_unknown_file :
  launchTypeForAction "linux" (fun a b => a +:+ "/" +:+ b) (fun _ => Fulfilled None)
    "/apps/g" "README" ∅
  = mkResult
      (Throw (mkError TypeError "Cannot read property 'linuxExecutable' of null" None))
      ∅ [EvSniff "/apps/g/README"].
Proof. reflexivity. Qed.

Example problem_of_native_without_executables :
  caveProblem Demo.brokenCave = Some ["game.install.no_executables_found"]
  /\ caveProblem Demo.cave = None.
Proof. split; reflexivity. Qed.

Example path_placeholder :
  a_path (withExt (appExt "windows") Demo.play) = "Overland.exe"
  /\ a_path (withExt (appExt "linux") Demo.play) = "Overland".
Proof. split; reflexivity. Qed.

Example launch_trace_ends_with_cleanup :
  drop 13 (r_trace (doStart Demo.world Demo.opts Demo.caves))
  = [EvClearInterval; EvBlockerStop 3; EvSaveEntity "cave-1" (touch 25000)].
Proof. vm_compute. reflexivity. Qed.

(** The launcher crashes 1.9 and 2.1 seconds after [startedAt]. *)
Example crash_around_the_threshold :
  r_completion (doStart (Demo.failing Demo.crash 2900 Demo.world) Demo.opts Demo.caves)
  = Throw Demo.crash
  /\ r_completion (doStart (Demo.failing Demo.crash 3100 Demo.world) Demo.opts Demo.caves)
     = Return.
Proof. split; vm_compute; reflexivity. Qed.

(** ** The monad's rules *)

Lemma count_app kind tr1 tr2 :
  count kind (tr1 ++ tr2) = (count kind tr1 + count kind tr2)%nat.
Proof. induction tr1 as [|ev tr1 IH]; simpl; [done | rewrite IH; lia]. Qed.

Lemma count_none kind tr :
  Forall (fun ev => kind ev = false) tr -> count kind tr = 0%nat.
Proof. induction 1 as [|ev tr Hev _ IH]; simpl; [done | by rewrite Hev, IH]. Qed.

Section Rules.
Context {A B : Type} (P : event -> Prop).

Lemma emits_ret (a : A) : emits P (ret a).
Proof. intros caves; constructor. Qed.

Lemma emits_return : emits P (@return_ A).
Proof. intros caves; constructor. Qed.

Lemma emits_throw e : emits P (@throw A e).
Proof. intros caves; constructor. Qed.

Lemma emits_getCaves : emits P getCaves.
Proof. intros caves; constructor. Qed.

Lemma emits_emit ev : P ev -> emits P (emit ev).
Proof. intros Hev caves; simpl; auto. Qed.

Lemma emits_log l m : P (EvLog l m) -> emits P (log l m).
Proof. apply emits_emit. Qed.

Lemma emits_await ev (p : settled A) : P ev -> emits P (await ev p).
Proof. intros Hev caves; unfold await; destruct p; simpl; auto. Qed.

Lemma emits_await_settled (p : settled A) : emits P (await_settled p).
Proof. intros caves; unfold await_settled; destruct p; constructor. Qed.

Lemma emits_saveEntity id p : P (EvSaveEntity id p) -> emits P (saveEntity id p).
Proof. intros Hev caves; simpl; auto. Qed.

Lemma emits_startTask ev task : P ev -> emits P (startTask ev task).
Proof. intros Hev caves; unfold startTask; destruct (task caves); simpl; auto. Qed.

Lemma emits_bind (m : M A) (f : A -> M B) :
  emits P m -> (forall a, emits P (f a)) -> emits P (bind m f).
Proof.
  intros Hm Hf caves; unfold bind.
  specialize (Hm caves).
  destruct (r_completion (m caves)); simpl; auto.
  apply Forall_app; split; [done | apply Hf].
Qed.

Lemma emits_try_catch (body : M A) handler :
  emits P body -> (forall e, emits P (handler e)) -> emits P (try_catch body handler).
Proof.
  intros Hm Hh caves; unfold try_catch.
  specialize (Hm caves).
  destruct (r_completion (body caves)); simpl; auto.
  apply Forall_app; split; [done | apply Hh].
Qed.

Lemma emits_fire callback : emits P callback -> emits P (fire callback).
Proof. intros Hm caves; apply Hm. Qed.

Lemma emits_try_finally (body : M A) fin :
  emits P body -> emits P fin -> emits P (try_finally body fin).
Proof.
  intros Hm Hf caves; unfold try_finally; simpl.
  apply Forall_app; split; [apply Hm | apply Hf].
Qed.
End Rules.

(** Splits [emits P m] along the structure of [m]; the events themselves
    are left to [done]. *)
Ltac emits_step :=
  first
    [ apply emits_ret | apply emits_return | apply emits_throw
    | apply emits_getCaves | apply emits_await_settled
    | apply emits_log | apply emits_emit | apply emits_await
    | apply emits_saveEntity | apply emits_startTask
    | apply emits_bind | apply emits_try_catch | apply emits_try_finally
    | match goal with
      | |- emits _ (match ?x with _ => _ end) => destruct x
      | |- emits _ (let _ := _ in _) => cbv zeta
      | |- forall _, _ => intros
      end
    | progress cbn beta ].

Ltac emits_tac := repeat emits_step; try done.

(** ** What each part of [doStart] may emit *)

Lemma emits_weaken {A} (P Q : event -> Prop) (m : M A) :
  (forall ev, P ev -> Q ev) -> emits P m -> emits Q m.
Proof. intros HPQ Hm caves. eapply Forall_impl; [apply Hm | done]. Qed.

Lemma emits_bigButtonsFrom P icons acts : forall i, emits P (bigButtonsFrom icons i acts).
Proof.
  induction acts as [|a acts IH]; intros i; simpl; [apply emits_ret|].
  destruct (String.eqb (a_name a) ""); [apply emits_throw|].
  apply emits_bind; [apply IH | intros; apply emits_ret].
Qed.

Lemma emits_readiness w opts : emits (fun ev => inReadiness ev = true) (readiness w opts).
Proof. unfold readiness. emits_tac. Qed.

Lemma emits_resolveManifest w game appPath :
  emits (fun ev => inResolveManifest ev = true) (resolveManifest w game appPath).
Proof.
  unfold resolveManifest, validateManifest.
  repeat first [apply emits_bigButtonsFrom | emits_step]; done.
Qed.

Lemma emits_launchTypeForAction P platform join sniff appPath actionPath :
  (forall fullPath, P (EvSniff fullPath)) ->
  emits P (launchTypeForAction platform join sniff appPath actionPath).
Proof. intros HP. unfold launchTypeForAction. emits_tac. Qed.

Lemma emits_launchOptions w opts game lt appPath manifest selected :
  emits (fun ev => inLaunchOptions ev = true)
        (launchOptions w opts game lt appPath manifest selected).
Proof.
  unfold launchOptions.
  repeat first [apply emits_launchTypeForAction; done | emits_step]; done.
Qed.

Lemma emits_prepareLaunch w cave lt lo manifest :
  emits (fun ev => inPrepareLaunch ev = true) (prepareLaunch w cave lt lo manifest).
Proof. unfold prepareLaunch. emits_tac. Qed.

Lemma emits_playtimeTick P id now :
  (forall p, P (EvSaveEntity id p)) -> emits P (playtimeTick id now).
Proof. intros HP. unfold playtimeTick. emits_tac. Qed.

Lemma emits_timerCallbacks P callback fires :
  (forall now, emits P (callback now)) -> emits P (timerCallbacks callback fires).
Proof.
  intros Hcb. induction fires as [|now fires IH]; simpl; [apply emits_ret|].
  apply emits_bind; [|done].
  apply emits_fire; done.
Qed.

Lemma emits_dispatch w opts cave lt lo startedAt :
  emits (fun ev => inDispatch ev = true) (dispatch w opts cave lt lo startedAt).
Proof.
  unfold dispatch, launchAndWait, onLaunchError, cleanup.
  repeat first
    [ apply emits_timerCallbacks; intros; apply emits_playtimeTick; done
    | emits_step ]; done.
Qed.

(** ** Running a sequence step by step *)

Lemma prepend_nil {A} (r : result A) : prepend [] r = r.
Proof. by destruct r. Qed.

Lemma prepend_prepend {A} tr1 tr2 (r : result A) :
  prepend tr1 (prepend tr2 r) = prepend (tr1 ++ tr2) r.
Proof. unfold prepend; simpl. by rewrite app_assoc. Qed.

Lemma bind_normal {A B} (m : M A) (f : A -> M B) caves a :
  r_completion (m caves) = Normal a ->
  bind m f caves = prepend (r_trace (m caves)) (f a (r_caves (m caves))).
Proof. intros H. unfold bind. by rewrite H. Qed.

Lemma bind_throw {A B} (m : M A) (f : A -> M B) caves e :
  r_completion (m caves) = Throw e ->
  bind m f caves = mkResult (Throw e) (r_caves (m caves)) (r_trace (m caves)).
Proof. intros H. unfold bind. by rewrite H. Qed.

(** [bind], with the trace of its first part in front. *)
Lemma bind_normal_or_not {A B} (m : M A) (f : A -> M B) caves :
  bind m f caves =
    match r_completion (m caves) with
    | Normal a => prepend (r_trace (m caves)) (f a (r_caves (m caves)))
    | Return => mkResult Return (r_caves (m caves)) (r_trace (m caves))
    | Throw e => mkResult (Throw e) (r_caves (m caves)) (r_trace (m caves))
    end.
Proof. unfold bind. by destruct (r_completion (m caves)). Qed.

Lemma bind_throw_completion {A B} (m : M A) (f : A -> M B) caves e :
  r_completion (m caves) = Throw e -> r_completion (bind m f caves) = Throw e.
Proof. intros H. by rewrite (bind_throw _ _ _ _ H). Qed.

Lemma bind_return {A B} (m : M A) (f : A -> M B) caves :
  r_completion (m caves) = Return ->
  bind m f caves = mkResult Return (r_caves (m caves)) (r_trace (m caves)).
Proof. intros H. unfold bind. by rewrite H. Qed.

Lemma bind_ret {A B} (a : A) (f : A -> M B) caves : bind (ret a) f caves = f a caves.
Proof. unfold bind, ret; simpl. by destruct (f a caves). Qed.

Lemma bind_emit {B} ev (f : unit -> M B) caves :
  bind (emit ev) f caves = prepend [ev] (f tt caves).
Proof. reflexivity. Qed.

Lemma bind_log {B} l m (f : unit -> M B) caves :
  bind (log l m) f caves = prepend [EvLog l m] (f tt caves).
Proof. reflexivity. Qed.

Lemma bind_saveEntity {B} id p (f : unit -> M B) caves :
  bind (saveEntity id p) f caves =
  prepend [EvSaveEntity id p] (f tt (Market.saveEntity id p caves)).
Proof. reflexivity. Qed.

Lemma bind_await {A B} ev (a : A) (f : A -> M B) caves :
  bind (await ev (Fulfilled a)) f caves = prepend [ev] (f a caves).
Proof. reflexivity. Qed.

Lemma bind_await_rejected {A B} ev e (f : A -> M B) caves :
  bind (await ev (Rejected e)) f caves = mkResult (Throw e) caves [ev].
Proof. reflexivity. Qed.

Lemma bind_getCaves {B} (f : gmap string ICaveRecord -> M B) caves :
  bind getCaves f caves = f caves caves.
Proof. unfold bind, getCaves; simpl. by destruct (f caves caves). Qed.

(** ** The lifecycle block, path by path *)

Lemma timerCallbacks_normal callback fires : forall caves,
  r_completion (timerCallbacks callback fires caves) = Normal tt.
Proof.
  induction fires as [|now fires IH]; intros caves; simpl; [done|].
  unfold bind, fire; simpl. apply IH.
Qed.

Lemma launchAndWait_run w opts cave lt lo caves :
  let played := timerCallbacks (playtimeTick (c_id cave)) (w_ticks w) caves in
  launchAndWait w opts cave lt lo caves =
    mkResult (launched w) (r_caves played)
      ([EvSetInterval 10000]
       ++ (if o_preventDisplaySleep opts then [EvBlockerStart "prevent-display-sleep"] else [])
       ++ [EvLaunch lt lo] ++ r_trace played).
Proof.
  intros played.
  pose proof (timerCallbacks_normal (playtimeTick (c_id cave)) (w_ticks w) caves) as Hn.
  fold played in Hn.
  unfold launchAndWait, launched.
  rewrite bind_emit.
  destruct (o_preventDisplaySleep opts);
    [rewrite bind_emit | rewrite bind_ret]; rewrite bind_emit;
    rewrite (bind_normal _ _ _ tt Hn); fold played;
    unfold await_settled, prepend; destruct (w_launcher w) as [[]|e];
    cbn [r_completion r_caves r_trace]; rewrite app_nil_r; reflexivity.
Qed.

Lemma onLaunchError_run w cave startedAt e caves :
  onLaunchError w cave startedAt e caves =
    mkResult
      (if lateCrash w startedAt e then Return
       else if instanceof e Cancelled then Return else Throw e)
      caves
      (EvLog LError (LogErrorWhileLaunching (c_id cave) e)
       :: if lateCrash w startedAt e
          then [EvLog LWarn (LogIgnoringCrash (secondsRunning w startedAt) e)]
          else []).
Proof.
  unfold onLaunchError, lateCrash. rewrite bind_log.
  destruct (instanceof e Crash); cbn [andb].
  - destruct (negb (Qle_bool (secondsRunning w startedAt) (inject_Z 2))).
    + reflexivity.
    + rewrite bind_ret. destruct (instanceof e Cancelled); reflexivity.
  - rewrite bind_ret. destruct (instanceof e Cancelled); reflexivity.
Qed.

Lemma cleanup_run w opts cave caves :
  cleanup w cave (if o_preventDisplaySleep opts then Some (w_blockerId w) else None) caves =
    mkResult (Normal tt)
      (Market.saveEntity (c_id cave) (touch (w_nowFinally w)) caves)
      (cleanupEvents w opts cave).
Proof.
  unfold cleanup, cleanupEvents. rewrite bind_emit.
  destruct (o_preventDisplaySleep opts); [rewrite bind_emit | rewrite bind_ret]; reflexivity.
Qed.

Lemma dispatch_paths w opts cave lt lo startedAt caves :
  let played := timerCallbacks (playtimeTick (c_id cave)) (w_ticks w) caves in
  exists logged,
    dispatch w opts cave lt lo startedAt caves =
      mkResult (verdict w startedAt)
        (Market.saveEntity (c_id cave) (touch (w_nowFinally w)) (r_caves played))
        ([EvSetInterval 10000]
         ++ (if o_preventDisplaySleep opts then [EvBlockerStart "prevent-display-sleep"] else [])
         ++ [EvLaunch lt lo] ++ r_trace played ++ logged
         ++ cleanupEvents w opts cave)
    /\ Forall (fun ev => isLog ev = true) logged
    /\ (forall e, w_launcher w = Rejected e -> e_class e = Crash ->
        verdict w startedAt = Return ->
        In (EvLog LWarn (LogIgnoringCrash (secondsRunning w startedAt) e)) logged).
Proof.
  intros played.
  unfold dispatch, try_finally, try_catch.
  rewrite launchAndWait_run. fold played.
  cbn [r_completion r_caves r_trace].
  unfold launched, verdict.
  destruct (w_launcher w) as [[]|e] eqn:Hl.
  - exists []. rewrite cleanup_run. cbn [r_completion r_caves r_trace].
    split; [|split].
    + f_equal. by rewrite <- !app_assoc.
    + constructor.
    + intros e' He'. discriminate.
  - rewrite onLaunchError_run. cbn [r_completion r_caves r_trace].
    rewrite cleanup_run. cbn [r_completion r_caves r_trace].
    fold (lateCrash w startedAt e).
    exists (EvLog LError (LogErrorWhileLaunching (c_id cave) e)
            :: if lateCrash w startedAt e
               then [EvLog LWarn (LogIgnoringCrash (secondsRunning w startedAt) e)]
               else []).
    split; [|split].
    + f_equal. by rewrite <- !app_assoc.
    + destruct (lateCrash w startedAt e); repeat constructor.
    + intros e' [= <-] Hc Hv. unfold lateCrash in *.
      unfold instanceof in *. rewrite Hc in *. cbn [andb] in *.
      destruct (negb _); [right; left; reflexivity | discriminate].
Qed.

(** ** From [doStart] to its lifecycle block *)

Lemma emits_preLaunch w opts game cave lt :
  emits (fun ev => inPreLaunch ev = true) (preLaunch w opts game cave lt).
Proof.
  unfold preLaunch, inPreLaunch. apply emits_bind.
  { eapply emits_weaken; [|apply emits_resolveManifest]. by intros ev ->. }
  intros [manifest selected]. apply emits_bind.
  { eapply emits_weaken; [|apply emits_launchOptions].
    intros ev H; cbn beta in H; rewrite H. by rewrite !orb_true_r. }
  intros [[lt' lo] manifest']. apply emits_bind.
  { eapply emits_weaken; [|apply emits_prepareLaunch].
    intros ev H; cbn beta in H; rewrite H. by rewrite !orb_true_r. }
  intros; apply emits_ret.
Qed.

Lemma emits_preDispatch w opts :
  emits (fun ev => beforeDispatch ev = true) (preDispatch w opts).
Proof.
  unfold preDispatch, preLaunch, beforeDispatch.
  apply emits_bind.
  { eapply emits_weaken; [|apply emits_readiness]. by intros ev ->. }
  intros [[game cave] lt]. apply emits_bind.
  { eapply emits_weaken; [|apply emits_resolveManifest].
    intros ev H; cbn beta in H; rewrite H. by rewrite !orb_true_r. }
  intros [manifest selected]. apply emits_bind.
  { eapply emits_weaken; [|apply emits_launchOptions].
    intros ev H; cbn beta in H; rewrite H. by rewrite !orb_true_r. }
  intros [[lt' lo] manifest']. apply emits_bind.
  { eapply emits_weaken; [|apply emits_prepareLaunch].
    intros ev H; cbn beta in H; rewrite H. by rewrite !orb_true_r. }
  intros; apply emits_ret.
Qed.

Lemma emits_doStartBody w opts :
  emits (fun ev => beforeDispatch ev || inDispatch ev = true) (doStartBody w opts).
Proof.
  unfold doStartBody. apply emits_bind.
  { eapply emits_weaken; [|apply emits_preDispatch]. by intros ev ->. }
  intros [[[cave lt] lo] startedAt].
  eapply emits_weaken; [|apply emits_dispatch].
  intros ev H; cbn beta in H; rewrite H. by rewrite orb_true_r.
Qed.

(** A launch that reaches line 298 is its first part followed by the
    lifecycle block. *)
Lemma doStart_reaches_dispatch w opts caves cave lt lo startedAt :
  r_completion (preDispatch w opts caves) = Normal (cave, lt, lo, startedAt) ->
  doStart w opts caves =
    prepend (r_trace (preDispatch w opts caves))
      (dispatch w opts cave lt lo startedAt (r_caves (preDispatch w opts caves))).
Proof.
  intros H. unfold doStart, doStartBody. by rewrite (bind_normal _ _ _ _ H).
Qed.

Lemma bind_normal_inv {A B} (m : M A) (f : A -> M B) caves b :
  r_completion (bind m f caves) = Normal b ->
  exists a, r_completion (m caves) = Normal a
            /\ r_completion (f a (r_caves (m caves))) = Normal b.
Proof.
  unfold bind. destruct (r_completion (m caves)) as [a| |e] eqn:E;
    cbn [r_completion]; intros H; try discriminate.
  by exists a.
Qed.

Lemma prepareLaunch_startedAt w cave lt lo manifest caves startedAt :
  r_completion (prepareLaunch w cave lt lo manifest caves) = Normal startedAt ->
  startedAt = w_startedAt w.
Proof.
  unfold prepareLaunch. destruct (launchers lt); [|discriminate].
  intros H. apply bind_normal_inv in H as ([] & _ & H).
  rewrite bind_saveEntity in H. cbn in H. congruence.
Qed.

Lemma preDispatch_startedAt w opts caves cave lt lo startedAt :
  r_completion (preDispatch w opts caves) = Normal (cave, lt, lo, startedAt) ->
  startedAt = w_startedAt w.
Proof.
  unfold preDispatch, preLaunch. intros H.
  apply bind_normal_inv in H as ([[game cave'] lt'] & _ & H).
  apply bind_normal_inv in H as ([manifest selected] & _ & H).
  apply bind_normal_inv in H as ([[lt'' lo'] manifest'] & _ & H).
  apply bind_normal_inv in H as (s & Hs & H).
  apply prepareLaunch_startedAt in Hs. cbn in H. congruence.
Qed.

Lemma count_zero (P : event -> Prop) kind tr :
  Forall P tr -> (forall ev, P ev -> kind ev = false) -> count kind tr = 0%nat.
Proof.
  intros Htr HP. apply count_none. eapply Forall_impl; [apply Htr | apply HP].
Qed.

Lemma played_only_saves w cave caves :
  Forall (fun ev => inDispatch ev = true /\ isLifecycle ev = false /\ isLog ev = false)
    (r_trace (timerCallbacks (playtimeTick (c_id cave)) (w_ticks w) caves)).
Proof.
  apply emits_timerCallbacks. intros now. by apply emits_playtimeTick.
Qed.

Lemma lookup_saveEntity id p caves :
  Market.saveEntity id p caves !! id
  = Some (Market.merge p (default (Market.blank id) (caves !! id))).
Proof. unfold Market.saveEntity. apply lookup_insert_eq. Qed.

(** The comparison of line 317, in seconds and in the clock's
    milliseconds. *)
Lemma late_iff w startedAt :
  negb (Qle_bool (secondsRunning w startedAt) (inject_Z 2)) = true
  <-> (inject_Z 2 < secondsRunning w startedAt)%Q.
Proof.
  rewrite negb_true_iff. split.
  - intros H. apply Qnot_le_lt. intros Hle. apply Qle_bool_iff in Hle. congruence.
  - intros H. destruct (Qle_bool _ _) eqn:E; [|done].
    apply Qle_bool_iff in E. exfalso. by apply (Qlt_not_le _ _ H).
Qed.

Lemma secondsRunning_ms w startedAt :
  (inject_Z 2 < secondsRunning w startedAt)%Q <-> 2000 < w_nowCaught w - startedAt.
Proof.
  unfold secondsRunning, Qlt, Qdiv, Qmult, Qinv, inject_Z. cbn. lia.
Qed.

(** ** The claims *)

(** C1. A launch call that reaches the lifecycle block (line 298) ends, on
    every exit path, with the [finally] block and runs it once: the trace
    is some events followed by [clearInterval], then
    [powerSaveBlocker.stop] exactly when the lock was taken (which is
    exactly when [preventDisplaySleep] is set; with a [null] token nothing
    is released), then the write of [lastTouched]; none of the timer's
    cancellation or the lock's release occurs earlier, the launcher was
    called before, and the store holds the final timestamp. *)
Theorem C1_cleanup_runs_once w opts caves cave lt lo startedAt :
  r_completion (preDispatch w opts caves) = Normal (cave, lt, lo, startedAt) ->
  let r := doStart w opts caves in
  let locked := if o_preventDisplaySleep opts then 1%nat else 0%nat in
  r_completion r = verdict w startedAt
  /\ (exists before : list event,
        r_trace r = before ++ cleanupEvents w opts cave
        /\ In (EvLaunch lt lo) before
        /\ count isClearInterval before = 0%nat
        /\ count isBlockerStop before = 0%nat
        /\ count isBlockerStart before = locked)
  /\ count isSetInterval (r_trace r) = 1%nat
  /\ count isClearInterval (r_trace r) = 1%nat
  /\ count isBlockerStart (r_trace r) = locked
  /\ count isBlockerStop (r_trace r) = locked
  /\ (o_preventDisplaySleep opts = true -> In (EvBlockerStop (w_blockerId w)) (r_trace r))
  /\ c_lastTouched <$> (r_caves r !! c_id cave) = Some (Some (w_nowFinally w)).
Proof.
  intros Hpre r locked. subst r.
  rewrite (doStart_reaches_dispatch _ _ _ _ _ _ _ Hpre).
  pose proof (emits_preDispatch w opts caves) as Hbefore.
  set (pre := preDispatch w opts caves) in *.
  destruct (dispatch_paths w opts cave lt lo startedAt (r_caves pre))
    as (logged & -> & Hlog & _).
  pose proof (played_only_saves w cave (r_caves pre)) as Hplayed.
  set (played := timerCallbacks _ _ _) in *.
  unfold prepend; cbn [r_completion r_caves r_trace].
  assert (Hpre0 : forall kind, (forall ev, beforeDispatch ev = true -> kind ev = false) ->
                               count kind (r_trace pre) = 0%nat).
  { intros kind Hk. by eapply count_zero. }
  assert (Hplayed0 : forall kind, (forall ev, isLifecycle ev = false -> kind ev = false) ->
                                  count kind (r_trace played) = 0%nat).
  { intros kind Hk. eapply count_zero; [apply Hplayed|]. intros ev (_ & H & _). auto. }
  assert (Hlog0 : forall kind, (forall ev, isLog ev = true -> kind ev = false) ->
                               count kind logged = 0%nat).
  { intros kind Hk. by eapply count_zero. }
  assert (Hc1 := Hpre0 isClearInterval ltac:(by intros []));
  assert (Hc2 := Hpre0 isBlockerStop ltac:(by intros []));
  assert (Hc3 := Hpre0 isBlockerStart ltac:(by intros []));
  assert (Hc4 := Hpre0 isSetInterval ltac:(by intros []));
  assert (Hd1 := Hplayed0 isClearInterval ltac:(by intros []));
  assert (Hd2 := Hplayed0 isBlockerStop ltac:(by intros []));
  assert (Hd3 := Hplayed0 isBlockerStart ltac:(by intros []));
  assert (Hd4 := Hplayed0 isSetInterval ltac:(by intros []));
  assert (He1 := Hlog0 isClearInterval ltac:(by intros []));
  assert (He2 := Hlog0 isBlockerStop ltac:(by intros []));
  assert (He3 := Hlog0 isBlockerStart ltac:(by intros []));
  assert (He4 := Hlog0 isSetInterval ltac:(by intros [])).
  split; [done|]. split.
  { exists (r_trace pre ++ [EvSetInterval 10000]
            ++ (if o_preventDisplaySleep opts
                then [EvBlockerStart "prevent-display-sleep"] else [])
            ++ [EvLaunch lt lo] ++ r_trace played ++ logged).
    split; [by rewrite <- !app_assoc|].
    split.
    { apply in_or_app; right. apply in_or_app; right. apply in_or_app; right.
      by left. }
    rewrite !count_app, Hc1, Hc2, Hc3, Hd1, Hd2, Hd3, He1, He2, He3.
    unfold locked. destruct (o_preventDisplaySleep opts); done. }
  unfold cleanupEvents.
  rewrite !count_app, Hc1, Hc2, Hc3, Hc4, Hd1, Hd2, Hd3, Hd4, He1, He2, He3, He4.
  unfold locked.
  split; [|split; [|split; [|split; [|split]]]].
  - destruct (o_preventDisplaySleep opts); done.
  - destruct (o_preventDisplaySleep opts); done.
  - destruct (o_preventDisplaySleep opts); done.
  - destruct (o_preventDisplaySleep opts); done.
  - intros ->. rewrite !in_app_iff. cbn. tauto.
  - by rewrite lookup_saveEntity.
Qed.

Lemma C1_witness :
  let ctx := (Demo.cave, "native", mkLaunchOpts Demo.cave None ∅ [], 1000) in
  r_completion (preDispatch Demo.world Demo.opts Demo.caves) = Normal ctx
  /\ count isClearInterval (r_trace (doStart Demo.world Demo.opts Demo.caves)) = 1%nat
  /\ count isBlockerStop (r_trace (doStart Demo.world Demo.opts Demo.caves)) = 1%nat.
Proof.
  intros ctx.
  assert (H : r_completion (preDispatch Demo.world Demo.opts Demo.caves) = Normal ctx)
    by (vm_compute; reflexivity).
  split; [exact H|].
  pose proof (C1_cleanup_runs_once Demo.world Demo.opts Demo.caves
                Demo.cave "native" (mkLaunchOpts Demo.cave None ∅ []) 1000 H) as C.
  cbv zeta in C. split; [apply C | apply C].
Defined.

(** [start] when [doStart] settles without an error: nothing is shown to
    the user. *)
Lemma start_quiet w opts caves :
  settle (r_completion (doStart w opts caves)) = Resolved ->
  settle (r_completion (start w opts caves)) = Resolved
  /\ r_trace (start w opts caves) = r_trace (doStart w opts caves) ++ [EvLoggerClose]
  /\ count isOpenModal (r_trace (start w opts caves)) = 0%nat.
Proof.
  intros H. unfold start, try_finally, try_catch, doStart in *. cbv zeta.
  pose proof (emits_doStartBody w opts caves) as Hev.
  destruct (r_completion (doStartBody w opts caves)) eqn:E;
    cbn [r_completion r_caves r_trace emit]; try discriminate.
  all: rewrite E; split; [done|]; split; [done|].
  all: rewrite count_app; erewrite count_zero; [done | apply Hev | by intros []].
Qed.

(** [start] when [doStart] throws: the failure modal is opened with the
    error's reason, or with the error itself. *)
Lemma start_reports w opts caves e game :
  r_completion (doStart w opts caves) = Throw e ->
  w_gameLazilyOnError w = Fulfilled game ->
  In (EvOpenModal game
        (match e_reason e with Some reason => Localized reason | None => Stringified e end))
     (r_trace (start w opts caves)).
Proof.
  intros H Hg. unfold start, try_finally, try_catch, doStart in *. cbv zeta.
  rewrite H, Hg. cbn [r_completion r_caves r_trace].
  rewrite bind_await, !bind_log, bind_emit.
  cbn. rewrite !in_app_iff. cbn. tauto.
Qed.

(** A launch that reaches the lifecycle block completes as the [catch]
    block decides, and its trace ends with the [finally] block. *)
Lemma doStart_settles w opts caves cave lt lo startedAt :
  r_completion (preDispatch w opts caves) = Normal (cave, lt, lo, startedAt) ->
  r_completion (doStart w opts caves) = verdict w startedAt
  /\ (exists before, r_trace (doStart w opts caves) = before ++ cleanupEvents w opts cave)
  /\ (forall e, w_launcher w = Rejected e -> e_class e = Crash ->
      verdict w startedAt = Return ->
      In (EvLog LWarn (LogIgnoringCrash (secondsRunning w startedAt) e))
         (r_trace (doStart w opts caves))).
Proof.
  intros Hpre. rewrite (doStart_reaches_dispatch _ _ _ _ _ _ _ Hpre).
  destruct (dispatch_paths w opts cave lt lo startedAt
              (r_caves (preDispatch w opts caves))) as (logged & -> & _ & Hwarn).
  unfold prepend; cbn [r_completion r_caves r_trace].
  split; [done|]. split.
  - eexists. rewrite !app_assoc. reflexivity.
  - intros e Hl Hc Hv. specialize (Hwarn e Hl Hc Hv).
    rewrite !in_app_iff. tauto.
Qed.

Lemma verdict_crash w startedAt e :
  w_launcher w = Rejected e -> e_class e = Crash ->
  verdict w startedAt =
    if negb (Qle_bool (secondsRunning w startedAt) (inject_Z 2)) then Return else Throw e.
Proof.
  intros Hl Hc. unfold verdict, instanceof. rewrite Hl, Hc. cbn [andb].
  by destruct (negb _).
Qed.

Lemma verdict_cancelled w startedAt e :
  w_launcher w = Rejected e -> e_class e = Cancelled -> verdict w startedAt = Return.
Proof. intros Hl Hc. unfold verdict, instanceof. by rewrite Hl, Hc. Qed.

(** C2. When the launcher throws a [Crash]: if more than 2 seconds passed
    since [startedAt] was taken, the launch call logs a warning and returns
    normally, and its caller [start] shows nothing; if 2 seconds or less
    passed, the same error is thrown to the caller. *)
Theorem C2_crash_grace_threshold w opts caves cave lt lo startedAt e :
  r_completion (preDispatch w opts caves) = Normal (cave, lt, lo, startedAt) ->
  w_launcher w = Rejected e ->
  e_class e = Crash ->
  let elapsed := secondsRunning w startedAt in
  startedAt = w_startedAt w
  /\ ((inject_Z 2 < elapsed)%Q <-> 2000 < w_nowCaught w - w_startedAt w)
  /\ ((inject_Z 2 < elapsed)%Q ->
      r_completion (doStart w opts caves) = Return
      /\ In (EvLog LWarn (LogIgnoringCrash elapsed e)) (r_trace (doStart w opts caves))
      /\ settle (r_completion (start w opts caves)) = Resolved
      /\ count isOpenModal (r_trace (start w opts caves)) = 0%nat)
  /\ ((elapsed <= inject_Z 2)%Q ->
      r_completion (doStart w opts caves) = Throw e
      /\ settle (r_completion (doStart w opts caves)) = Raised e).
Proof.
  intros Hpre Hl Hc elapsed.
  destruct (doStart_settles _ _ _ _ _ _ _ Hpre) as (Hv & _ & Hwarn).
  rewrite (verdict_crash _ _ _ Hl Hc) in Hv.
  split; [by eapply preDispatch_startedAt|]. split.
  { unfold elapsed. rewrite secondsRunning_ms.
    by rewrite (preDispatch_startedAt _ _ _ _ _ _ _ Hpre). }
  split.
  - intros Hlate. apply late_iff in Hlate. rewrite Hlate in Hv.
    assert (Hq : settle (r_completion (doStart w opts caves)) = Resolved) by by rewrite Hv.
    destruct (start_quiet _ _ _ Hq) as (Hs & _ & Hm).
    repeat split; try done.
    apply Hwarn; [done | done |]. rewrite (verdict_crash _ _ _ Hl Hc). by rewrite Hlate.
  - intros Hearly. apply Qle_bool_iff in Hearly.
    fold elapsed in Hv. rewrite Hearly in Hv. by rewrite Hv.
Qed.

Lemma C2_witness :
  let w := Demo.failing Demo.crash 3001 Demo.world in
  r_completion (doStart w Demo.opts Demo.caves) = Return
  /\ r_completion (doStart (Demo.failing Demo.crash 3000 Demo.world) Demo.opts Demo.caves)
     = Throw Demo.crash.
Proof.
  intros w. split.
  - assert (H : r_completion (preDispatch w Demo.opts Demo.caves)
                = Normal (Demo.cave, "native", mkLaunchOpts Demo.cave None ∅ [], 1000))
      by (vm_compute; reflexivity).
    refine (proj1 (proj1 (proj2 (proj2 (C2_crash_grace_threshold w Demo.opts Demo.caves
              _ _ _ _ Demo.crash H eq_refl eq_refl))) _)).
    vm_compute; reflexivity.
  - assert (H : r_completion (preDispatch (Demo.failing Demo.crash 3000 Demo.world)
                                Demo.opts Demo.caves)
                = Normal (Demo.cave, "native", mkLaunchOpts Demo.cave None ∅ [], 1000))
      by (vm_compute; reflexivity).
    refine (proj1 (proj2 (proj2 (proj2 (C2_crash_grace_threshold _ Demo.opts Demo.caves
              _ _ _ _ Demo.crash H eq_refl eq_refl))) _)).
    vm_compute. discriminate.
Defined.

(** C3, as claimed, fails: a [Crash] thrown 0.5 seconds after [startedAt]
    is thrown on by [doStart], not swallowed. *)
Lemma C3_counterexample :
  let w := Demo.failing Demo.crash 1500 Demo.world in
  w_launcher w = Rejected Demo.crash
  /\ (secondsRunning w (w_startedAt w) == 1 # 2)%Q
  /\ r_completion (doStart w Demo.opts Demo.caves) = Throw Demo.crash
  /\ settle (r_completion (doStart w Demo.opts Demo.caves)) <> Resolved.
Proof.
  intros w. split; [reflexivity|]. split; [reflexivity|].
  assert (H : r_completion (doStart w Demo.opts Demo.caves) = Throw Demo.crash)
    by (vm_compute; reflexivity).
  split; [exact H|]. rewrite H. discriminate.
Qed.

(** C3, amended. A [Crash] thrown 0.5 seconds after [startedAt] is within
    the grace period: the launch call throws it on to its caller. *)
Theorem C3_crash_after_half_second_is_fatal w opts caves cave lt lo startedAt e :
  r_completion (preDispatch w opts caves) = Normal (cave, lt, lo, startedAt) ->
  w_launcher w = Rejected e ->
  e_class e = Crash ->
  w_nowCaught w - startedAt = 500 ->
  (secondsRunning w startedAt == 1 # 2)%Q
  /\ r_completion (doStart w opts caves) = Throw e
  /\ settle (r_completion (doStart w opts caves)) = Raised e.
Proof.
  intros Hpre Hl Hc Hms.
  destruct (doStart_settles _ _ _ _ _ _ _ Hpre) as (Hv & _ & _).
  rewrite (verdict_crash _ _ _ Hl Hc) in Hv.
  assert (Hq : (secondsRunning w startedAt == 1 # 2)%Q).
  { unfold secondsRunning. rewrite Hms. reflexivity. }
  split; [done|].
  assert (Hle : Qle_bool (secondsRunning w startedAt) (inject_Z 2) = true).
  { apply Qle_bool_iff. rewrite Hq. discriminate. }
  rewrite Hle in Hv. by rewrite Hv.
Qed.

Lemma C3_witness :
  r_completion (doStart (Demo.failing Demo.crash 1500 Demo.world) Demo.opts Demo.caves)
  = Throw Demo.crash.
Proof.
  assert (H : r_completion (preDispatch (Demo.failing Demo.crash 1500 Demo.world)
                              Demo.opts Demo.caves)
              = Normal (Demo.cave, "native", mkLaunchOpts Demo.cave None ∅ [], 1000))
    by (vm_compute; reflexivity).
  exact (proj1 (proj2 (C3_crash_after_half_second_is_fatal _ Demo.opts Demo.caves
           _ _ _ _ Demo.crash H eq_refl eq_refl eq_refl))).
Defined.

(** C9. When the launcher throws a [Cancelled], whatever the clock says,
    the launch call returns normally after the [finally] block, and its
    caller [start] resolves too and opens no failure modal. *)
Theorem C9_cancelled_is_benign w opts caves cave lt lo startedAt e :
  r_completion (preDispatch w opts caves) = Normal (cave, lt, lo, startedAt) ->
  w_launcher w = Rejected e ->
  e_class e = Cancelled ->
  r_completion (doStart w opts caves) = Return
  /\ settle (r_completion (doStart w opts caves)) = Resolved
  /\ (exists before, r_trace (doStart w opts caves) = before ++ cleanupEvents w opts cave)
  /\ settle (r_completion (start w opts caves)) = Resolved
  /\ count isOpenModal (r_trace (start w opts caves)) = 0%nat.
Proof.
  intros Hpre Hl Hc.
  destruct (doStart_settles _ _ _ _ _ _ _ Hpre) as (Hv & Hshape & _).
  rewrite (verdict_cancelled _ _ _ Hl Hc) in Hv.
  assert (Hq : settle (r_completion (doStart w opts caves)) = Resolved) by by rewrite Hv.
  destruct (start_quiet _ _ _ Hq) as (Hs & _ & Hm).
  done.
Qed.

Lemma C9_witness :
  r_completion (doStart (Demo.failing Demo.cancelled 1001 Demo.world) Demo.opts Demo.caves)
  = Return
  /\ count isOpenModal
       (r_trace (start (Demo.failing Demo.cancelled 1001 Demo.world) Demo.opts Demo.caves))
     = 0%nat.
Proof.
  assert (H : r_completion (preDispatch (Demo.failing Demo.cancelled 1001 Demo.world)
                              Demo.opts Demo.caves)
              = Normal (Demo.cave, "native", mkLaunchOpts Demo.cave None ∅ [], 1000))
    by (vm_compute; reflexivity).
  pose proof (C9_cancelled_is_benign _ Demo.opts Demo.caves _ _ _ _ Demo.cancelled
                H eq_refl eq_refl) as C.
  split; apply C.
Defined.

(** ** The playtime tick *)

Lemma playtimeTick_run id now caves record :
  caves !! id = Some record ->
  playtimeTick id now caves =
    mkResult (Normal tt) (Market.saveEntity id (tickPatch record now) caves)
      [EvSaveEntity id (tickPatch record now)].
Proof.
  intros H. unfold playtimeTick. rewrite bind_getCaves.
  unfold Market.getEntity. by rewrite H.
Qed.

Lemma timerCallbacks_cons callback now fires caves :
  timerCallbacks callback (now :: fires) caves =
    prepend (r_trace (callback now caves))
      (timerCallbacks callback fires (r_caves (callback now caves))).
Proof. reflexivity. Qed.

(** Up to [2^53] the sum of two numbers is the sum of the integers. *)
Lemma round_exact z : - 2 ^ 53 <= z <= 2 ^ 53 -> Number.round z = z.
Proof.
  intros Hz. unfold Number.round, Number.ulp.
  destruct (Z.ltb_spec (Z.abs z) (2 ^ 53)) as [Hlt|Hge].
  - rewrite Z.div_1_r, Z.mod_1_r. change (2 * 0 <? 1) with true. cbv iota. lia.
  - assert (Hz' : z = 2 ^ 53 \/ z = - 2 ^ 53) by lia.
    destruct Hz' as [->| ->]; reflexivity.
Qed.

Lemma add_exact x y : - 2 ^ 53 <= x + y <= 2 ^ 53 -> Number.add x y = x + y.
Proof. apply round_exact. Qed.

(** Beyond [2^53] the sum is rounded: at [2^54] a tick adds 8, not 10. *)
Example tick_rounds_beyond_2_53 :
  Number.add UPDATE_PLAYTIME_INTERVAL (2 ^ 54) = 2 ^ 54 + 8
  /\ Number.add UPDATE_PLAYTIME_INTERVAL (2 ^ 54 + 8) = 2 ^ 54 + 16.
Proof. split; reflexivity. Qed.

(** Any number of ticks: each adds one interval to what the store holds,
    as long as the sums stay exact. *)
Lemma ticks_accumulate id fires : forall caves record,
  caves !! id = Some record ->
  - 2 ^ 53 <= default 0 (c_secondsRun record) ->
  default 0 (c_secondsRun record) + UPDATE_PLAYTIME_INTERVAL * Z.of_nat (length fires)
  <= 2 ^ 53 ->
  exists record',
    r_caves (timerCallbacks (playtimeTick id) fires caves) !! id = Some record'
    /\ default 0 (c_secondsRun record')
       = default 0 (c_secondsRun record) + UPDATE_PLAYTIME_INTERVAL * Z.of_nat (length fires).
Proof.
  unfold UPDATE_PLAYTIME_INTERVAL.
  induction fires as [|now fires IH]; intros caves record H Hlo Hhi.
  - exists record. split; [done|]. cbn [length]. lia.
  - cbn [length] in Hhi.
    assert (Hs1 : default 0 (c_secondsRun (Market.merge (tickPatch record now) record))
                  = default 0 (c_secondsRun record) + 10).
    { unfold tickPatch, Market.merge, UPDATE_PLAYTIME_INTERVAL; cbn.
      rewrite add_exact; lia. }
    rewrite timerCallbacks_cons, (playtimeTick_run _ _ _ _ H).
    unfold prepend; cbn [r_caves r_trace].
    destruct (IH (Market.saveEntity id (tickPatch record now) caves)
                 (Market.merge (tickPatch record now) record)) as (record' & Hl & Hs).
    { rewrite lookup_saveEntity. by rewrite H. }
    { lia. }
    { lia. }
    exists record'. split; [done|]. rewrite Hs, Hs1. cbn [length]. lia.
Qed.

(** C7. With the record in the store, a tick writes back the stored
    [secondsRun] (0 when missing) plus the 10-second interval, with the
    timestamp it read; a second tick starts from what the first one stored,
    so two ticks add exactly 20.  The sums are sums of numbers, exact as
    long as they stay within [2^53] seconds. *)
Theorem C7_playtime_tick id caves record now1 now2 :
  caves !! id = Some record ->
  let stored := default 0 (c_secondsRun record) in
  - 2 ^ 53 <= stored ->
  stored + 20 <= 2 ^ 53 ->
  let one := playtimeTick id now1 caves in
  let two := timerCallbacks (playtimeTick id) [now1; now2] caves in
  r_trace one = [EvSaveEntity id (mkPatch (Some (10 + stored)) (Some now1))]
  /\ c_secondsRun <$> (r_caves one !! id) = Some (Some (stored + 10))
  /\ c_lastTouched <$> (r_caves one !! id) = Some (Some now1)
  /\ r_trace two = [EvSaveEntity id (mkPatch (Some (10 + stored)) (Some now1));
                    EvSaveEntity id (mkPatch (Some (10 + (10 + stored))) (Some now2))]
  /\ c_secondsRun <$> (r_caves two !! id) = Some (Some (stored + 20))
  /\ c_lastTouched <$> (r_caves two !! id) = Some (Some now2).
Proof.
  intros H stored Hlo Hhi one two.
  assert (H1 : one = mkResult (Normal tt) (Market.saveEntity id (tickPatch record now1) caves)
                       [EvSaveEntity id (tickPatch record now1)])
    by by apply playtimeTick_run.
  assert (Hl1 : r_caves one !! id = Some (Market.merge (tickPatch record now1) record)).
  { rewrite H1. cbn [r_caves]. rewrite lookup_saveEntity. by rewrite H. }
  assert (H2 : two = mkResult (Normal tt)
                       (Market.saveEntity id
                          (tickPatch (Market.merge (tickPatch record now1) record) now2)
                          (r_caves one))
                       [EvSaveEntity id (tickPatch record now1);
                        EvSaveEntity id
                          (tickPatch (Market.merge (tickPatch record now1) record) now2)]).
  { unfold two. rewrite timerCallbacks_cons. fold one.
    rewrite timerCallbacks_cons, (playtimeTick_run _ _ _ _ Hl1).
    rewrite H1. reflexivity. }
  rewrite H2, Hl1. cbn [r_caves r_trace]. rewrite lookup_saveEntity, Hl1.
  rewrite H1. cbn [r_trace].
  unfold tickPatch, Market.merge, UPDATE_PLAYTIME_INTERVAL; cbn.
  fold stored.
  rewrite (add_exact 10 stored) by lia.
  rewrite (add_exact 10 (10 + stored)) by lia.
  repeat split; try done; do 2 f_equal; lia.
Qed.

Lemma C7_witness :
  c_secondsRun <$> (r_caves (timerCallbacks (playtimeTick "cave-1") [11000; 21000] Demo.caves)
                      !! "cave-1")
  = Some (Some 140).
Proof.
  exact (proj1 (proj2 (proj2 (proj2 (proj2
           (C7_playtime_tick "cave-1" Demo.caves Demo.cave 11000 21000 eq_refl
              ltac:(vm_compute; discriminate) ltac:(vm_compute; discriminate))))))).
Defined.

(** ** The readiness check and the single repair *)

Lemma bind_startTask {B} ev task (f : unit -> M B) caves caves' :
  task caves = Fulfilled caves' ->
  bind (startTask ev task) f caves = prepend [ev] (f tt caves').
Proof. intros H. unfold bind, startTask. by rewrite H. Qed.

Lemma bind_startTask_rejected {B} ev task (f : unit -> M B) caves e :
  task caves = Rejected e ->
  bind (startTask ev task) f caves = mkResult (Throw e) caves [ev].
Proof. intros H. unfold bind, startTask. by rewrite H. Qed.

Lemma count_bind {A B} kind (m : M A) (f : A -> M B) caves :
  (forall a, emits (fun ev => kind ev = false) (f a)) ->
  count kind (r_trace (bind m f caves)) = count kind (r_trace (m caves)).
Proof.
  intros Hf. unfold bind. destruct (r_completion (m caves)); cbn [r_trace]; try done.
  rewrite count_app, (count_none _ _ (Hf _ _)). lia.
Qed.

(** A problem that is still there after the repair. *)
Lemma readiness_persisting w opts caves game problem caves' cave' problem' :
  w_gameLazily w = Fulfilled game ->
  w_actionForGame w <> "open" ->
  caveProblem (o_cave opts) = Some problem ->
  w_configure w caves = Fulfilled caves' ->
  caves' !! c_id (o_cave opts) = Some cave' ->
  caveProblem cave' = Some problem' ->
  readiness w opts caves =
    mkResult (Throw (readinessError problem')) caves'
      (EvGameLazily (c_gameId (o_cave opts)) :: repairEvents game (o_cave opts) problem).
Proof.
  intros Hg Ha Hp Hc Hl Hp'. unfold readiness. cbv zeta.
  rewrite Hg, bind_await.
  apply String.eqb_neq in Ha. rewrite Ha, Hp.
  rewrite (bind_normal _ _ caves (Some cave')).
  - rewrite Hp'.
    rewrite bind_log, (bind_startTask _ _ _ _ _ Hc), bind_emit, bind_getCaves.
    reflexivity.
  - rewrite bind_log, (bind_startTask _ _ _ _ _ Hc), bind_emit, bind_getCaves.
    cbn. by rewrite Hl.
Qed.

Lemma readiness_configure_count w opts caves :
  count isConfigure (r_trace (readiness w opts caves)) = repairs w opts.
Proof.
  unfold readiness, repairs. cbv zeta.
  destruct (w_gameLazily w) as [game|e];
    [rewrite bind_await | by rewrite bind_await_rejected].
  destruct (String.eqb (w_actionForGame w) "open").
  { by rewrite bind_saveEntity, bind_emit. }
  destruct (caveProblem (o_cave opts)) as [problem|] eqn:Hp.
  - unfold bind at 1. rewrite bind_log.
    destruct (w_configure w caves) as [caves'|e] eqn:Hc.
    + rewrite (bind_startTask _ _ _ _ _ Hc), bind_emit, bind_getCaves.
      cbn [prepend ret r_completion r_caves r_trace].
      destruct (caves' !! c_id (o_cave opts)) as [cave'|]; [|done].
      destruct (caveProblem cave'); [done|].
      by rewrite bind_log.
    + by rewrite (bind_startTask_rejected _ _ _ _ _ Hc).
  - rewrite bind_ret, Hp. by rewrite bind_log.
Qed.

Lemma preLaunch_no_configure w opts game cave lt :
  emits (fun ev => isConfigure ev = false) (preLaunch w opts game cave lt).
Proof. eapply emits_weaken; [|apply emits_preLaunch]. by intros []. Qed.

Lemma dispatch_no_configure w opts cave lt lo startedAt :
  emits (fun ev => isConfigure ev = false) (dispatch w opts cave lt lo startedAt).
Proof. eapply emits_weaken; [|apply emits_dispatch]. by intros []. Qed.

(** Only the readiness part of [doStart] can start the repair task. *)
Lemma doStart_configure_count w opts caves :
  count isConfigure (r_trace (doStart w opts caves))
  = count isConfigure (r_trace (readiness w opts caves)).
Proof.
  unfold doStart, doStartBody. rewrite count_bind.
  - unfold preDispatch. rewrite count_bind; [done|].
    intros [[game cave] lt]. apply preLaunch_no_configure.
  - intros [[[cave lt] lo] startedAt]. apply dispatch_no_configure.
Qed.

(** A launch whose readiness part throws, throws the same. *)
Lemma doStart_readiness_throws w opts caves e caves' tr :
  readiness w opts caves = mkResult (Throw e) caves' tr ->
  doStart w opts caves = mkResult (Throw e) caves' tr.
Proof.
  intros H. unfold doStart, doStartBody, preDispatch.
  assert (Hc : r_completion (readiness w opts caves) = Throw e) by by rewrite H.
  rewrite (bind_throw _ _ _ _ (bind_throw_completion _ _ _ _ Hc)).
  rewrite (bind_throw _ _ _ _ Hc). by rewrite H.
Qed.

(** C4. A launch call starts the re-configuration task at most once.  When
    the checker reports a problem the task is started once and the record
    is read again from the store; when the record read again still has a
    problem, the call throws an error whose [reason] is that problem, and
    nothing else was tried: the trace is the fetch of the game, the
    warning, the one task and the reload. *)
Theorem C4_repair_at_most_once w opts caves :
  (count isConfigure (r_trace (doStart w opts caves)) <= 1)%nat
  /\ (forall game problem,
        w_gameLazily w = Fulfilled game ->
        w_actionForGame w <> "open" ->
        caveProblem (o_cave opts) = Some problem ->
        count isConfigure (r_trace (doStart w opts caves)) = 1%nat
        /\ forall caves' cave' problem',
             w_configure w caves = Fulfilled caves' ->
             caves' !! c_id (o_cave opts) = Some cave' ->
             caveProblem cave' = Some problem' ->
             doStart w opts caves =
               mkResult (Throw (readinessError problem')) caves'
                 (EvGameLazily (c_gameId (o_cave opts))
                  :: repairEvents game (o_cave opts) problem)
             /\ e_reason (readinessError problem') = Some problem').
Proof.
  rewrite doStart_configure_count, readiness_configure_count.
  split.
  - unfold repairs. repeat case_match; lia.
  - intros game problem Hg Ha Hp. split.
    + unfold repairs. apply String.eqb_neq in Ha. by rewrite Hg, Ha, Hp.
    + intros caves' cave' problem' Hc Hl Hp'. split; [|done].
      apply doStart_readiness_throws. by eapply readiness_persisting.
Qed.

Lemma C4_witness :
  doStart Demo.world Demo.brokenOpts Demo.brokenCaves =
    mkResult (Throw (readinessError ["game.install.no_executables_found"])) Demo.brokenCaves
      (EvGameLazily 42
       :: repairEvents Demo.game Demo.brokenCave ["game.install.no_executables_found"])
  /\ count isConfigure (r_trace (doStart Demo.world Demo.brokenOpts Demo.brokenCaves)) = 1%nat.
Proof.
  pose proof (proj2 (C4_repair_at_most_once Demo.world Demo.brokenOpts Demo.brokenCaves)
                Demo.game ["game.install.no_executables_found"]
                eq_refl ltac:(discriminate) eq_refl) as [Hone Hthrow].
  split; [|exact Hone].
  exact (proj1 (Hthrow Demo.brokenCaves Demo.brokenCave ["game.install.no_executables_found"]
                  eq_refl eq_refl eq_refl)).
Defined.

(** C10. When the problem is still there after the one repair, the launch
    call throws the readiness error without having looked for, read or
    validated the manifest: whatever the manifest collaborators would have
    answered, the call, the store and the trace are the same. *)
Theorem C10_readiness_failure_precedes_manifest
    w opts caves game problem caves' cave' problem' :
  w_gameLazily w = Fulfilled game ->
  w_actionForGame w <> "open" ->
  caveProblem (o_cave opts) = Some problem ->
  w_configure w caves = Fulfilled caves' ->
  caves' !! c_id (o_cave opts) = Some cave' ->
  caveProblem cave' = Some problem' ->
  r_completion (doStart w opts caves) = Throw (readinessError problem')
  /\ count isManifestAccess (r_trace (doStart w opts caves)) = 0%nat
  /\ count isStrategy (r_trace (doStart w opts caves)) = 0%nat
  /\ forall w',
       w_gameLazily w' = w_gameLazily w ->
       w_actionForGame w' = w_actionForGame w ->
       w_configure w' = w_configure w ->
       doStart w' opts caves = doStart w opts caves.
Proof.
  intros Hg Ha Hp Hc Hl Hp'.
  rewrite (doStart_readiness_throws _ _ _ _ _ _
             (readiness_persisting _ _ _ _ _ _ _ _ Hg Ha Hp Hc Hl Hp')).
  repeat split; try done.
  intros w' Hg' Ha' Hc'.
  apply doStart_readiness_throws. eapply readiness_persisting; try done.
  - by rewrite Hg'.
  - by rewrite Ha'.
  - by rewrite Hc'.
Qed.

Lemma C10_witness :
  r_completion
    (doStart (Demo.withManifest [Demo.play] MODAL_CLOSED Demo.world)
       Demo.brokenOpts Demo.brokenCaves)
  = Throw (readinessError ["game.install.no_executables_found"]).
Proof.
  exact (proj1 (C10_readiness_failure_precedes_manifest
                  (Demo.withManifest [Demo.play] MODAL_CLOSED Demo.world)
                  Demo.brokenOpts Demo.brokenCaves Demo.game
                  ["game.install.no_executables_found"] Demo.brokenCaves Demo.brokenCave
                  ["game.install.no_executables_found"]
                  eq_refl ltac:(discriminate) eq_refl eq_refl eq_refl eq_refl)).
Defined.

(** ** The run environment *)

Lemma emits_bind_post {A B} (P : event -> Prop) (Q : A -> Prop) (m : M A) (f : A -> M B) :
  emits P m ->
  (forall caves a, r_completion (m caves) = Normal a -> Q a) ->
  (forall a, Q a -> emits P (f a)) ->
  emits P (bind m f).
Proof.
  intros Hm HQ Hf caves. unfold bind. specialize (Hm caves).
  destruct (r_completion (m caves)) as [a| |e] eqn:E; cbn [r_trace]; auto.
  apply Forall_app; split; [done|]. apply Hf. by eapply HQ.
Qed.

Lemma launchOptions_envOk w opts game lt appPath manifest selected caves lt' lo manifest' :
  r_completion (launchOptions w opts game lt appPath manifest selected caves)
  = Normal (lt', lo, manifest') ->
  envOk w lo.
Proof.
  unfold launchOptions. cbv zeta.
  destruct (selected ≫= _) as [[i action]|]; [|by intros [= <- <- <-]].
  change (a_scope (withExt (appExt (w_itchPlatform w)) action)) with (a_scope action).
  intros H. apply bind_normal_inv in H as (lt0 & _ & H). revert H.
  destruct (Str.truthy (a_scope action)) eqn:Hs.
  - intros H. apply bind_normal_inv in H as (env & Henv & H).
    rewrite bind_log in Henv. cbn [prepend r_completion] in Henv.
    destruct (w_subkey w) as [subkey|e] eqn:Hk;
      [rewrite bind_await in Henv | by rewrite bind_await_rejected in Henv].
    rewrite bind_log in Henv. cbn in Henv. injection Henv as <-.
    cbn in H. injection H as <- <- <-.
    unfold envOk; cbn [lo_manifestAction lo_env a_scope withExt]. rewrite Hs.
    exists subkey. split; [done|]. split.
    + by rewrite lookup_insert_ne, lookup_insert_eq.
    + by rewrite lookup_insert_eq.
  - rewrite bind_ret. intros [= <- <- <-].
    unfold envOk; cbn [lo_manifestAction lo_env a_scope withExt]. by rewrite Hs.
Qed.

Lemma emits_prepareLaunch_env w cave lt lo manifest :
  envOk w lo -> emits (strategyEnvOk w) (prepareLaunch w cave lt lo manifest).
Proof. intros Hlo. unfold prepareLaunch. emits_tac. Qed.

Lemma emits_dispatch_env w opts cave lt lo startedAt :
  envOk w lo -> emits (strategyEnvOk w) (dispatch w opts cave lt lo startedAt).
Proof.
  intros Hlo. unfold dispatch, launchAndWait, onLaunchError, cleanup.
  repeat first
    [ apply emits_timerCallbacks; intros; apply emits_playtimeTick; done
    | emits_step ]; done.
Qed.

Lemma no_strategy_envOk w ev : isStrategy ev = false -> strategyEnvOk w ev.
Proof. by destruct ev. Qed.

Lemma preLaunch_envOk w opts game cave lt caves cave' lt' lo startedAt :
  r_completion (preLaunch w opts game cave lt caves) = Normal (cave', lt', lo, startedAt) ->
  envOk w lo.
Proof.
  unfold preLaunch. cbv zeta. intros H.
  apply bind_normal_inv in H as ([manifest selected] & _ & H).
  apply bind_normal_inv in H as ([[lt'' lo'] manifest'] & Hlo & H).
  apply launchOptions_envOk in Hlo.
  apply bind_normal_inv in H as (s & _ & H).
  cbn in H. by injection H as <- <- <- <-.
Qed.

Lemma emits_preLaunch_env w opts game cave lt :
  emits (strategyEnvOk w) (preLaunch w opts game cave lt).
Proof.
  unfold preLaunch. cbv zeta. apply emits_bind.
  { eapply emits_weaken; [|apply emits_resolveManifest].
    intros ev Hev. apply no_strategy_envOk. by destruct ev. }
  intros [manifest selected].
  apply (emits_bind_post _ (fun x => envOk w (x.1.2))).
  - eapply emits_weaken; [|apply emits_launchOptions].
    intros ev Hev. apply no_strategy_envOk. by destruct ev.
  - intros caves [[lt' lo] manifest'] H. by eapply launchOptions_envOk.
  - intros [[lt' lo] manifest'] Hlo. apply emits_bind.
    + by apply emits_prepareLaunch_env.
    + intros; apply emits_ret.
Qed.

(** Whenever a prepare or launch strategy is called, the environment in
    its options fits the action the same options carry. *)
Lemma doStart_strategyEnvOk w opts caves :
  Forall (strategyEnvOk w) (r_trace (doStart w opts caves)).
Proof.
  unfold doStart, doStartBody.
  apply (emits_bind_post _ (fun ctx => envOk w (ctx.1.2))).
  - unfold preDispatch. apply emits_bind.
    + eapply emits_weaken; [|apply emits_readiness].
      intros ev Hev. apply no_strategy_envOk. by destruct ev.
    + intros [[game cave] lt]. apply emits_preLaunch_env.
  - intros caves0 [[[cave lt] lo] startedAt] H. unfold preDispatch in H.
    apply bind_normal_inv in H as ([[game cave'] lt'] & _ & H).
    by eapply preLaunch_envOk.
  - intros [[[cave lt] lo] startedAt] Hlo. by apply emits_dispatch_env.
Qed.

(** ** Choosing the manifest action *)

Lemma bigButtonsFrom_named icons acts : forall i caves,
  forallb (fun a => negb (String.eqb (a_name a) "")) acts = true ->
  bigButtonsFrom icons i acts caves = mkResult (Normal (map (bigButtonFor icons) acts)) caves [].
Proof.
  induction acts as [|a acts IH]; intros i caves H; [done|].
  cbn [forallb] in H. apply andb_true_iff in H as [Ha Hrest].
  cbn [bigButtonsFrom map]. apply negb_true_iff in Ha. rewrite Ha.
  unfold bind. by rewrite (IH _ _ Hrest).
Qed.

Lemma resolveManifest_valid w game appPath caves manifest acts :
  w_exists w = true ->
  w_readManifest w = Fulfilled manifest ->
  m_actions manifest = Some acts ->
  validManifest manifest = true ->
  resolveManifest w game appPath caves =
    mkResult
      (if (1 <? length acts)%nat then
         match w_promisedModal w with
         | MODAL_RESPONSE manifestActionName =>
             Normal (Some manifest, findWhere manifestActionName acts)
         | MODAL_CLOSED => Return
         end
       else Normal (Some manifest, match acts with [] => None | _ :: _ => Some 0%nat end))
      caves
      (manifestEvents (w_join w appPath ".itch.toml") manifest
       ++ if (1 <? length acts)%nat then [choicePrompt w game acts] else []).
Proof.
  intros He Hr Ha Hv. unfold resolveManifest, validateManifest, manifestEvents. cbv zeta.
  rewrite bind_log, bind_await, He, bind_log.
  rewrite (bind_normal _ _ caves manifest) by by rewrite Hr.
  rewrite Hr. cbn [try_catch await r_completion r_caves r_trace].
  rewrite bind_log.
  rewrite (bind_normal _ _ caves tt) by by rewrite bind_emit, Hv.
  rewrite bind_emit, Hv, Ha. cbn [prepend ret r_completion r_caves r_trace].
  destruct (1 <? length acts)%nat.
  - unfold validManifest in Hv. rewrite Ha in Hv.
    unfold bind at 1. rewrite (bigButtonsFrom_named _ _ _ _ Hv).
    cbn [r_completion r_caves r_trace]. rewrite bind_await.
    destruct (w_promisedModal w); reflexivity.
  - reflexivity.
Qed.

Lemma no_strategy_carries action ev : isStrategy ev = false -> strategyCarries action ev.
Proof. by destruct ev. Qed.

Lemma launchOptions_first w opts game lt appPath manifest action caves lt' lo manifest' :
  m_actions manifest = Some [action] ->
  r_completion (launchOptions w opts game lt appPath (Some manifest) (Some 0%nat) caves)
  = Normal (lt', lo, manifest') ->
  lo_manifestAction lo = Some (withExt (appExt (w_itchPlatform w)) action).
Proof.
  intros Ha. unfold launchOptions. cbv zeta. cbn [mbind option_bind]. rewrite Ha.
  cbn [default lookup list_lookup fmap option_fmap option_map mbind option_bind].
  intros H. apply bind_normal_inv in H as (lt0 & _ & H).
  apply bind_normal_inv in H as (env & _ & H).
  cbn in H. by injection H as <- <- <-.
Qed.

Section SingleAction.
Variables (w : World) (opts : IStartTaskOpts) (game : IGameRecord) (cave : ICaveRecord).
Variables (manifest : IManifest) (action : IManifestAction).
Hypothesis Hexists : w_exists w = true.
Hypothesis Hread : w_readManifest w = Fulfilled manifest.
Hypothesis Hactions : m_actions manifest = Some [action].
Hypothesis Hvalid : validManifest manifest = true.

Let chosen := withExt (appExt (w_itchPlatform w)) action.

Lemma resolveManifest_single appPath caves :
  resolveManifest w game appPath caves =
    mkResult (Normal (Some manifest, Some 0%nat)) caves
      (manifestEvents (w_join w appPath ".itch.toml") manifest).
Proof.
  by rewrite (resolveManifest_valid _ _ _ _ _ _ Hexists Hread Hactions Hvalid).
Qed.

Lemma emits_preLaunch_single lt :
  emits (strategyCarries chosen) (preLaunch w opts game cave lt).
Proof.
  unfold preLaunch. cbv zeta.
  apply (emits_bind_post _ (fun x => x = (Some manifest, Some 0%nat))).
  { eapply emits_weaken; [|apply emits_resolveManifest].
    intros ev Hev. apply no_strategy_carries. by destruct ev. }
  { intros caves x. rewrite resolveManifest_single. cbn. congruence. }
  intros _ ->.
  apply (emits_bind_post _ (fun x => lo_manifestAction (x.1.2) = Some chosen)).
  - eapply emits_weaken; [|apply emits_launchOptions].
    intros ev Hev. apply no_strategy_carries. by destruct ev.
  - intros caves [[lt' lo] manifest'] H. by eapply (launchOptions_first _ _ _ _ _ _ action).
  - intros [[lt' lo] manifest'] Hlo. cbn in Hlo. apply emits_bind.
    + unfold prepareLaunch. emits_tac.
    + intros; apply emits_ret.
Qed.

Lemma preLaunch_single_carries lt caves cave' lt' lo startedAt :
  r_completion (preLaunch w opts game cave lt caves) = Normal (cave', lt', lo, startedAt) ->
  lo_manifestAction lo = Some chosen.
Proof.
  unfold preLaunch. cbv zeta. intros H.
  apply bind_normal_inv in H as ([manifest0 selected] & Hsel & H).
  rewrite resolveManifest_single in Hsel. cbn in Hsel. injection Hsel as <- <-.
  apply bind_normal_inv in H as ([[lt'' lo'] manifest'] & Hlo & H).
  apply (launchOptions_first _ _ _ _ _ _ action) in Hlo; [|done].
  apply bind_normal_inv in H as (s & _ & H).
  cbn in H. by injection H as <- <- <- <-.
Qed.
End SingleAction.

Lemma emits_dispatch_carries w opts cave lt lo startedAt action :
  lo_manifestAction lo = Some action ->
  emits (strategyCarries action) (dispatch w opts cave lt lo startedAt).
Proof.
  intros Hlo. unfold dispatch, launchAndWait, onLaunchError, cleanup.
  repeat first
    [ apply emits_timerCallbacks; intros; apply emits_playtimeTick; done
    | emits_step ]; done.
Qed.

Lemma in_bind_trace {A B} (m : M A) (f : A -> M B) caves ev :
  In ev (r_trace (m caves)) -> In ev (r_trace (bind m f caves)).
Proof.
  intros H. unfold bind. destruct (r_completion (m caves)); cbn [r_trace]; try done.
  apply in_or_app. by left.
Qed.

Section ValidManifest.
Variables (w : World) (opts : IStartTaskOpts) (caves : gmap string ICaveRecord).
Variables (game : IGameRecord) (cave : ICaveRecord) (lt : string).
Variables (manifest : IManifest) (acts : list IManifestAction).
Hypothesis Hready : r_completion (readiness w opts caves) = Normal (game, cave, lt).
Hypothesis Hexists : w_exists w = true.
Hypothesis Hread : w_readManifest w = Fulfilled manifest.
Hypothesis Hactions : m_actions manifest = Some acts.
Hypothesis Hvalid : validManifest manifest = true.

Let ready := readiness w opts caves.
Let manifestPath := w_join w (w_appPath w cave) ".itch.toml".

Lemma preDispatch_ready :
  preDispatch w opts caves =
    prepend (r_trace ready) (preLaunch w opts game cave lt (r_caves ready)).
Proof. unfold preDispatch. by rewrite (bind_normal _ _ _ _ Hready). Qed.

Lemma doStart_modal_count :
  count isModal (r_trace (doStart w opts caves))
  = if (1 <? length acts)%nat then 1%nat else 0%nat.
Proof.
  unfold doStart, doStartBody. rewrite count_bind.
  2:{ intros [[[cave' lt'] lo] startedAt].
      eapply emits_weaken; [|apply emits_dispatch]. by intros []. }
  rewrite preDispatch_ready. unfold prepend; cbn [r_trace]. rewrite count_app.
  rewrite (count_zero _ _ _ (emits_readiness w opts caves)) by by intros [].
  unfold preLaunch. cbv zeta. rewrite count_bind.
  2:{ intros [manifest0 selected]. apply emits_bind.
      - eapply emits_weaken; [|apply emits_launchOptions]. by intros [].
      - intros [[lt' lo] manifest']. apply emits_bind; [|intros; apply emits_ret].
        eapply emits_weaken; [|apply emits_prepareLaunch]. by intros []. }
  rewrite (resolveManifest_valid _ _ _ _ _ _ Hexists Hread Hactions Hvalid).
  cbn [r_trace]. rewrite count_app.
  by destruct (1 <? length acts)%nat.
Qed.

Lemma doStart_prompts :
  (1 < length acts)%nat -> In (choicePrompt w game acts) (r_trace (doStart w opts caves)).
Proof.
  intros Hlen. apply Nat.ltb_lt in Hlen.
  unfold doStart, doStartBody. apply in_bind_trace.
  rewrite preDispatch_ready. unfold prepend; cbn [r_trace].
  apply in_or_app; right. unfold preLaunch. cbv zeta. apply in_bind_trace.
  rewrite (resolveManifest_valid _ _ _ _ _ _ Hexists Hread Hactions Hvalid).
  cbn [r_trace]. rewrite Hlen. apply in_or_app; right. by left.
Qed.

(** The user closes the prompt: the call returns there. *)
Lemma doStart_cancelled :
  (1 < length acts)%nat ->
  w_promisedModal w = MODAL_CLOSED ->
  doStart w opts caves =
    mkResult Return (r_caves ready)
      (r_trace ready ++ manifestEvents manifestPath manifest ++ [choicePrompt w game acts]).
Proof.
  intros Hlen Hclosed. apply Nat.ltb_lt in Hlen.
  assert (Hpl : preLaunch w opts game cave lt (r_caves ready) =
                mkResult Return (r_caves ready)
                  (manifestEvents manifestPath manifest ++ [choicePrompt w game acts])).
  { unfold preLaunch. cbv zeta.
    pose proof (resolveManifest_valid w game (w_appPath w cave) (r_caves ready) _ _
                  Hexists Hread Hactions Hvalid) as Hres.
    rewrite Hlen, Hclosed in Hres.
    rewrite (bind_return _ _ _ ltac:(by rewrite Hres)). by rewrite Hres. }
  unfold doStart, doStartBody.
  assert (Hpd : preDispatch w opts caves =
                mkResult Return (r_caves ready)
                  (r_trace ready ++ manifestEvents manifestPath manifest
                   ++ [choicePrompt w game acts])).
  { rewrite preDispatch_ready, Hpl. reflexivity. }
  rewrite (bind_return _ _ _ ltac:(by rewrite Hpd)). by rewrite Hpd.
Qed.

Lemma doStart_single_carries action :
  acts = [action] ->
  Forall (strategyCarries (withExt (appExt (w_itchPlatform w)) action))
    (r_trace (doStart w opts caves)).
Proof.
  intros ->. unfold doStart, doStartBody.
  rewrite (bind_normal_or_not _ _ caves).
  rewrite preDispatch_ready. unfold prepend; cbn [r_completion r_caves r_trace].
  pose proof (emits_preLaunch_single w opts game cave manifest action
                Hexists Hread Hactions Hvalid lt (r_caves ready)) as Hpl.
  pose proof (emits_readiness w opts caves) as Hr. fold ready in Hr.
  assert (Hr' : Forall (strategyCarries (withExt (appExt (w_itchPlatform w)) action))
                  (r_trace ready)).
  { eapply Forall_impl; [apply Hr|]. intros ev Hev. apply no_strategy_carries.
    by destruct ev. }
  destruct (r_completion (preLaunch w opts game cave lt (r_caves ready)))
    as [[[[cave' lt'] lo] startedAt]| |e] eqn:E; cbn [r_trace].
  - apply Forall_app; split; [by apply Forall_app|].
    apply emits_dispatch_carries.
    by eapply (preLaunch_single_carries w opts game cave manifest action).
  - by apply Forall_app.
  - by apply Forall_app.
Qed.
End ValidManifest.

(** C6. For a launch that gets as far as the manifest, with a manifest
    that is there and valid: with exactly one action no prompt is ever
    shown, that action (at position 0) is the one selected, and every
    strategy is called with it; with more than one action the choice
    prompt is shown once, with a button per action and [cancel], and when
    the user closes it the call returns at once, without error, without
    asking for a subkey and without calling a prepare or launch strategy,
    and [start] shows no failure. *)
Theorem C6_manifest_action_selection w opts caves game cave lt manifest acts :
  r_completion (readiness w opts caves) = Normal (game, cave, lt) ->
  w_exists w = true ->
  w_readManifest w = Fulfilled manifest ->
  m_actions manifest = Some acts ->
  validManifest manifest = true ->
  let r := doStart w opts caves in
  (forall action, acts = [action] ->
     count isModal (r_trace r) = 0%nat
     /\ (forall caves1,
           r_completion (resolveManifest w game (w_appPath w cave) caves1)
           = Normal (Some manifest, Some 0%nat))
     /\ acts !! 0%nat = Some action
     /\ Forall (strategyCarries (withExt (appExt (w_itchPlatform w)) action)) (r_trace r))
  /\ ((1 < length acts)%nat ->
      count isModal (r_trace r) = 1%nat
      /\ In (choicePrompt w game acts) (r_trace r)
      /\ (w_promisedModal w = MODAL_CLOSED ->
          r_completion r = Return
          /\ count isStrategy (r_trace r) = 0%nat
          /\ count isSubkey (r_trace r) = 0%nat
          /\ settle (r_completion (start w opts caves)) = Resolved
          /\ count isOpenModal (r_trace (start w opts caves)) = 0%nat)).
Proof.
  intros Hready Hexists Hread Hactions Hvalid r. subst r.
  pose proof (doStart_modal_count w opts caves game cave lt manifest acts
                Hready Hexists Hread Hactions Hvalid) as Hcount.
  split.
  - intros action ->. rewrite Hcount. split; [done|]. split; [|split; [done|]].
    + intros caves1.
      by rewrite (resolveManifest_single w game manifest action Hexists Hread Hactions Hvalid).
    + by eapply doStart_single_carries.
  - intros Hlen. rewrite Hcount. pose proof Hlen as Hlt. apply Nat.ltb_lt in Hlt.
    rewrite Hlt. split; [done|]. split; [by eapply doStart_prompts|].
    intros Hclosed.
    pose proof (doStart_cancelled w opts caves game cave lt manifest acts
                  Hready Hexists Hread Hactions Hvalid Hlen Hclosed) as Hrun.
    assert (Hq : settle (r_completion (doStart w opts caves)) = Resolved)
      by by rewrite Hrun.
    destruct (start_quiet _ _ _ Hq) as (Hs & _ & Hm).
    rewrite Hrun. cbn [r_completion r_trace].
    pose proof (emits_readiness w opts caves) as Hr.
    rewrite !count_app.
    rewrite (count_zero _ isStrategy _ Hr) by by intros [].
    rewrite (count_zero _ isSubkey _ Hr) by by intros [].
    done.
Qed.

Lemma C6_witness :
  count isModal (r_trace (doStart (Demo.withManifest [Demo.play] MODAL_CLOSED Demo.world)
                            Demo.opts Demo.caves)) = 0%nat
  /\ r_completion (doStart (Demo.withManifest [Demo.play; Demo.editor] MODAL_CLOSED Demo.world)
                     Demo.opts Demo.caves) = Return.
Proof.
  split.
  - exact (proj1 (proj1 (C6_manifest_action_selection
                           (Demo.withManifest [Demo.play] MODAL_CLOSED Demo.world)
                           Demo.opts Demo.caves Demo.game Demo.cave "native"
                           (mkManifest (Some [Demo.play])) [Demo.play]
                           eq_refl eq_refl eq_refl eq_refl eq_refl)
                   Demo.play eq_refl)).
  - exact (proj1 (proj2 (proj2 (proj2 (C6_manifest_action_selection
                           (Demo.withManifest [Demo.play; Demo.editor] MODAL_CLOSED Demo.world)
                           Demo.opts Demo.caves Demo.game Demo.cave "native"
                           (mkManifest (Some [Demo.play; Demo.editor]))
                           [Demo.play; Demo.editor]
                           eq_refl eq_refl eq_refl eq_refl eq_refl)
                   ltac:(cbn; lia))) eq_refl)).
Defined.

(** A run with a scoped action: the launcher is called with both keys. *)
Example scoped_launch :
  exists lo,
    In (EvLaunch "native" lo)
       (r_trace (doStart (Demo.withManifest [Demo.editor] MODAL_CLOSED Demo.world)
                   Demo.opts Demo.caves))
    /\ lo_env lo !! "ITCHIO_API_KEY" = Some (EnvStr "subkey-abc")
    /\ lo_env lo !! "ITCHIO_API_KEY_EXPIRES_AT" = Some (EnvStr "2017-01-01T00:00:00Z")
    /\ lo_args lo = ["--edit"].
Proof.
  eexists. split; [|split; [|split]].
  - vm_compute. repeat first [left; reflexivity | right].
  - reflexivity.
  - reflexivity.
  - reflexivity.
Qed.

(** ** The launch-type classifier *)

Lemma append_cons c s t : String c s +:+ t = String c (s +:+ t).
Proof. reflexivity. Qed.

Lemma append_nil t : "" +:+ t = t.
Proof. reflexivity. Qed.

Lemma starts_with_spec p : forall s,
  Str.starts_with p s = true <-> exists rest, s = p +:+ rest.
Proof.
  induction p as [|a p IH]; intros s; cbn [Str.starts_with].
  - split; [intros _; by exists s | done].
  - destruct s as [|b s].
    { split; [done|]. intros [rest H]. by rewrite append_cons in H. }
    destruct (Ascii.eqb_spec a b) as [->|Hne].
    + rewrite IH. split; intros [rest H]; exists rest.
      * rewrite append_cons. congruence.
      * rewrite append_cons in H. congruence.
    + split; [done|]. intros [rest H]. rewrite append_cons in H. congruence.
Qed.








(** ** The generic installer *)

Lemma builtin_sniff_run env needles :
  Generic.builtin_sniff env needles =
    (Generic.ReadArchive (Generic.archive_path env)
       :: fst (Generic.on_stream env needles [] (Generic.buffers env) Generic.Null),
     match Generic.readerError env with
     | Some e => Rejected e
     | None => Fulfilled Generic.Undefined
     end).
Proof.
  unfold Generic.builtin_sniff.
  destruct (Generic.on_stream env needles [] (Generic.buffers env) Generic.Null) as [tr result].
  destruct (Generic.readerError env); cbn; [done | by rewrite app_nil_r].
Qed.

Lemma on_stream_only_logs env needles :
  Forall (fun s => exists message, s = Generic.Log message)
         (Generic.on_stream env needles [] (Generic.buffers env) Generic.Null).1.
Proof.
  assert (Hm : forall k v n result,
             Forall (fun s => exists message, s = Generic.Log message)
                    (Generic.on_matches k v n result).1).
  { intros k v n. induction n as [|n IH]; intros result; cbn; [constructor|].
    specialize (IH (Generic.Kind k)).
    destruct (Generic.on_matches k v n (Generic.Kind k)); cbn in *.
    constructor; [by eexists | done]. }
  assert (Hd : forall earlier buf result,
             Forall (fun s => exists message, s = Generic.Log message)
                    (Generic.on_data env needles earlier buf result).1).
  { intros earlier buf. induction needles as [|[k v] rest IH]; intros result; cbn;
      [constructor|].
    specialize (Hm k v (Generic.streamMatches env v earlier buf) result).
    destruct (Generic.on_matches k v _ result) as [tr result']; cbn in *.
    specialize (IH result').
    destruct (Generic.on_data env rest earlier buf result'); cbn in *.
    by apply Forall_app. }
  generalize (@nil string) Generic.Null.
  induction (Generic.buffers env) as [|buf rest IH]; intros earlier result; cbn;
    [constructor|].
  specialize (Hd earlier buf result).
  destruct (Generic.on_data env needles earlier buf result) as [tr result']; cbn in *.
  specialize (IH (earlier ++ [buf]) result').
  destruct (Generic.on_stream env needles (earlier ++ [buf]) rest result'); cbn in *.
  by apply Forall_app.
Qed.

Lemma external_sniff_run env out :
  Generic.fileOutput env = Fulfilled out ->
  exists logged,
    Generic.external_sniff env Generic.external_needles =
      (Generic.RunFile (Generic.archive_path env) :: logged,
       Fulfilled (Generic.externalKind out))
    /\ Forall (fun s => exists message, s = Generic.Log message) logged.
Proof.
  intros Hout. unfold Generic.external_sniff, Generic.externalKind. rewrite Hout.
  unfold Generic.andThen.
  destruct (out !! 2%nat) as [detail|] eqn:Hd.
  - destruct (String.eqb_spec detail "InstallShield self-extracting archive") as [->|Hne].
    + rewrite decide_True by done. eexists. split; [reflexivity|].
      repeat constructor. by eexists.
    + rewrite decide_False by congruence.
      exists []. split; [|constructor].
      apply String.eqb_neq in Hne.
      destruct detail as [|c detail]; [done|].
      unfold Generic.external_needles. cbn [Generic.match_detail]. by rewrite Hne.
  - rewrite decide_False by done. by exists [].
Qed.

Lemma find_installer_run env out :
  Generic.platform env = "win32" ->
  Generic.readerError env = None ->
  Generic.fileOutput env = Fulfilled out ->
  let picked := Generic.pickedModule out in
  exists logs1 logs2,
    Generic.find_installer env =
      (Generic.ReadArchive (Generic.archive_path env) :: logs1
       ++ Generic.RunFile (Generic.archive_path env) :: logs2
       ++ [Generic.Require picked],
       Fulfilled picked)
    /\ Forall (fun s => exists message, s = Generic.Log message) logs1
    /\ Forall (fun s => exists message, s = Generic.Log message) logs2.
Proof.
  intros Hp Hr Hout picked. unfold Generic.find_installer, Generic.identify.
  rewrite Hp. cbn [String.eqb Ascii.eqb Bool.eqb negb].
  rewrite builtin_sniff_run, Hr.
  destruct (external_sniff_run env out Hout) as (logged & Hext & Hlogged).
  unfold Generic.andThen at 2. cbn [Generic.falsy]. rewrite Hext.
  exists (Generic.on_stream env Generic.builtin_needles [] (Generic.buffers env) Generic.Null).1.
  exists (logged ++ [Generic.Log ("found generic installer type: "
                                  +:+ Generic.show (Generic.externalKind out))]).
  split; [|split].
  - unfold picked, Generic.pickedModule, Generic.externalKind.
    destruct (decide (out !! 2%nat = Some "InstallShield self-extracting archive"));
      cbn; rewrite <- !app_assoc; reflexivity.
  - apply on_stream_only_logs.
  - apply Forall_app; split; [done|]. repeat constructor. by eexists.
Qed.

Example inno_installer_is_found_then_forgotten :
  Generic.find_installer Generic.innoEnv =
    ([Generic.ReadArchive "C:/downloads/setup.exe";
      Generic.Log "builtin_sniff: found needle Inno Setup Setup Data";
      Generic.RunFile "C:/downloads/setup.exe";
      Generic.Log "found generic installer type: null";
      Generic.Require "./naked"],
     Fulfilled "./naked").
Proof. vm_compute. reflexivity. Qed.

(** X1. Off Windows the generic installer refuses at once: finding the
    installer, installing and uninstalling all reject with the same error
    before the archive is read or any module is required. *)
Theorem X1_generic_installer_is_windows_only env :
  Generic.platform env <> "win32" ->
  let refusal :=
    mkError PlainError "Exe installers are only supported on Windows" None in
  Generic.find_installer env = ([], Rejected refusal)
  /\ Generic.install env = ([], Rejected refusal)
  /\ Generic.uninstall env = ([], Rejected refusal).
Proof.
  intros Hp refusal. apply String.eqb_neq in Hp.
  unfold Generic.install, Generic.uninstall, Generic.find_installer.
  by rewrite Hp.
Qed.

Lemma X1_witness :
  Generic.install (Generic.onPlatform "linux" Generic.innoEnv)
  = ([], Rejected (mkError PlainError "Exe installers are only supported on Windows" None)).
Proof.
  exact (proj1 (proj2 (X1_generic_installer_is_windows_only
                         (Generic.onPlatform "linux" Generic.innoEnv)
                         ltac:(discriminate)))).
Defined.

(** X2. On Windows, when the archive is read to its end and [file(1)]
    answers, the module that is required depends on that answer alone:
    [./archive] when its third line is exactly the InstallShield needle,
    [./naked] otherwise.  What the stream searches matched plays no part,
    so no other module is ever required. *)
Theorem X2_find_installer_follows_file_output env out :
  Generic.platform env = "win32" ->
  Generic.readerError env = None ->
  Generic.fileOutput env = Fulfilled out ->
  (Generic.find_installer env).2 = Fulfilled (Generic.pickedModule out)
  /\ (forall module, In (Generic.Require module) (Generic.find_installer env).1
                     <-> module = Generic.pickedModule out)
  /\ (Generic.pickedModule out = "./archive"
      <-> out !! 2%nat = Some "InstallShield self-extracting archive")
  /\ (Generic.pickedModule out = "./naked"
      <-> out !! 2%nat <> Some "InstallShield self-extracting archive").
Proof.
  intros Hp Hr Hout.
  destruct (find_installer_run env out Hp Hr Hout) as (logs1 & logs2 & -> & H1 & H2).
  split; [done|]. split; [|split].
  - intros module. cbn [fst]. split.
    + intros [H|H]; [discriminate|].
      apply in_app_or in H as [H|H].
      { eapply Forall_forall in H1; [|apply list_elem_of_In, H]. by destruct H1. }
      destruct H as [H|H]; [discriminate|].
      apply in_app_or in H as [H|H].
      { eapply Forall_forall in H2; [|apply list_elem_of_In, H]. by destruct H2. }
      destruct H as [[= <-]|[]]. done.
    + intros ->. right. apply in_or_app; right. right. apply in_or_app; right. by left.
  - unfold Generic.pickedModule. case_decide; split; try done.
  - unfold Generic.pickedModule. case_decide; split; try done.
Qed.

Lemma X2_witness :
  (Generic.find_installer Generic.innoEnv).2 = Fulfilled "./naked".
Proof.
  exact (proj1 (X2_find_installer_follows_file_output Generic.innoEnv
                  ["PE32 executable (GUI) Intel 80386"; "for MS Windows"]
                  eq_refl eq_refl eq_refl)).
Defined.

(** Installing and uninstalling go through the same choice: each
    requires the module [find_installer] picks, calls that module last, and
    settles as that module does. *)
Lemma install_calls_the_picked_module env out :
  Generic.platform env = "win32" ->
  Generic.readerError env = None ->
  Generic.fileOutput env = Fulfilled out ->
  let picked := Generic.pickedModule out in
  Generic.install env =
    ((Generic.find_installer env).1 ++ [Generic.CallInstall picked],
     Generic.installerResult env picked)
  /\ Generic.uninstall env =
    ((Generic.find_installer env).1 ++ [Generic.CallUninstall picked],
     Generic.installerResult env picked).
Proof.
  intros Hp Hr Hout picked.
  destruct (find_installer_run env out Hp Hr Hout) as (logs1 & logs2 & Hrun & _).
  unfold Generic.install, Generic.uninstall. by rewrite Hrun.
Qed.

(** X3. When the reader of the archive fails, or [file(1)] does, the error
    is the installer's: installing and uninstalling both reject with it,
    and neither requires or calls a module; after a reader error [file(1)]
    is not even run. *)
Theorem X3_sniff_failure_stops_the_installer env e :
  Generic.platform env = "win32" ->
  (Generic.readerError env = Some e
   \/ (Generic.readerError env = None /\ Generic.fileOutput env = Rejected e)) ->
  let noModule := fun s =>
    match s with
    | Generic.Require _ | Generic.CallInstall _ | Generic.CallUninstall _ => False
    | _ => True
    end in
  (Generic.install env).2 = Rejected e
  /\ (Generic.uninstall env).2 = Rejected e
  /\ Forall noModule (Generic.install env).1
  /\ Forall noModule (Generic.uninstall env).1
  /\ (Generic.readerError env = Some e ->
      ~ In (Generic.RunFile (Generic.archive_path env)) (Generic.install env).1
      /\ ~ In (Generic.RunFile (Generic.archive_path env)) (Generic.uninstall env).1).
Proof.
  intros Hp Hfail noModule.
  pose proof (on_stream_only_logs env Generic.builtin_needles) as Hlogs.
  assert (Hok : Forall noModule
                  (Generic.on_stream env Generic.builtin_needles []
                     (Generic.buffers env) Generic.Null).1).
  { eapply Forall_impl; [apply Hlogs|]. by intros s [message ->]. }
  assert (Hrun : ~ In (Generic.RunFile (Generic.archive_path env))
                   (Generic.on_stream env Generic.builtin_needles []
                      (Generic.buffers env) Generic.Null).1).
  { intros H. eapply Forall_forall in Hlogs; [|apply list_elem_of_In, H].
    by destruct Hlogs. }
  unfold Generic.install, Generic.uninstall, Generic.find_installer, Generic.identify.
  rewrite Hp. cbn [String.eqb Ascii.eqb Bool.eqb negb].
  rewrite builtin_sniff_run.
  destruct Hfail as [Hr|[Hr Hf]]; rewrite Hr.
  - cbn. split; [done|]. split; [done|].
    split; [by constructor|]. split; [by constructor|].
    intros _. split; (intros [H|H]; [discriminate | by apply Hrun]).
  - unfold Generic.external_sniff. rewrite Hf. cbn.
    split; [done|]. split; [done|].
    assert (Hall : Forall noModule
              (Generic.ReadArchive (Generic.archive_path env)
               :: (Generic.on_stream env Generic.builtin_needles []
                     (Generic.buffers env) Generic.Null).1
                  ++ [Generic.RunFile (Generic.archive_path env)])).
    { constructor; [done|]. apply Forall_app; split; [done|]. by repeat constructor. }
    split; [done|]. split; [done|]. intros H. discriminate H.
Qed.

Lemma X3_witness :
  (Generic.install (Generic.unreadable Demo.boom Generic.innoEnv)).2 = Rejected Demo.boom.
Proof.
  exact (proj1 (X3_sniff_failure_stops_the_installer
                  (Generic.unreadable Demo.boom Generic.innoEnv) Demo.boom
                  eq_refl (or_introl eq_refl))).
Defined.

(** ** More of the launch call *)

Lemma in_bind_inv {A B} (m : M A) (f : A -> M B) caves ev :
  In ev (r_trace (bind m f caves)) ->
  In ev (r_trace (m caves))
  \/ exists a, r_completion (m caves) = Normal a
               /\ bind m f caves = prepend (r_trace (m caves)) (f a (r_caves (m caves)))
               /\ In ev (r_trace (f a (r_caves (m caves)))).
Proof.
  rewrite bind_normal_or_not.
  destruct (r_completion (m caves)) as [a| |e] eqn:E; cbn [prepend r_trace]; auto.
  intros H. apply in_app_or in H as [H|H]; [by left|]. right. by exists a.
Qed.

Lemma doStart_readiness_returns w opts caves caves' tr :
  readiness w opts caves = mkResult Return caves' tr ->
  doStart w opts caves = mkResult Return caves' tr.
Proof.
  intros H. unfold doStart, doStartBody, preDispatch.
  assert (Hc : r_completion (readiness w opts caves) = Return) by by rewrite H.
  rewrite bind_normal_or_not, (bind_return _ _ _ Hc). cbn [r_completion r_caves r_trace].
  by rewrite H.
Qed.

(** X4. When the game's action is [open], the launch call only stamps the
    record and opens the install folder: it returns normally without
    checking readiness, repairing, reading a manifest or calling a
    launcher, whatever state the package is in. *)
Theorem X4_open_action_opens_the_folder w opts caves game :
  w_gameLazily w = Fulfilled game ->
  w_actionForGame w = "open" ->
  let cave := o_cave opts in
  doStart w opts caves =
    mkResult Return (Market.saveEntity (c_id cave) (touch (w_nowOpen w)) caves)
      [EvGameLazily (c_gameId cave);
       EvSaveEntity (c_id cave) (touch (w_nowOpen w));
       EvExplorerOpen (w_appPath w cave)]
  /\ settle (r_completion (start w opts caves)) = Resolved
  /\ count isOpenModal (r_trace (start w opts caves)) = 0%nat.
Proof.
  intros Hg Ha cave.
  assert (Hrun : doStart w opts caves =
                 mkResult Return (Market.saveEntity (c_id cave) (touch (w_nowOpen w)) caves)
                   [EvGameLazily (c_gameId cave);
                    EvSaveEntity (c_id cave) (touch (w_nowOpen w));
                    EvExplorerOpen (w_appPath w cave)]).
  { apply doStart_readiness_returns. unfold readiness. cbv zeta.
    rewrite Hg, bind_await, Ha. cbn [String.eqb Ascii.eqb Bool.eqb].
    by rewrite bind_saveEntity, bind_emit. }
  split; [done|].
  assert (Hq : settle (r_completion (doStart w opts caves)) = Resolved) by by rewrite Hrun.
  by destruct (start_quiet _ _ _ Hq) as (Hs & _ & Hm).
Qed.

Lemma X4_witness :
  r_completion (doStart (Demo2.setAction "open" Demo.world) Demo.brokenOpts Demo.brokenCaves)
  = Return.
Proof.
  pose proof (proj1 (X4_open_action_opens_the_folder
                       (Demo2.setAction "open" Demo.world) Demo.brokenOpts Demo.brokenCaves
                       Demo.game eq_refl eq_refl)) as H.
  cbv zeta in H. by rewrite H.
Defined.

(** [start], path by path. *)
Lemma start_cases w opts caves :
  let d := doStart w opts caves in
  start w opts caves =
    match r_completion d with
    | Throw e =>
        match w_gameLazilyOnError w with
        | Fulfilled game =>
            mkResult (Normal tt) (r_caves d)
              (r_trace d ++ reportEvents (o_cave opts) game e ++ [EvLoggerClose])
        | Rejected e' =>
            mkResult (Throw e') (r_caves d)
              (r_trace d ++ [EvGameLazily (c_gameId (o_cave opts))] ++ [EvLoggerClose])
        end
    | c => mkResult c (r_caves d) (r_trace d ++ [EvLoggerClose])
    end.
Proof.
  intros d. unfold start, try_finally, try_catch, d, doStart. cbv zeta.
  destruct (r_completion (doStartBody w opts caves)) as [[]| |e] eqn:E;
    cbn [r_completion r_caves r_trace emit]; rewrite ?E; try done.
  destruct (w_gameLazilyOnError w) as [game|e'].
  - rewrite bind_await, !bind_log, bind_emit.
    cbn [prepend emit r_completion r_caves r_trace]. unfold reportEvents, detailOf.
    f_equal. rewrite <- app_assoc. reflexivity.
  - rewrite bind_await_rejected. cbn [r_completion r_caves r_trace].
    f_equal. rewrite <- app_assoc. reflexivity.
Qed.

Lemma doStart_events w opts caves :
  Forall (fun ev => beforeDispatch ev || inDispatch ev = true) (r_trace (doStart w opts caves)).
Proof. apply emits_doStartBody. Qed.

(** X5. However [doStart] ends, and even when the failure report itself
    fails, [start] closes the cave's logger, once, as the last thing it
    does. *)
Theorem X5_start_closes_the_logger w opts caves :
  exists before,
    r_trace (start w opts caves) = before ++ [EvLoggerClose]
    /\ count isLoggerClose before = 0%nat.
Proof.
  rewrite start_cases. cbv zeta.
  pose proof (doStart_events w opts caves) as Hd.
  assert (H0 : count isLoggerClose (r_trace (doStart w opts caves)) = 0%nat).
  { eapply count_zero; [apply Hd|]. by intros []. }
  destruct (r_completion (doStart w opts caves)) as [[]| |e].
  - exists (r_trace (doStart w opts caves)). by split.
  - exists (r_trace (doStart w opts caves)). by split.
  - destruct (w_gameLazilyOnError w) as [game|e']; cbn [r_trace].
    + exists (r_trace (doStart w opts caves) ++ reportEvents (o_cave opts) game e).
      split; [by rewrite <- app_assoc|]. by rewrite count_app, H0.
    + exists (r_trace (doStart w opts caves) ++ [EvGameLazily (c_gameId (o_cave opts))]).
      split; [by rewrite <- app_assoc|]. by rewrite count_app, H0.
Qed.

(** X6. When [doStart] throws and the game can be looked up, [start] takes
    the error on itself: it resolves, calls the diagnostic step once and
    opens exactly one failure modal, whose detail is the error's [reason]
    when it has one and the error itself otherwise. *)
Theorem X6_start_reports_a_failure_once w opts caves e game :
  r_completion (doStart w opts caves) = Throw e ->
  w_gameLazilyOnError w = Fulfilled game ->
  settle (r_completion (start w opts caves)) = Resolved
  /\ r_trace (start w opts caves)
     = r_trace (doStart w opts caves) ++ reportEvents (o_cave opts) game e ++ [EvLoggerClose]
  /\ count isOpenModal (r_trace (start w opts caves)) = 1%nat
  /\ count isDiegoHire (r_trace (start w opts caves)) = 1%nat
  /\ (forall reason, e_reason e = Some reason ->
      In (EvOpenModal game (Localized reason)) (r_trace (start w opts caves)))
  /\ (e_reason e = None ->
      In (EvOpenModal game (Stringified e)) (r_trace (start w opts caves)))
  /\ r_caves (start w opts caves) = r_caves (doStart w opts caves).
Proof.
  intros He Hg. rewrite start_cases. cbv zeta. rewrite He, Hg.
  cbn [r_completion r_caves r_trace].
  pose proof (doStart_events w opts caves) as Hd.
  rewrite !count_app.
  rewrite (count_zero _ isOpenModal _ Hd) by by intros [].
  rewrite (count_zero _ isDiegoHire _ Hd) by by intros [].
  repeat split; try done.
  - intros reason Hr. unfold reportEvents, detailOf. rewrite Hr.
    rewrite !in_app_iff. cbn. tauto.
  - intros Hr. unfold reportEvents, detailOf. rewrite Hr.
    rewrite !in_app_iff. cbn. tauto.
Qed.

Lemma X6_witness :
  count isOpenModal
    (r_trace (start (Demo.failing Demo.boom 1500 Demo.world) Demo.opts Demo.caves)) = 1%nat.
Proof.
  exact (proj1 (proj2 (proj2 (X6_start_reports_a_failure_once
                                (Demo.failing Demo.boom 1500 Demo.world) Demo.opts Demo.caves
                                Demo.boom Demo.game
                                ltac:(vm_compute; reflexivity) eq_refl)))).
Defined.

(** X7. The failure report can fail: when [doStart] throws and the lookup
    of the game for the report throws too, [start] rejects with the second
    error, the first one is neither logged as a crash nor shown, and no
    modal is opened. *)
Theorem X7_start_rejects_when_the_report_fails w opts caves e e' :
  r_completion (doStart w opts caves) = Throw e ->
  w_gameLazilyOnError w = Rejected e' ->
  r_completion (start w opts caves) = Throw e'
  /\ r_trace (start w opts caves)
     = r_trace (doStart w opts caves)
       ++ [EvGameLazily (c_gameId (o_cave opts)); EvLoggerClose]
  /\ count isOpenModal (r_trace (start w opts caves)) = 0%nat
  /\ count isDiegoHire (r_trace (start w opts caves)) = 0%nat.
Proof.
  intros He Hg. rewrite start_cases. cbv zeta. rewrite He, Hg.
  cbn [r_completion r_caves r_trace].
  pose proof (doStart_events w opts caves) as Hd.
  rewrite !count_app.
  rewrite (count_zero _ isOpenModal _ Hd) by by intros [].
  rewrite (count_zero _ isDiegoHire _ Hd) by by intros [].
  done.
Qed.

Lemma X7_witness :
  r_completion (start (Demo2.noReport Demo.cancelled (Demo.failing Demo.boom 1500 Demo.world))
                  Demo.opts Demo.caves)
  = Throw Demo.cancelled.
Proof.
  exact (proj1 (X7_start_rejects_when_the_report_fails
                  (Demo2.noReport Demo.cancelled (Demo.failing Demo.boom 1500 Demo.world))
                  Demo.opts Demo.caves Demo.boom Demo.cancelled
                  ltac:(vm_compute; reflexivity) eq_refl)).
Defined.

(** X8. A package that is still not ready after the repair ends in the
    failure modal with the problem as its detail: the readiness error
    carries the problem as [reason], and [start] shows that reason. *)
Theorem X8_readiness_problem_reaches_the_user
    w opts caves game problem caves' cave' problem' shown :
  w_gameLazily w = Fulfilled game ->
  w_actionForGame w <> "open" ->
  caveProblem (o_cave opts) = Some problem ->
  w_configure w caves = Fulfilled caves' ->
  caves' !! c_id (o_cave opts) = Some cave' ->
  caveProblem cave' = Some problem' ->
  w_gameLazilyOnError w = Fulfilled shown ->
  settle (r_completion (start w opts caves)) = Resolved
  /\ In (EvOpenModal shown (Localized problem')) (r_trace (start w opts caves))
  /\ count isOpenModal (r_trace (start w opts caves)) = 1%nat
  /\ count isStrategy (r_trace (start w opts caves)) = 0%nat.
Proof.
  intros Hg Ha Hp Hc Hl Hp' Hs.
  pose proof (doStart_readiness_throws _ _ _ _ _ _
                (readiness_persisting _ _ _ _ _ _ _ _ Hg Ha Hp Hc Hl Hp')) as Hrun.
  rewrite start_cases. cbv zeta. rewrite Hrun, Hs.
  cbn [r_completion r_caves r_trace].
  split; [done|]. split; [|split].
  - rewrite !in_app_iff. cbn. tauto.
  - reflexivity.
  - reflexivity.
Qed.

Lemma X8_witness :
  In (EvOpenModal Demo.game (Localized ["game.install.no_executables_found"]))
     (r_trace (start Demo.world Demo.brokenOpts Demo.brokenCaves)).
Proof.
  exact (proj1 (proj2 (X8_readiness_problem_reaches_the_user
                         Demo.world Demo.brokenOpts Demo.brokenCaves Demo.game
                         ["game.install.no_executables_found"] Demo.brokenCaves
                         Demo.brokenCave ["game.install.no_executables_found"] Demo.game
                         eq_refl ltac:(discriminate) eq_refl eq_refl eq_refl eq_refl
                         eq_refl))).
Defined.

(** ** Play time and the store *)

Lemma onlyPlaytime_refl id caves : onlyPlaytime id caves caves.
Proof. by split. Qed.

Lemma onlyPlaytime_trans id c1 c2 c3 :
  onlyPlaytime id c1 c2 -> onlyPlaytime id c2 c3 -> onlyPlaytime id c1 c3.
Proof.
  intros [H1 S1] [H2 S2]. split; [|congruence].
  intros id' Hne. by rewrite H2, H1.
Qed.

Lemma onlyPlaytime_saveEntity id p caves :
  onlyPlaytime id caves (Market.saveEntity id p caves).
Proof.
  split.
  - intros id' Hne. unfold Market.saveEntity. by rewrite lookup_insert_ne.
  - by rewrite lookup_saveEntity.
Qed.

Lemma seconds_touch id now caves :
  seconds id (Market.saveEntity id (touch now) caves) = seconds id caves.
Proof.
  unfold seconds. rewrite lookup_saveEntity. by destruct (caves !! id).
Qed.

Lemma seconds_tick id now caves record :
  caves !! id = Some record ->
  - 2 ^ 53 <= seconds id caves + UPDATE_PLAYTIME_INTERVAL <= 2 ^ 53 ->
  seconds id (Market.saveEntity id (tickPatch record now) caves)
  = seconds id caves + UPDATE_PLAYTIME_INTERVAL.
Proof.
  unfold seconds. intros H. rewrite lookup_saveEntity, H. cbn. intros Hb.
  rewrite add_exact; unfold UPDATE_PLAYTIME_INTERVAL in *; lia.
Qed.

(** The ticks fired during one launch, on a store that holds the record:
    what they leave alone. *)
Lemma ticks_run id fires : forall caves,
  is_Some (caves !! id) ->
  let played := timerCallbacks (playtimeTick id) fires caves in
  is_Some (r_caves played !! id)
  /\ onlyPlaytime id caves (r_caves played)
  /\ length (r_trace played) = length fires
  /\ (forall now, last fires = Some now ->
      r_caves played !! id ≫= c_lastTouched = Some now).
Proof.
  induction fires as [|now fires IH]; intros caves [record H] played.
  - subst played. cbn. split; [by rewrite H|].
    split; [apply onlyPlaytime_refl|]. by split.
  - subst played. rewrite timerCallbacks_cons, (playtimeTick_run _ _ _ _ H).
    unfold prepend; cbn [r_caves r_trace].
    set (caves1 := Market.saveEntity id (tickPatch record now) caves).
    assert (H1 : caves1 !! id = Some (Market.merge (tickPatch record now) record)).
    { unfold caves1. rewrite lookup_saveEntity. by rewrite H. }
    destruct (IH caves1 ltac:(by rewrite H1)) as (Hs & Hframe & Hlen & Hlast).
    split; [done|]. split; [|split].
    + eapply onlyPlaytime_trans; [apply onlyPlaytime_saveEntity | exact Hframe].
    + cbn [length app]. by rewrite Hlen.
    + intros now'. destruct fires as [|now2 fires'].
      * intros [= <-]. cbn. by rewrite H1.
      * intros Hl. apply Hlast. exact Hl.
Qed.

(** The same ticks: what they add, while the sums are exact. *)
Lemma ticks_seconds id fires : forall caves,
  is_Some (caves !! id) ->
  - 2 ^ 53 <= seconds id caves ->
  seconds id caves + UPDATE_PLAYTIME_INTERVAL * Z.of_nat (length fires) <= 2 ^ 53 ->
  seconds id (r_caves (timerCallbacks (playtimeTick id) fires caves))
  = seconds id caves + UPDATE_PLAYTIME_INTERVAL * Z.of_nat (length fires).
Proof.
  induction fires as [|now fires IH]; intros caves [record H] Hlo Hhi.
  - cbn. lia.
  - cbn [length] in Hhi. unfold UPDATE_PLAYTIME_INTERVAL in Hhi.
    rewrite timerCallbacks_cons, (playtimeTick_run _ _ _ _ H).
    unfold prepend; cbn [r_caves r_trace].
    set (caves1 := Market.saveEntity id (tickPatch record now) caves).
    assert (H1 : caves1 !! id = Some (Market.merge (tickPatch record now) record)).
    { unfold caves1. rewrite lookup_saveEntity. by rewrite H. }
    assert (Hs1 : seconds id caves1 = seconds id caves + UPDATE_PLAYTIME_INTERVAL).
    { apply seconds_tick; [done|]. unfold UPDATE_PLAYTIME_INTERVAL. lia. }
    rewrite (IH caves1); [| by rewrite H1 | |]; rewrite Hs1;
      unfold UPDATE_PLAYTIME_INTERVAL; cbn [length]; lia.
Qed.

(** X9. With the record in the store, every tick of a launch adds one
    10-second interval to what the store holds, writes once, and stamps
    the record with its own time; so after [n] ticks the play time has
    grown by [10 n] (the sums being exact, which they are up to [2^53]
    seconds), the last stamp is the last tick's, and nothing else in the
    store has changed. *)
Theorem X9_ticks_add_one_interval_each id fires caves :
  is_Some (caves !! id) ->
  - 2 ^ 53 <= seconds id caves ->
  seconds id caves + 10 * Z.of_nat (length fires) <= 2 ^ 53 ->
  let played := timerCallbacks (playtimeTick id) fires caves in
  r_completion played = Normal tt
  /\ seconds id (r_caves played) = seconds id caves + 10 * Z.of_nat (length fires)
  /\ length (r_trace played) = length fires
  /\ Forall (fun ev => isSave ev = true) (r_trace played)
  /\ (forall now, last fires = Some now ->
      r_caves played !! id ≫= c_lastTouched = Some now)
  /\ onlyPlaytime id caves (r_caves played).
Proof.
  intros H Hlo Hhi played.
  destruct (ticks_run id fires caves H) as (_ & Hframe & Hlen & Hlast).
  split; [apply timerCallbacks_normal|].
  split; [by apply ticks_seconds|].
  repeat split; try done.
  - apply emits_timerCallbacks. intros now. by apply emits_playtimeTick.
  - apply Hframe.
  - apply Hframe.
Qed.

Lemma X9_witness :
  seconds "cave-1"
    (r_caves (timerCallbacks (playtimeTick "cave-1") [11000; 21000; 31000] Demo.caves))
  = 150.
Proof.
  exact (proj1 (proj2 (X9_ticks_add_one_interval_each "cave-1" [11000; 21000; 31000]
                         Demo.caves ltac:(by eexists)
                         ltac:(vm_compute; discriminate) ltac:(vm_compute; discriminate)))).
Defined.

(** X10. When the record is gone from the store, a tick throws inside the
    timer callback before writing anything: the store is untouched,
    nothing is saved, no play time is credited, and the launch call that
    waits for the launcher is not disturbed. *)
Theorem X10_tick_without_record_writes_nothing id fires caves :
  caves !! id = None ->
  (forall now,
     playtimeTick id now caves =
       mkResult (Throw (mkError TypeError "Cannot read property 'secondsRun' of undefined" None))
         caves [])
  /\ timerCallbacks (playtimeTick id) fires caves = mkResult (Normal tt) caves [].
Proof.
  intros H.
  assert (Htick : forall now,
     playtimeTick id now caves =
       mkResult (Throw (mkError TypeError "Cannot read property 'secondsRun' of undefined" None))
         caves []).
  { intros now. unfold playtimeTick. rewrite bind_getCaves.
    unfold Market.getEntity. by rewrite H. }
  split; [done|].
  induction fires as [|now fires IH]; [done|].
  rewrite timerCallbacks_cons, Htick. cbn [r_caves r_trace]. by rewrite IH.
Qed.

Lemma X10_witness :
  timerCallbacks (playtimeTick "cave-2") [11000; 21000] Demo.caves
  = mkResult (Normal tt) Demo.caves [].
Proof.
  exact (proj2 (X10_tick_without_record_writes_nothing "cave-2" [11000; 21000] Demo.caves
                  eq_refl)).
Defined.

Section Keeps.
Context (R : relation (gmap string ICaveRecord)).
Hypothesis Rrefl : forall caves, R caves caves.
Hypothesis Rtrans : forall c1 c2 c3, R c1 c2 -> R c2 c3 -> R c1 c3.
Context {A B : Type}.

Lemma keeps_ret (a : A) : keeps R (ret a).
Proof. intros caves; apply Rrefl. Qed.

Lemma keeps_return : keeps R (@return_ A).
Proof. intros caves; apply Rrefl. Qed.

Lemma keeps_throw e : keeps R (@throw A e).
Proof. intros caves; apply Rrefl. Qed.

Lemma keeps_getCaves : keeps R getCaves.
Proof. intros caves; apply Rrefl. Qed.

Lemma keeps_emit ev : keeps R (emit ev).
Proof. intros caves; apply Rrefl. Qed.

Lemma keeps_log l m : keeps R (log l m).
Proof. intros caves; apply Rrefl. Qed.

Lemma keeps_await ev (p : settled A) : keeps R (await ev p).
Proof. intros caves; unfold await; destruct p; apply Rrefl. Qed.

Lemma keeps_await_settled (p : settled A) : keeps R (await_settled p).
Proof. intros caves; unfold await_settled; destruct p; apply Rrefl. Qed.

Lemma keeps_saveEntity id p :
  (forall caves, R caves (Market.saveEntity id p caves)) -> keeps R (saveEntity id p).
Proof. intros H caves. apply H. Qed.

Lemma keeps_bind (m : M A) (f : A -> M B) :
  keeps R m -> (forall a, keeps R (f a)) -> keeps R (bind m f).
Proof.
  intros Hm Hf caves. unfold bind. specialize (Hm caves).
  destruct (r_completion (m caves)); cbn [r_caves]; try done.
  eapply Rtrans; [exact Hm | apply Hf].
Qed.

Lemma keeps_bind_post (Q : A -> Prop) (m : M A) (f : A -> M B) :
  keeps R m ->
  (forall caves a, r_completion (m caves) = Normal a -> Q a) ->
  (forall a, Q a -> keeps R (f a)) ->
  keeps R (bind m f).
Proof.
  intros Hm HQ Hf caves. unfold bind. specialize (Hm caves).
  destruct (r_completion (m caves)) as [a| |e] eqn:E; cbn [r_caves]; try done.
  eapply Rtrans; [exact Hm | apply Hf; by eapply HQ].
Qed.

Lemma keeps_try_catch (body : M A) handler :
  keeps R body -> (forall e, keeps R (handler e)) -> keeps R (try_catch body handler).
Proof.
  intros Hm Hh caves. unfold try_catch. specialize (Hm caves).
  destruct (r_completion (body caves)); cbn [r_caves]; try done.
  eapply Rtrans; [exact Hm | apply Hh].
Qed.
End Keeps.

Ltac keeps_step :=
  first
    [ apply keeps_ret | apply keeps_return | apply keeps_throw
    | apply keeps_getCaves | apply keeps_await_settled
    | apply keeps_log | apply keeps_emit | apply keeps_await
    | apply keeps_bind | apply keeps_try_catch
    | match goal with
      | |- keeps _ (match ?x with _ => _ end) => destruct x
      | |- keeps _ (let _ := _ in _) => cbv zeta
      | |- forall _, _ => intros
      end
    | progress cbn beta ].

Ltac keeps_tac := repeat keeps_step; try done.

Lemma keeps_bigButtonsFrom R icons acts :
  (forall caves, R caves caves) -> forall i, keeps R (bigButtonsFrom icons i acts).
Proof.
  intros Rrefl. induction acts as [|a acts IH]; intros i caves; cbn; [apply Rrefl|].
  destruct (String.eqb (a_name a) ""); [apply Rrefl|].
  unfold bind. specialize (IH (S i) caves).
  destruct (r_completion (bigButtonsFrom icons (S i) acts caves)); cbn [r_caves]; try done.
Qed.

(** Resolving the manifest and building the options leave the store
    alone. *)
Lemma resolveManifest_store w game appPath : keeps eq (resolveManifest w game appPath).
Proof.
  unfold resolveManifest, validateManifest.
  repeat first [ apply keeps_bigButtonsFrom; done | keeps_step ]; try done; congruence.
Qed.

Lemma launchOptions_store w opts game lt appPath manifest selected :
  keeps eq (launchOptions w opts game lt appPath manifest selected).
Proof. unfold launchOptions, launchTypeForAction. keeps_tac; congruence. Qed.

Lemma ret_completion {A} (a : A) caves : r_completion (ret a caves) = Normal a.
Proof. reflexivity. Qed.

Lemma onlyTouched_refl id caves : onlyTouched id caves caves.
Proof. split; [apply onlyPlaytime_refl | done]. Qed.

Lemma onlyTouched_trans id c1 c2 c3 :
  onlyTouched id c1 c2 -> onlyTouched id c2 c3 -> onlyTouched id c1 c3.
Proof.
  intros [H1 S1] [H2 S2]. split; [by eapply onlyPlaytime_trans | congruence].
Qed.

Lemma onlyTouched_touch id now caves :
  onlyTouched id caves (Market.saveEntity id (touch now) caves).
Proof. split; [apply onlyPlaytime_saveEntity | apply seconds_touch]. Qed.

(** What the readiness part hands on: the launch type of the record the
    call was given, and that record itself when it needed no repair. *)
Lemma readiness_result w opts caves game cave lt :
  r_completion (readiness w opts caves) = Normal (game, cave, lt) ->
  lt = default "native" (c_launchType (o_cave opts))
  /\ caveProblem cave = None
  /\ (caveProblem (o_cave opts) = None -> cave = o_cave opts).
Proof.
  unfold readiness. cbv zeta.
  destruct (w_gameLazily w) as [game0|e];
    [rewrite bind_await | by rewrite bind_await_rejected].
  destruct (String.eqb (w_actionForGame w) "open").
  { by rewrite bind_saveEntity, bind_emit. }
  cbn [prepend r_completion].
  intros H. apply bind_normal_inv in H as (reloaded & Hre & H).
  destruct reloaded as [cave0|]; [|discriminate].
  destruct (caveProblem cave0) eqn:Hp0; [discriminate|].
  rewrite bind_log in H. cbn in H. injection H as <- <- <-.
  split; [done|]. split; [done|].
  intros Hp. rewrite Hp, ret_completion in Hre. congruence.
Qed.

Lemma readiness_store_ready w opts caves :
  caveProblem (o_cave opts) = None ->
  onlyTouched (c_id (o_cave opts)) caves (r_caves (readiness w opts caves)).
Proof.
  intros Hp. unfold readiness. cbv zeta.
  destruct (w_gameLazily w) as [game0|e];
    [rewrite bind_await | rewrite bind_await_rejected; apply onlyTouched_refl].
  destruct (String.eqb (w_actionForGame w) "open").
  { rewrite bind_saveEntity, bind_emit. cbn. apply onlyTouched_touch. }
  rewrite Hp, bind_ret, Hp, bind_log. cbn. apply onlyTouched_refl.
Qed.

Lemma prepareLaunch_store w cave lt lo manifest :
  keeps (onlyTouched (c_id cave)) (prepareLaunch w cave lt lo manifest).
Proof.
  unfold prepareLaunch.
  repeat first
    [ apply keeps_saveEntity; intros; apply onlyTouched_touch
    | keeps_step ];
    eauto using onlyTouched_refl, onlyTouched_trans.
Qed.

Lemma preLaunch_store w opts game cave lt :
  keeps (onlyTouched (c_id cave)) (preLaunch w opts game cave lt).
Proof.
  unfold preLaunch. cbv zeta.
  apply keeps_bind; [apply onlyTouched_trans| |].
  { intros caves. rewrite <- (resolveManifest_store w game (w_appPath w cave) caves).
    apply onlyTouched_refl. }
  intros [manifest selected]. apply keeps_bind; [apply onlyTouched_trans| |].
  { intros caves. rewrite <- (launchOptions_store w opts game lt (w_appPath w cave)
                                manifest selected caves).
    apply onlyTouched_refl. }
  intros [[lt' lo] manifest']. apply keeps_bind; [apply onlyTouched_trans| |].
  - apply prepareLaunch_store.
  - intros; apply keeps_ret, onlyTouched_refl.
Qed.

Lemma prepareLaunch_record w cave lt lo manifest caves startedAt :
  r_completion (prepareLaunch w cave lt lo manifest caves) = Normal startedAt ->
  is_Some (r_caves (prepareLaunch w cave lt lo manifest caves) !! c_id cave).
Proof.
  unfold prepareLaunch. destruct (launchers lt); [|discriminate].
  intros H. apply bind_normal_inv in H as ([] & H1 & _).
  rewrite (bind_normal _ _ _ _ H1), bind_saveEntity. cbn [prepend ret r_caves].
  rewrite lookup_saveEntity. by eexists.
Qed.

Lemma preLaunch_cave w opts game cave lt caves cave' lt' lo startedAt :
  r_completion (preLaunch w opts game cave lt caves) = Normal (cave', lt', lo, startedAt) ->
  cave' = cave /\ is_Some (r_caves (preLaunch w opts game cave lt caves) !! c_id cave).
Proof.
  unfold preLaunch. cbv zeta. intros H.
  pose proof H as H0.
  apply bind_normal_inv in H0 as ([manifest selected] & H1 & H0).
  rewrite (bind_normal _ _ _ _ H1). cbn [prepend r_caves].
  pose proof H0 as H0'.
  apply bind_normal_inv in H0' as ([[lt'' lo'] manifest'] & H2 & H0').
  rewrite (bind_normal _ _ _ _ H2). cbn [prepend r_caves].
  pose proof H0' as H0''.
  apply bind_normal_inv in H0'' as (s & H3 & H0'').
  rewrite (bind_normal _ _ _ _ H3). cbn [prepend ret r_caves].
  cbn in H0''. injection H0'' as <- <- <- <-. split; [done|].
  by eapply prepareLaunch_record.
Qed.

Lemma preDispatch_store_ready w opts caves :
  caveProblem (o_cave opts) = None ->
  let id := c_id (o_cave opts) in
  onlyTouched id caves (r_caves (preDispatch w opts caves))
  /\ (forall cave lt lo startedAt,
        r_completion (preDispatch w opts caves) = Normal (cave, lt, lo, startedAt) ->
        cave = o_cave opts /\ is_Some (r_caves (preDispatch w opts caves) !! id)).
Proof.
  intros Hp id. unfold preDispatch.
  pose proof (readiness_store_ready w opts caves Hp) as Hr.
  rewrite bind_normal_or_not.
  destruct (r_completion (readiness w opts caves)) as [[[game cave0] lt0]| |e] eqn:E;
    cbn [prepend r_completion r_caves]; [|by split..].
  destruct (readiness_result _ _ _ _ _ _ E) as (_ & _ & Hc). specialize (Hc Hp). subst cave0.
  split.
  - eapply onlyTouched_trans; [exact Hr | apply preLaunch_store].
  - intros cave lt lo startedAt H. apply preLaunch_cave in H as [-> H]. by split.
Qed.

(** The store after the lifecycle block. *)
Lemma dispatch_store w opts cave lt lo startedAt caves :
  r_caves (dispatch w opts cave lt lo startedAt caves)
  = Market.saveEntity (c_id cave) (touch (w_nowFinally w))
      (r_caves (timerCallbacks (playtimeTick (c_id cave)) (w_ticks w) caves)).
Proof.
  by destruct (dispatch_paths w opts cave lt lo startedAt caves) as (logged & -> & _).
Qed.

(** X11. A launch that needs no repair writes nothing to the store but the
    [lastTouched] and [secondsRun] of the package's own record: every
    other record, and every other field of this one, is as it was,
    however the call ends. *)
Theorem X11_launch_writes_only_playtime w opts caves :
  caveProblem (o_cave opts) = None ->
  onlyPlaytime (c_id (o_cave opts)) caves (r_caves (doStart w opts caves)).
Proof.
  intros Hp.
  destruct (preDispatch_store_ready w opts caves Hp) as [[Hpre _] Hctx].
  unfold doStart, doStartBody. rewrite bind_normal_or_not.
  destruct (r_completion (preDispatch w opts caves))
    as [[[[cave lt] lo] startedAt]| |e] eqn:E; cbn [prepend r_caves]; try done.
  destruct (Hctx _ _ _ _ eq_refl) as [-> Hsome].
  rewrite dispatch_store.
  eapply onlyPlaytime_trans; [exact Hpre|].
  eapply onlyPlaytime_trans; [|apply onlyPlaytime_saveEntity].
  by apply (ticks_run (c_id (o_cave opts)) (w_ticks w)).
Qed.

Lemma X11_witness :
  r_caves (doStart Demo.world Demo.opts Demo.caves) !! "cave-2" = Demo.caves !! "cave-2".
Proof.
  exact (proj1 (X11_launch_writes_only_playtime Demo.world Demo.opts Demo.caves eq_refl)
           "cave-2" ltac:(discriminate)).
Defined.

(** X12. A launch that needs no repair and gets to its launcher credits
    exactly 10 seconds per timer tick, on every way out: as long as the
    total stays within the [2^53] seconds up to which sums of numbers are
    exact, the play time in the store afterwards is the one before the call
    plus 10 times the number of ticks (a record that was missing counts as
    0), and the record's last stamp is the one of the cleanup. *)
Theorem X12_launch_credits_ten_seconds_per_tick w opts caves cave lt lo startedAt :
  caveProblem (o_cave opts) = None ->
  r_completion (preDispatch w opts caves) = Normal (cave, lt, lo, startedAt) ->
  let id := c_id (o_cave opts) in
  - 2 ^ 53 <= seconds id caves ->
  seconds id caves + 10 * Z.of_nat (length (w_ticks w)) <= 2 ^ 53 ->
  seconds id (r_caves (doStart w opts caves))
  = seconds id caves + 10 * Z.of_nat (length (w_ticks w))
  /\ r_caves (doStart w opts caves) !! id ≫= c_lastTouched = Some (w_nowFinally w).
Proof.
  intros Hp Hpre id Hlo Hhi. subst id.
  destruct (preDispatch_store_ready w opts caves Hp) as [[_ Hsec] Hctx].
  destruct (Hctx _ _ _ _ Hpre) as [-> Hsome].
  rewrite (doStart_reaches_dispatch _ _ _ _ _ _ _ Hpre).
  unfold prepend; cbn [r_caves]. rewrite dispatch_store.
  split.
  - rewrite seconds_touch, ticks_seconds; rewrite ?Hsec; done.
  - rewrite lookup_saveEntity. by destruct (_ !! c_id (o_cave opts)).
Qed.

Lemma X12_witness :
  seconds "cave-1" (r_caves (doStart Demo.world Demo.opts Demo.caves)) = 140.
Proof.
  exact (proj1 (X12_launch_credits_ten_seconds_per_tick Demo.world Demo.opts Demo.caves
                  Demo.cave "native" (mkLaunchOpts Demo.cave None ∅ []) 1000
                  eq_refl ltac:(vm_compute; reflexivity)
                  ltac:(vm_compute; discriminate) ltac:(vm_compute; discriminate))).
Defined.

(** ** Which strategy is called *)

Lemma no_strategy_typeOk w opts caves ev :
  isStrategy ev = false -> strategyTypeOk w opts caves ev.
Proof. by destruct ev. Qed.

(** What the classifier returns is a registered type, and the store plays
    no part in it. *)
Lemma launchTypeForAction_registered platform join sniff appPath actionPath caves lt :
  r_completion (launchTypeForAction platform join sniff appPath actionPath caves) = Normal lt ->
  In lt registeredTypes
  /\ forall caves0,
       r_completion (launchTypeForAction platform join sniff appPath actionPath caves0)
       = Normal lt.
Proof.
  unfold launchTypeForAction, registeredTypes.
  destruct (re_native actionPath); [intros [= <-]; cbn; tauto|].
  destruct (re_html actionPath); [intros [= <-]; cbn; tauto|].
  destruct (re_external actionPath); [intros [= <-]; cbn; tauto|].
  cbv zeta. destruct (sniff (join appPath actionPath)) as [[probe|]|e]; try done.
  rewrite bind_await. cbn [prepend r_completion].
  destruct (_ || _) eqn:Hx; cbn [ret r_completion]; intros [= <-];
    (split; [cbn; tauto|]); intros caves0; rewrite bind_await; by rewrite Hx.
Qed.

Lemma registered_launchers lt : In lt registeredTypes -> launchers lt = true.
Proof. intros [<-|[<-|[<-|[<-|[]]]]]; reflexivity. Qed.

Lemma registered_not_inherited lt : In lt registeredTypes -> inherited lt = false.
Proof. intros [<-|[<-|[<-|[<-|[]]]]]; reflexivity. Qed.

Lemma launchers_cases lt :
  launchers lt = true -> In lt registeredTypes \/ inherited lt = true.
Proof.
  unfold launchers, registeredTypes. rewrite !orb_true_iff, !String.eqb_eq. cbn [In].
  intuition auto.
Qed.

Lemma prepares_cases lt : prepares lt = true -> lt = "native" \/ inherited lt = true.
Proof. unfold prepares. by rewrite orb_true_iff, String.eqb_eq. Qed.

Lemma launchOptions_typedBy w opts caves game cave manifest selected caves1 lt' lo manifest' :
  readyCave w opts caves = Some cave ->
  r_completion (launchOptions w opts game (default "native" (c_launchType (o_cave opts)))
                  (w_appPath w cave) manifest selected caves1)
  = Normal (lt', lo, manifest') ->
  typedBy w opts caves lt' lo.
Proof.
  intros Hc. unfold launchOptions. cbv zeta.
  destruct (selected ≫= _) as [[i action]|].
  - intros H. apply bind_normal_inv in H as (lt0 & Hlt & H).
    apply bind_normal_inv in H as (env & _ & H).
    cbn in H. injection H as <- <- <-. unfold typedBy; cbn [lo_manifestAction].
    apply launchTypeForAction_registered in Hlt as [Hin Hall].
    split; [done|]. by exists cave.
  - by intros [= <- <- <-].
Qed.

Lemma emits_prepareLaunch_typeOk w opts caves cave lt lo manifest :
  typedBy w opts caves lt lo ->
  emits (strategyTypeOk w opts caves) (prepareLaunch w cave lt lo manifest).
Proof.
  intros Ht. unfold prepareLaunch.
  destruct (launchers lt); [|apply emits_throw].
  destruct (prepares lt) eqn:Hp; [|emits_tac].
  assert (Hok : strategyTypeOk w opts caves (EvPrepare lt lo manifest)).
  { split; [done|]. apply prepares_cases in Hp. unfold typedBy in Ht.
    destruct (lo_manifestAction lo); [|done].
    destruct Ht as [Hin _]. apply registered_not_inherited in Hin.
    destruct Hp as [Hp|Hp]; [done | congruence]. }
  emits_tac.
Qed.

Lemma prepareLaunch_supported w cave lt lo manifest caves startedAt :
  r_completion (prepareLaunch w cave lt lo manifest caves) = Normal startedAt ->
  launchers lt = true.
Proof. unfold prepareLaunch. by destruct (launchers lt). Qed.

Lemma emits_dispatch_typeOk w opts caves cave lt lo startedAt :
  launchers lt = true -> typedBy w opts caves lt lo ->
  emits (strategyTypeOk w opts caves) (dispatch w opts cave lt lo startedAt).
Proof.
  intros Hl Ht.
  assert (Hok : strategyTypeOk w opts caves (EvLaunch lt lo)).
  { split; [done|]. unfold typedBy in Ht.
    destruct (lo_manifestAction lo); [by destruct Ht | by apply launchers_cases]. }
  unfold dispatch, launchAndWait, onLaunchError, cleanup.
  repeat first
    [ apply emits_timerCallbacks; intros; apply emits_playtimeTick; done
    | emits_step ]; done.
Qed.

Lemma preLaunch_typeOk w opts caves game cave :
  readyCave w opts caves = Some cave ->
  let lt := default "native" (c_launchType (o_cave opts)) in
  emits (strategyTypeOk w opts caves) (preLaunch w opts game cave lt)
  /\ (forall caves1 cave' lt' lo startedAt,
        r_completion (preLaunch w opts game cave lt caves1)
        = Normal (cave', lt', lo, startedAt) ->
        launchers lt' = true /\ typedBy w opts caves lt' lo).
Proof.
  intros Hc lt. split.
  - unfold preLaunch. cbv zeta. apply emits_bind.
    { eapply emits_weaken; [|apply emits_resolveManifest].
      intros ev Hev. apply no_strategy_typeOk. by destruct ev. }
    intros [manifest selected].
    apply (emits_bind_post _ (fun x => typedBy w opts caves (x.1.1) (x.1.2))).
    + eapply emits_weaken; [|apply emits_launchOptions].
      intros ev Hev. apply no_strategy_typeOk. by destruct ev.
    + intros caves1 [[lt' lo] manifest'] H. by eapply launchOptions_typedBy.
    + intros [[lt' lo] manifest'] Hlo. apply emits_bind.
      * by apply emits_prepareLaunch_typeOk.
      * intros; apply emits_ret.
  - unfold preLaunch. cbv zeta. intros caves1 cave' lt' lo startedAt H.
    apply bind_normal_inv in H as ([manifest selected] & _ & H).
    apply bind_normal_inv in H as ([[lt'' lo'] manifest'] & Hlo & H).
    apply (launchOptions_typedBy _ _ caves) in Hlo; [|done].
    apply bind_normal_inv in H as (s & Hs & H).
    apply prepareLaunch_supported in Hs.
    cbn in H. by injection H as <- <- <- <-.
Qed.

(** X13. Whatever the run, the prepare step that is called is the one
    registered for [native], and the launcher one of the four registered
    ones, unless the launch type is a key that the two tables inherit as
    object literals ([constructor], [toString], ...): then what is found
    under that key is called instead.  With a manifest action the type is
    what the classifier returns for the install folder of the record in
    use and the action's path, so it is one of the four; without one it is
    the launch type of the record the call was given ([native] when it has
    none), also when the repair has replaced that record in between. *)
Theorem X13_strategy_follows_action_or_given_record w opts caves :
  Forall (strategyTypeOk w opts caves) (r_trace (doStart w opts caves)).
Proof.
  assert (Hquiet : forall tr, Forall (fun ev => inReadiness ev = true) tr ->
                              Forall (strategyTypeOk w opts caves) tr).
  { intros tr Htr. eapply Forall_impl; [exact Htr|].
    intros ev Hev. apply no_strategy_typeOk. by destruct ev. }
  pose proof (Hquiet _ (emits_readiness w opts caves)) as Hr.
  assert (Hpd : Forall (strategyTypeOk w opts caves) (r_trace (preDispatch w opts caves))
                /\ forall cave lt lo startedAt,
                     r_completion (preDispatch w opts caves) = Normal (cave, lt, lo, startedAt) ->
                     launchers lt = true /\ typedBy w opts caves lt lo).
  { unfold preDispatch. rewrite bind_normal_or_not.
    destruct (r_completion (readiness w opts caves)) as [[[game cave] lt]| |e] eqn:E;
      [|by split..].
    assert (Hc : readyCave w opts caves = Some cave) by (unfold readyCave; by rewrite E).
    apply readiness_result in E as [-> _].
    destruct (preLaunch_typeOk w opts caves game cave Hc) as [Hem Hres].
    unfold prepend; cbn [r_completion r_trace]. split.
    - apply Forall_app; split; [done | apply Hem].
    - apply Hres. }
  destruct Hpd as [Hpd1 Hpd2].
  unfold doStart, doStartBody. rewrite bind_normal_or_not.
  destruct (r_completion (preDispatch w opts caves))
    as [[[[cave lt] lo] startedAt]| |e] eqn:E; [|done..].
  unfold prepend; cbn [r_trace]. apply Forall_app; split; [done|].
  destruct (Hpd2 _ _ _ _ eq_refl) as [Hl Ht].
  by apply emits_dispatch_typeOk.
Qed.

(** A package whose launch type is [constructor]: the tables answer with
    what they inherit under that key, no error is thrown, and the call goes
    through its prepare step and its lifecycle block. *)
Example inherited_key_is_launched :
  let r := doStart Demo.world Demo2.constructorOpts Demo2.constructorCaves in
  r_completion r = Normal tt
  /\ count isPrepare (r_trace r) = 1%nat
  /\ In (EvLaunch "constructor" (mkLaunchOpts Demo2.constructorCave None ∅ [])) (r_trace r)
  /\ count isLifecycle (r_trace r) = 4%nat.
Proof.
  cbv zeta. split; [vm_compute; reflexivity|]. split; [vm_compute; reflexivity|].
  split; [|vm_compute; reflexivity].
  vm_compute. repeat first [left; reflexivity | right].
Qed.

(** The repair turns a native package into an HTML one; the call goes on
    with the native launcher. *)
Example launch_type_is_read_before_the_repair :
  let r := doStart (Demo2.repairing Demo.world) Demo.brokenOpts Demo.brokenCaves in
  r_caves r !! "cave-1" ≫= c_launchType = Some "html"
  /\ count isConfigure (r_trace r) = 1%nat
  /\ In (EvLaunch "native" (mkLaunchOpts Demo.brokenCave None ∅ [])) (r_trace r).
Proof.
  cbv zeta. split; [vm_compute; reflexivity|]. split; [vm_compute; reflexivity|].
  vm_compute. repeat first [left; reflexivity | right].
Qed.

Lemma count_bind_first {A B} kind (m : M A) (f : A -> M B) caves :
  count kind (r_trace (m caves)) = 0%nat ->
  count kind (r_trace (bind m f caves))
  = match r_completion (m caves) with
    | Normal a => count kind (r_trace (f a (r_caves (m caves))))
    | _ => 0%nat
    end.
Proof.
  intros H. rewrite bind_normal_or_not.
  destruct (r_completion (m caves)); cbn [prepend r_trace]; try done.
  by rewrite count_app, H.
Qed.

Lemma prepareLaunch_prepares_once w cave lt lo manifest caves :
  (count isPrepare (r_trace (prepareLaunch w cave lt lo manifest caves)) <= 1)%nat.
Proof.
  unfold prepareLaunch. destruct (launchers lt); [|cbn; lia].
  destruct (prepares lt).
  - unfold bind at 1. rewrite bind_log.
    destruct (w_prepare w); [rewrite bind_saveEntity|]; cbn; lia.
  - rewrite bind_log, bind_saveEntity. cbn. lia.
Qed.

Lemma preDispatch_prepares_once w opts caves :
  (count isPrepare (r_trace (preDispatch w opts caves)) <= 1)%nat
  /\ count isLaunch (r_trace (preDispatch w opts caves)) = 0%nat.
Proof.
  split.
  - unfold preDispatch. rewrite count_bind_first.
    2:{ eapply count_zero; [apply emits_readiness|]. by intros []. }
    destruct (r_completion (readiness w opts caves)) as [[[game cave] lt]| |]; try lia.
    unfold preLaunch. cbv zeta. rewrite count_bind_first.
    2:{ eapply count_zero; [apply emits_resolveManifest|]. by intros []. }
    destruct (r_completion (resolveManifest _ _ _ _)) as [[manifest selected]| |]; try lia.
    rewrite count_bind_first.
    2:{ eapply count_zero; [apply emits_launchOptions|]. by intros []. }
    destruct (r_completion (launchOptions _ _ _ _ _ _ _ _)) as [[[lt' lo] manifest']| |];
      try lia.
    rewrite count_bind; [apply prepareLaunch_prepares_once|].
    intros; apply emits_ret.
  - eapply count_zero; [apply emits_preDispatch|]. by intros [].
Qed.

Lemma played_are_saves id fires caves :
  Forall (fun ev => isSave ev = true) (r_trace (timerCallbacks (playtimeTick id) fires caves)).
Proof. apply emits_timerCallbacks. intros now. by apply emits_playtimeTick. Qed.

Lemma dispatch_launches_once w opts cave lt lo startedAt caves :
  count isLaunch (r_trace (dispatch w opts cave lt lo startedAt caves)) = 1%nat
  /\ count isPrepare (r_trace (dispatch w opts cave lt lo startedAt caves)) = 0%nat.
Proof.
  destruct (dispatch_paths w opts cave lt lo startedAt caves) as (logged & -> & Hlog & _).
  pose proof (played_are_saves (c_id cave) (w_ticks w) caves) as Hplayed.
  cbn [r_trace]. unfold cleanupEvents. rewrite !count_app.
  rewrite (count_zero _ isLaunch _ Hlog) by by intros [].
  rewrite (count_zero _ isPrepare _ Hlog) by by intros [].
  rewrite (count_zero _ isLaunch _ Hplayed) by by intros [].
  rewrite (count_zero _ isPrepare _ Hplayed) by by intros [].
  destruct (o_preventDisplaySleep opts); done.
Qed.

(** X14. One launch call hands over to at most one prepare step and at most
    one launcher, in that order: the launcher is called exactly once when
    the call gets to line 298 and never otherwise, and everything the
    prepare step does comes before. *)
Theorem X14_one_prepare_then_one_launcher w opts caves :
  exists first second,
    r_trace (doStart w opts caves) = first ++ second
    /\ (count isPrepare first <= 1)%nat
    /\ count isLaunch first = 0%nat
    /\ count isPrepare second = 0%nat
    /\ count isLaunch second = (if reachesDispatch w opts caves then 1%nat else 0%nat)
    /\ count isLaunch (r_trace (doStart w opts caves))
       = (if reachesDispatch w opts caves then 1%nat else 0%nat)
    /\ (count isPrepare (r_trace (doStart w opts caves)) <= 1)%nat.
Proof.
  destruct (preDispatch_prepares_once w opts caves) as [Hp Hl].
  unfold doStart, doStartBody, reachesDispatch. rewrite bind_normal_or_not.
  destruct (r_completion (preDispatch w opts caves)) as [[[[cave lt] lo] startedAt]| |e].
  - destruct (dispatch_launches_once w opts cave lt lo startedAt
                (r_caves (preDispatch w opts caves))) as [Hd1 Hd0].
    cbn [prepend r_trace].
    exists (r_trace (preDispatch w opts caves)),
           (r_trace (dispatch w opts cave lt lo startedAt (r_caves (preDispatch w opts caves)))).
    rewrite !count_app, Hl, Hd1, Hd0.
    repeat split; try done; lia.
  - exists (r_trace (preDispatch w opts caves)), []. cbn [r_trace].
    rewrite app_nil_r, Hl. repeat split; try done.
  - exists (r_trace (preDispatch w opts caves)), []. cbn [r_trace].
    rewrite app_nil_r, Hl. repeat split; try done.
Qed.

(** ** Failures before the launcher *)

Lemma stops_quiet {A} bad e (m : M A) :
  emits (fun ev => bad ev = false) m -> stops bad e m.
Proof. intros Hm caves H. by rewrite (count_none _ _ (Hm caves)) in H. Qed.

Lemma stops_bind {A B} bad e (m : M A) (f : A -> M B) :
  stops bad e m -> (forall a, stops bad e (f a)) -> stops bad e (bind m f).
Proof.
  intros Hm Hf caves. specialize (Hm caves). rewrite bind_normal_or_not.
  destruct (r_completion (m caves)) as [a| |e0] eqn:E; cbn [prepend r_completion r_trace].
  - rewrite count_app. intros H.
    destruct (count bad (r_trace (m caves))) eqn:Hc.
    + apply Hf. by rewrite Nat.add_0_l in H.
    + discriminate Hm. done.
  - intros H. discriminate (Hm H).
  - intros H. specialize (Hm H). congruence.
Qed.

(** The part of the call before line 298 stops at a failing prepare step
    and at a failing request for a subkey. *)
Lemma preDispatch_stops_at_prepare w opts e :
  w_prepare w = Rejected e -> stops isPrepare e (preDispatch w opts).
Proof.
  intros Hp. unfold preDispatch. apply stops_bind.
  { apply stops_quiet. eapply emits_weaken; [|apply emits_readiness]. by intros []. }
  intros [[game cave] lt]. unfold preLaunch. cbv zeta. apply stops_bind.
  { apply stops_quiet. eapply emits_weaken; [|apply emits_resolveManifest]. by intros []. }
  intros [manifest selected]. apply stops_bind.
  { apply stops_quiet. eapply emits_weaken; [|apply emits_launchOptions]. by intros []. }
  intros [[lt' lo] manifest']. apply stops_bind.
  - intros caves. unfold prepareLaunch. destruct (launchers lt'); [|done].
    destruct (prepares lt').
    + unfold bind at 1. by rewrite bind_log, Hp.
    + by rewrite bind_log, bind_saveEntity.
  - intros s. apply stops_quiet, emits_ret.
Qed.

Lemma preDispatch_stops_at_subkey w opts e :
  w_subkey w = Rejected e -> stops isSubkey e (preDispatch w opts).
Proof.
  intros Hk. unfold preDispatch. apply stops_bind.
  { apply stops_quiet. eapply emits_weaken; [|apply emits_readiness]. by intros []. }
  intros [[game cave] lt]. unfold preLaunch. cbv zeta. apply stops_bind.
  { apply stops_quiet. eapply emits_weaken; [|apply emits_resolveManifest]. by intros []. }
  intros [manifest selected]. apply stops_bind.
  - unfold launchOptions. cbv zeta.
    destruct (selected ≫= _) as [[i action]|]; [|by intros caves].
    apply stops_bind.
    { by apply stops_quiet, emits_launchTypeForAction. }
    intros lt0 caves.
    destruct (Str.truthy _).
    + unfold bind at 1. by rewrite bind_log, Hk.
    + by rewrite bind_ret.
  - intros [[lt' lo] manifest']. apply stops_bind.
    + apply stops_quiet. eapply emits_weaken; [|apply emits_prepareLaunch]. by intros [].
    + intros s. apply stops_quiet, emits_ret.
Qed.

(** A call that stops before line 298 has called no launcher and has taken
    neither timer nor lock. *)
Lemma doStart_stopped_early w opts caves e :
  r_completion (preDispatch w opts caves) = Throw e ->
  r_completion (doStart w opts caves) = Throw e
  /\ r_trace (doStart w opts caves) = r_trace (preDispatch w opts caves)
  /\ count isLaunch (r_trace (doStart w opts caves)) = 0%nat
  /\ count isLifecycle (r_trace (doStart w opts caves)) = 0%nat.
Proof.
  intros H. unfold doStart, doStartBody. rewrite (bind_throw _ _ _ _ H).
  cbn [r_completion r_trace]. pose proof (emits_preDispatch w opts caves) as Hev.
  repeat split; try done; (eapply count_zero; [apply Hev|]; by intros []).
Qed.

Lemma doStart_count_before w opts caves kind :
  (forall ev, inDispatch ev = true -> kind ev = false) ->
  count kind (r_trace (doStart w opts caves)) = count kind (r_trace (preDispatch w opts caves)).
Proof.
  intros Hk. unfold doStart, doStartBody. apply count_bind.
  intros [[[cave lt] lo] startedAt]. eapply emits_weaken; [|apply emits_dispatch]. done.
Qed.

(** X15. When the prepare step fails, the launch fails with its error and
    stops there: no launcher is called, no timer is set and no lock is
    taken. *)
Theorem X15_failed_prepare_stops_the_launch w opts caves e :
  w_prepare w = Rejected e ->
  count isPrepare (r_trace (doStart w opts caves)) <> 0%nat ->
  r_completion (doStart w opts caves) = Throw e
  /\ count isLaunch (r_trace (doStart w opts caves)) = 0%nat
  /\ count isLifecycle (r_trace (doStart w opts caves)) = 0%nat.
Proof.
  intros Hp Hin. rewrite doStart_count_before in Hin by by intros [].
  apply (preDispatch_stops_at_prepare w opts e Hp) in Hin.
  by destruct (doStart_stopped_early _ _ _ _ Hin) as (? & _ & ? & ?).
Qed.

Lemma X15_witness :
  r_completion (doStart (Demo2.noPrepare Demo.boom Demo.world) Demo.opts Demo.caves)
  = Throw Demo.boom.
Proof.
  exact (proj1 (X15_failed_prepare_stops_the_launch
                  (Demo2.noPrepare Demo.boom Demo.world) Demo.opts Demo.caves Demo.boom
                  eq_refl ltac:(vm_compute; discriminate))).
Defined.

Lemma preDispatch_subkey_then_no_prepare w opts caves e :
  w_subkey w = Rejected e ->
  count isSubkey (r_trace (preDispatch w opts caves)) <> 0%nat ->
  count isPrepare (r_trace (preDispatch w opts caves)) = 0%nat.
Proof.
  intros Hk. unfold preDispatch. rewrite bind_normal_or_not.
  pose proof (emits_readiness w opts caves) as Hr.
  destruct (r_completion (readiness w opts caves)) as [[[game cave] lt]| |];
    cbn [prepend r_trace];
    [|intros _; eapply count_zero; [apply Hr|]; by intros []..].
  rewrite !count_app.
  rewrite (count_zero _ isSubkey _ Hr) by by intros [].
  rewrite (count_zero _ isPrepare _ Hr) by by intros [].
  unfold preLaunch. cbv zeta. rewrite bind_normal_or_not.
  set (caves1 := r_caves (readiness w opts caves)).
  pose proof (emits_resolveManifest w game (w_appPath w cave) caves1) as Hm.
  destruct (r_completion (resolveManifest w game (w_appPath w cave) caves1))
    as [[manifest selected]| |];
    cbn [prepend r_trace];
    [|intros _; eapply count_zero; [apply Hm|]; by intros []..].
  rewrite !count_app.
  rewrite (count_zero _ isSubkey _ Hm) by by intros [].
  rewrite (count_zero _ isPrepare _ Hm) by by intros [].
  set (caves2 := r_caves (resolveManifest w game (w_appPath w cave) caves1)).
  rewrite bind_normal_or_not.
  pose proof (emits_launchOptions w opts game lt (w_appPath w cave) manifest selected caves2)
    as Ho.
  destruct (r_completion (launchOptions w opts game lt (w_appPath w cave) manifest selected
                            caves2)) as [[[lt' lo] manifest']| |] eqn:E;
    cbn [prepend r_trace];
    [|intros _; eapply count_zero; [apply Ho|]; by intros []..].
  intros H. exfalso. apply H. rewrite count_app.
  assert (H0 : count isSubkey
                 (r_trace (launchOptions w opts game lt (w_appPath w cave) manifest selected
                             caves2)) = 0%nat).
  { revert E. unfold launchOptions. cbv zeta.
    destruct (selected ≫= _) as [[i action]|]; [|done].
    rewrite bind_normal_or_not.
    set (classified := launchTypeForAction _ _ _ _ _).
    assert (Hc : count isSubkey (r_trace (classified caves2)) = 0%nat).
    { apply count_none. by apply emits_launchTypeForAction. }
    destruct (r_completion (classified caves2)); cbn [prepend r_completion r_trace];
      [|done..].
    rewrite count_app, Hc.
    destruct (Str.truthy _).
    - unfold bind at 1. rewrite bind_log, Hk. done.
    - by rewrite bind_ret. }
  rewrite H0. rewrite count_bind.
  - eapply count_zero; [apply emits_prepareLaunch|]. by intros [].
  - intros; apply emits_ret.
Qed.

(** X16. When the request for a scoped key fails, the launch fails with
    that error: there is no launch without the key, neither a prepare step
    nor a launcher is called, and no timer or lock is taken. *)
Theorem X16_failed_subkey_stops_the_launch w opts caves e :
  w_subkey w = Rejected e ->
  count isSubkey (r_trace (doStart w opts caves)) <> 0%nat ->
  r_completion (doStart w opts caves) = Throw e
  /\ count isStrategy (r_trace (doStart w opts caves)) = 0%nat
  /\ count isLifecycle (r_trace (doStart w opts caves)) = 0%nat.
Proof.
  intros Hk Hin. rewrite doStart_count_before in Hin by by intros [].
  pose proof Hin as Hcount.
  apply (preDispatch_stops_at_subkey w opts e Hk) in Hin.
  destruct (doStart_stopped_early _ _ _ _ Hin) as (Hc & Htr & Hl & Hlife).
  split; [done|]. split; [|done].
  assert (Hs : forall ev, isStrategy ev = isPrepare ev || isLaunch ev) by by intros [].
  assert (Hsum : forall tr, count isStrategy tr = (count isPrepare tr + count isLaunch tr)%nat).
  { induction tr as [|ev tr IH]; [done|]. cbn. rewrite IH, Hs.
    destruct (isPrepare ev) eqn:E1, (isLaunch ev) eqn:E2; cbn; try lia.
    by destruct ev. }
  rewrite Hsum, Hl, Nat.add_0_r, Htr.
  by rewrite (preDispatch_subkey_then_no_prepare w opts caves e Hk Hcount).
Qed.

Lemma X16_witness :
  r_completion (doStart (Demo2.noSubkey Demo.boom
                           (Demo.withManifest [Demo.editor] MODAL_CLOSED Demo.world))
                  Demo.opts Demo.caves)
  = Throw Demo.boom.
Proof.
  exact (proj1 (X16_failed_subkey_stops_the_launch
                  (Demo2.noSubkey Demo.boom
                     (Demo.withManifest [Demo.editor] MODAL_CLOSED Demo.world))
                  Demo.opts Demo.caves Demo.boom
                  eq_refl ltac:(vm_compute; discriminate))).
Defined.

Lemma preDispatch_after_readiness w opts caves game cave lt :
  r_completion (readiness w opts caves) = Normal (game, cave, lt) ->
  preDispatch w opts caves =
    prepend (r_trace (readiness w opts caves))
      (preLaunch w opts game cave lt (r_caves (readiness w opts caves))).
Proof. intros H. unfold preDispatch. by rewrite (bind_normal _ _ _ _ H). Qed.

Lemma doStart_preDispatch_throws w opts caves e caves' tr :
  preDispatch w opts caves = mkResult (Throw e) caves' tr ->
  doStart w opts caves = mkResult (Throw e) caves' tr.
Proof.
  intros H. unfold doStart, doStartBody.
  rewrite (bind_throw _ _ caves e) by by rewrite H. by rewrite H.
Qed.

(** X17. Without a manifest, a package whose launch type the [launchers]
    table does not answer for (it is none of the four registered types,
    and no key that the table inherits) cannot be launched: the call throws
    [Unsupported launch type] right after looking for the manifest,
    before any prepare step, launcher, timer or further write to the
    store. *)
Theorem X17_unsupported_launch_type w opts caves game cave lt :
  r_completion (readiness w opts caves) = Normal (game, cave, lt) ->
  w_exists w = false ->
  launchers lt = false ->
  let ready := readiness w opts caves in
  let manifestPath := w_join w (w_appPath w cave) ".itch.toml" in
  lt = default "native" (c_launchType (o_cave opts))
  /\ doStart w opts caves =
     mkResult
       (Throw (mkError PlainError
                 ("Unsupported launch type '" +:+ default "undefined" (c_launchType cave)
                  +:+ "'") None))
       (r_caves ready)
       (r_trace ready
        ++ [EvLog LInfo (LogLookingForManifest manifestPath);
            EvExists manifestPath;
            EvLog LInfo LogNoManifest]).
Proof.
  intros Hready He Hl ready manifestPath.
  split; [by apply readiness_result in Hready as [? _]|].
  apply doStart_preDispatch_throws.
  rewrite (preDispatch_after_readiness _ _ _ _ _ _ Hready). fold ready.
  unfold preLaunch, resolveManifest. cbv zeta.
  rewrite (bind_normal _ _ _ (None, None)).
  2:{ rewrite bind_log, bind_await, He, bind_log. reflexivity. }
  rewrite bind_log, bind_await, He, bind_log.
  cbn [prepend ret r_completion r_caves r_trace].
  unfold launchOptions. cbv zeta. cbn [mbind option_bind].
  rewrite bind_ret. unfold prepareLaunch. rewrite Hl.
  reflexivity.
Qed.

Lemma X17_witness :
  r_completion (doStart Demo.world Demo2.flashOpts Demo2.flashCaves)
  = Throw (mkError PlainError "Unsupported launch type 'flash'" None).
Proof.
  pose proof (proj2 (X17_unsupported_launch_type Demo.world Demo2.flashOpts Demo2.flashCaves
                       Demo.game Demo2.flashCave "flash"
                       ltac:(vm_compute; reflexivity) eq_refl eq_refl)) as H.
  by rewrite H.
Defined.

(** X18. A manifest that is there but cannot be read or parsed ends the
    launch: the error is logged and thrown on as it is, and the call has
    neither validated anything, nor asked the user, nor called a
    strategy. *)
Theorem X18_unreadable_manifest_is_fatal w opts caves game cave lt e :
  r_completion (readiness w opts caves) = Normal (game, cave, lt) ->
  w_exists w = true ->
  w_readManifest w = Rejected e ->
  let ready := readiness w opts caves in
  let manifestPath := w_join w (w_appPath w cave) ".itch.toml" in
  doStart w opts caves =
    mkResult (Throw e) (r_caves ready)
      (r_trace ready
       ++ [EvLog LInfo (LogLookingForManifest manifestPath);
           EvExists manifestPath;
           EvLog LInfo LogFoundManifest;
           EvReadFile manifestPath;
           EvLog LError (LogErrorReadingManifest e)]).
Proof.
  intros Hready He Hr ready manifestPath.
  apply doStart_preDispatch_throws.
  rewrite (preDispatch_after_readiness _ _ _ _ _ _ Hready). fold ready.
  unfold preLaunch, resolveManifest. cbv zeta.
  rewrite (bind_throw _ _ _ e).
  2:{ rewrite bind_log, bind_await, He, bind_log.
      cbn [prepend r_completion]. apply bind_throw_completion.
      unfold try_catch. rewrite Hr. reflexivity. }
  rewrite bind_log, bind_await, He, bind_log.
  cbn [prepend r_completion r_caves r_trace].
  rewrite (bind_throw _ _ _ e) by (unfold try_catch; by rewrite Hr).
  unfold try_catch. rewrite Hr. reflexivity.
Qed.

Lemma X18_witness :
  r_completion (doStart (Demo2.badManifest Demo.boom Demo.world) Demo.opts Demo.caves)
  = Throw Demo.boom.
Proof.
  pose proof (X18_unreadable_manifest_is_fatal (Demo2.badManifest Demo.boom Demo.world)
                Demo.opts Demo.caves Demo.game Demo.cave "native" Demo.boom
                ltac:(vm_compute; reflexivity) eq_refl eq_refl) as H.
  cbv zeta in H. by rewrite H.
Defined.

(** ** The selected action, in general *)

Lemma launchOptions_selected w opts game lt appPath manifest acts selected caves
      lt' lo manifest' :
  m_actions manifest = Some acts ->
  r_completion (launchOptions w opts game lt appPath (Some manifest) selected caves)
  = Normal (lt', lo, manifest') ->
  let chosen := withExt (appExt (w_itchPlatform w)) <$> (selected ≫= (fun i => acts !! i)) in
  lo_manifestAction lo = chosen
  /\ lo_args lo = default [] (chosen ≫= a_args)
  /\ manifest' = rewritten w manifest acts selected.
Proof.
  intros Ha. unfold launchOptions, rewritten. cbv zeta. cbn [mbind option_bind]. rewrite Ha.
  change (default [] (Some acts)) with acts.
  destruct selected as [i|]; cbn [mbind option_bind].
  - destruct (acts !! i) as [action|]; cbn [fmap option_fmap option_map].
    + intros H. apply bind_normal_inv in H as (lt0 & _ & H).
      apply bind_normal_inv in H as (env & _ & H).
      cbn in H. by injection H as <- <- <-.
    + by intros [= <- <- <-].
  - by intros [= <- <- <-].
Qed.

Section Selected.
Variables (w : World) (opts : IStartTaskOpts) (caves : gmap string ICaveRecord).
Variables (game : IGameRecord) (cave : ICaveRecord) (lt : string).
Variables (manifest : IManifest) (acts : list IManifestAction).
Hypothesis Hready : r_completion (readiness w opts caves) = Normal (game, cave, lt).
Hypothesis Hexists : w_exists w = true.
Hypothesis Hread : w_readManifest w = Fulfilled manifest.
Hypothesis Hactions : m_actions manifest = Some acts.
Hypothesis Hvalid : validManifest manifest = true.


Lemma doStart_selected :
  Forall (strategySelected w manifest acts (selection w acts)) (r_trace (doStart w opts caves)).
Proof.
  set (P := strategySelected w manifest acts (selection w acts)).
  assert (Hquiet : forall ev, isStrategy ev = false -> P ev) by by intros [].
  unfold doStart, doStartBody.
  set (chosen := withExt (appExt (w_itchPlatform w))
                   <$> (selection w acts ≫= (fun i => acts !! i))).
  apply (emits_bind_post _ (fun ctx => lo_manifestAction (ctx.1.2) = chosen
                                       /\ lo_args (ctx.1.2) = default [] (chosen ≫= a_args))).
  - unfold preDispatch. apply emits_bind.
    { eapply emits_weaken; [|apply emits_readiness]. intros ev Hev. apply Hquiet.
      by destruct ev. }
    intros [[game' cave'] lt0]. unfold preLaunch. cbv zeta.
    apply (emits_bind_post _ (fun x => x = (Some manifest, selection w acts))).
    { eapply emits_weaken; [|apply emits_resolveManifest]. intros ev Hev. apply Hquiet.
      by destruct ev. }
    { intros caves1 x Hx. revert Hx.
      rewrite (resolveManifest_valid _ _ _ _ _ _ Hexists Hread Hactions Hvalid).
      cbn [r_completion]. unfold selection.
      destruct (1 <? length acts)%nat; [|congruence].
      destruct (w_promisedModal w); [congruence | discriminate]. }
    intros _ ->.
    apply (emits_bind_post _ (fun x => lo_manifestAction (x.1.2) = chosen
                                       /\ lo_args (x.1.2) = default [] (chosen ≫= a_args)
                                       /\ x.2 = rewritten w manifest acts (selection w acts))).
    + eapply emits_weaken; [|apply emits_launchOptions]. intros ev Hev. apply Hquiet.
      by destruct ev.
    + intros caves1 [[lt' lo] manifest'] H.
      by eapply launchOptions_selected in H.
    + intros [[lt' lo] manifest'] (H1 & H2 & H3). cbn in H1, H2, H3. subst manifest'.
      apply emits_bind; [|intros; apply emits_ret].
      unfold prepareLaunch. emits_tac.
  - intros caves0 [[[cave0 lt0] lo] startedAt] H. unfold preDispatch, preLaunch in H.
    cbv zeta in H.
    apply bind_normal_inv in H as ([[game' cave'] lt'] & _ & H).
    apply bind_normal_inv in H as (x & Hx & H).
    revert Hx. rewrite (resolveManifest_valid _ _ _ _ _ _ Hexists Hread Hactions Hvalid).
    cbn [r_completion]. intros Hx.
    assert (x = (Some manifest, selection w acts)) as ->.
    { revert Hx. unfold selection. destruct (1 <? length acts)%nat; [|congruence].
      destruct (w_promisedModal w); [congruence | discriminate]. }
    apply bind_normal_inv in H as ([[lt'' lo'] manifest'] & Hlo & H).
    eapply launchOptions_selected in Hlo; [|done]. destruct Hlo as (H1 & H2 & _).
    apply bind_normal_inv in H as (s & _ & H).
    cbn in H. by injection H as <- <- <- <-.
  - intros [[[cave0 lt0] lo] startedAt] [H1 H2].
    unfold dispatch, launchAndWait, onLaunchError, cleanup.
    repeat first
      [ apply emits_timerCallbacks; intros; apply emits_playtimeTick; done
      | emits_step ]; done.
Qed.
End Selected.

Lemma Forall_and {A} (P Q : A -> Prop) (l : list A) :
  Forall P l -> Forall Q l -> Forall (fun x => P x /\ Q x) l.
Proof. intros HP. induction HP; intros HQ; inversion HQ; subst; constructor; auto. Qed.

(** ** The scoped key *)




Section ScopedKey.
Variables (w : World) (opts : IStartTaskOpts) (caves : gmap string ICaveRecord).
Variables (game : IGameRecord) (manifest : IManifest) (acts : list IManifestAction).
Hypothesis Hgame : w_gameLazily w = Fulfilled game.
Hypothesis Hexists : w_exists w = true.
Hypothesis Hread : w_readManifest w = Fulfilled manifest.
Hypothesis Hactions : m_actions manifest = Some acts.
Hypothesis Hvalid : validManifest manifest = true.

Let chosen := selection w acts ≫= (fun i => acts !! i).


End ScopedKey.



(** X19. When the user's answer to the prompt names no action of the
    manifest, the launch goes on as if there were no manifest action:
    every strategy is called without action, without arguments and with an
    empty environment, and the prepare step sees the manifest as it was
    read. *)
Theorem X19_unknown_answer_launches_without_action
    w opts caves manifest acts manifestActionName :
  w_exists w = true ->
  w_readManifest w = Fulfilled manifest ->
  m_actions manifest = Some acts ->
  validManifest manifest = true ->
  (1 < length acts)%nat ->
  w_promisedModal w = MODAL_RESPONSE manifestActionName ->
  (forall action, In action acts -> a_name action <> manifestActionName) ->
  Forall (fun ev => strategyPlain ev
                    /\ match ev with
                       | EvPrepare _ _ seen => seen = Some manifest
                       | _ => True
                       end) (r_trace (doStart w opts caves)).
Proof.
  intros He Hr Ha Hv Hlen Hm Hnone.
  assert (Hsel : selection w acts = None).
  { unfold selection, findWhere. apply Nat.ltb_lt in Hlen. rewrite Hlen, Hm.
    destruct (list_find _ acts) as [[i action]|] eqn:E; [|done].
    apply list_find_Some in E as (Hl & Hn & _).
    exfalso. apply (Hnone action); [|done].
    apply list_elem_of_In, list_elem_of_lookup. eauto. }
  pose proof (doStart_selected w opts caves manifest acts He Hr Ha Hv) as Hs.
  pose proof (doStart_strategyEnvOk w opts caves) as Henv.
  rewrite Hsel in Hs.
  eapply Forall_impl; [apply (Forall_and _ _ _ Hs Henv)|].
  intros [] [H1 H2]; cbn in *; try done.
  - destruct H1 as (H1 & H3 & H4). unfold envOk in H2. rewrite H1 in H2.
    unfold rewritten in H4. cbn in H4. done.
  - destruct H1 as (H1 & H3). unfold envOk in H2. rewrite H1 in H2. done.
Qed.

Lemma X19_witness :
  Forall strategyPlain
    (r_trace (doStart (Demo.withManifest [Demo.play; Demo.editor] (MODAL_RESPONSE "manual")
                         Demo.world) Demo.opts Demo.caves)).
Proof.
  eapply Forall_impl.
  - exact (X19_unknown_answer_launches_without_action
             (Demo.withManifest [Demo.play; Demo.editor] (MODAL_RESPONSE "manual") Demo.world)
             Demo.opts Demo.caves (mkManifest (Some [Demo.play; Demo.editor]))
             [Demo.play; Demo.editor] "manual"
             eq_refl eq_refl eq_refl eq_refl ltac:(cbn; lia) eq_refl
             ltac:(intros action [<-|[<-|[]]]; discriminate)).
  - by intros ev [H _].
Defined.

(** X20. When the user's answer names an action, the first action of the
    manifest with that name is the one launched, also when a later action
    bears the same name: every strategy is called with it, its path
    rewritten and its arguments copied. *)
Theorem X20_first_action_of_that_name_is_launched
    w opts caves manifest acts manifestActionName i action :
  w_exists w = true ->
  w_readManifest w = Fulfilled manifest ->
  m_actions manifest = Some acts ->
  validManifest manifest = true ->
  (1 < length acts)%nat ->
  w_promisedModal w = MODAL_RESPONSE manifestActionName ->
  acts !! i = Some action ->
  a_name action = manifestActionName ->
  (forall j earlier, (j < i)%nat -> acts !! j = Some earlier ->
                     a_name earlier <> manifestActionName) ->
  Forall (fun ev => strategyCarries (withExt (appExt (w_itchPlatform w)) action) ev
                    /\ match ev with
                       | EvPrepare _ lo _ | EvLaunch _ lo =>
                           lo_args lo = default [] (a_args action)
                       | _ => True
                       end) (r_trace (doStart w opts caves)).
Proof.
  intros He Hr Ha Hv Hlen Hm Hi Hname Hfirst.
  assert (Hsel : selection w acts = Some i).
  { unfold selection, findWhere. apply Nat.ltb_lt in Hlen. rewrite Hlen, Hm.
    assert (list_find (fun a => a_name a = manifestActionName) acts = Some (i, action))
      as ->; [|done].
    apply list_find_Some. split; [done|]. split; [done|].
    intros j earlier Hj Hlt. by apply (Hfirst j). }
  pose proof (doStart_selected w opts caves manifest acts He Hr Ha Hv) as Hs.
  rewrite Hsel in Hs.
  eapply Forall_impl; [apply Hs|].
  intros [] H; cbn in *; try done; rewrite Hi in H; cbn in H; by destruct H as (-> & -> & _)
    || by destruct H as (-> & ->).
Qed.

Lemma X20_witness :
  Forall (strategyCarries (withExt "" Demo.play))
    (r_trace (doStart (Demo.withManifest [Demo.editor; Demo.play; Demo2.play2]
                         (MODAL_RESPONSE "play") Demo.world) Demo.opts Demo.caves)).
Proof.
  eapply Forall_impl.
  - exact (X20_first_action_of_that_name_is_launched
             (Demo.withManifest [Demo.editor; Demo.play; Demo2.play2] (MODAL_RESPONSE "play")
                Demo.world)
             Demo.opts Demo.caves (mkManifest (Some [Demo.editor; Demo.play; Demo2.play2]))
             [Demo.editor; Demo.play; Demo2.play2] "play" 1%nat Demo.play
             eq_refl eq_refl eq_refl eq_refl ltac:(cbn; lia) eq_refl eq_refl eq_refl
             ltac:(intros [|[|j]] earlier Hj; [intros [= <-]; discriminate | lia | lia])).
  - by intros ev [H _].
Defined.

(** X21. The rewriting of the action's path is done in place: the
    manifest handed to the prepare step contains, at the selected
    position, the very action that is in the launch options (with its
    rewritten path), and all its other actions are the ones that were
    read. *)
Theorem X21_prepare_sees_the_rewritten_action w opts caves manifest acts :
  w_exists w = true ->
  w_readManifest w = Fulfilled manifest ->
  m_actions manifest = Some acts ->
  validManifest manifest = true ->
  Forall (prepareSeesChosen manifest acts) (r_trace (doStart w opts caves)).
Proof.
  intros He Hr Ha Hv.
  pose proof (doStart_selected w opts caves manifest acts He Hr Ha Hv) as Hs.
  eapply Forall_impl; [apply Hs|].
  intros [] H; cbn in *; try done.
  destruct H as (H1 & _ & H3). rewrite H1, H3. clear H1 H3. unfold rewritten.
  destruct (selection w acts) as [i|]; cbn; [|done].
  destruct (acts !! i) as [action|] eqn:Hi; cbn; [|done].
  exists i, (<[i := withExt (appExt (w_itchPlatform w)) action]> acts).
  split; [done|]. split; [|split].
  - apply list_lookup_insert_eq. by eapply lookup_lt_Some.
  - apply length_insert.
  - intros j Hj. by apply list_lookup_insert_ne.
Qed.

Lemma X21_witness :
  In (EvPrepare "native"
        (mkLaunchOpts Demo.cave (Some (withExt "" Demo.editor))
           (<["ITCHIO_API_KEY_EXPIRES_AT" := EnvStr "2017-01-01T00:00:00Z"]>
              (<["ITCHIO_API_KEY" := EnvStr "subkey-abc"]> ∅))
           ["--edit"])
        (Some (mkManifest (Some [Demo.play; withExt "" Demo.editor]))))
     (r_trace (doStart (Demo.withManifest [Demo.play; Demo.editor] (MODAL_RESPONSE "editor")
                          Demo.world) Demo.opts Demo.caves))
  /\ Forall (prepareSeesChosen (mkManifest (Some [Demo.play; Demo.editor]))
               [Demo.play; Demo.editor])
       (r_trace (doStart (Demo.withManifest [Demo.play; Demo.editor] (MODAL_RESPONSE "editor")
                            Demo.world) Demo.opts Demo.caves)).
Proof.
  split.
  - vm_compute. repeat first [left; reflexivity | right].
  - exact (X21_prepare_sees_the_rewritten_action
             (Demo.withManifest [Demo.play; Demo.editor] (MODAL_RESPONSE "editor") Demo.world)
             Demo.opts Demo.caves (mkManifest (Some [Demo.play; Demo.editor]))
             [Demo.play; Demo.editor] eq_refl eq_refl eq_refl eq_refl).
Defined.

(** ** The extension placeholder *)

Lemma starts_with_first_char c pat d s :
  c <> d -> Str.starts_with (String c pat) (String d s) = false.
Proof. intros H. cbn. by destruct (Ascii.eqb_spec c d). Qed.

Lemma starts_with_self pat rest : Str.starts_with pat (pat +:+ rest) = true.
Proof. apply starts_with_spec. by exists rest. Qed.

Lemma drop_append pat rest : Str.drop (String.length pat) (pat +:+ rest) = rest.
Proof.
  induction pat as [|c pat IH]; [done|].
  cbn [String.length Str.drop]. by rewrite append_cons.
Qed.

Lemma replace_first_here pat by_ rest :
  Str.replace_first pat by_ (pat +:+ rest) = by_ +:+ rest.
Proof.
  destruct (pat +:+ rest) as [|c s] eqn:E; cbn [Str.replace_first];
    rewrite <- E, starts_with_self, drop_append; done.
Qed.

Lemma replace_first_leftmost pat by_ after : forall before,
  noEarlier pat before (pat +:+ after) = true ->
  Str.replace_first pat by_ (before +:+ pat +:+ after) = before +:+ by_ +:+ after.
Proof.
  assert (Hpos : forall before,
            noEarlier pat before (pat +:+ after) = true ->
            forall i, (i < String.length before)%nat ->
                      Str.starts_with pat (Str.drop i (before +:+ pat +:+ after)) = false).
  { intros before H i Hi. unfold noEarlier in H. rewrite forallb_forall in H.
    apply negb_true_iff, H, in_seq. lia. }
  induction before as [|d before IH]; intros Hl.
  - rewrite !append_nil. apply replace_first_here.
  - pose proof (Hpos _ Hl) as H. rewrite (append_cons d before) in *.
    cbn [Str.replace_first].
    pose proof (H 0%nat ltac:(cbn [String.length]; lia)) as H0.
    cbn [Str.drop] in H0. rewrite H0.
    rewrite IH; [by rewrite append_cons|].
    unfold noEarlier. apply forallb_forall. intros i Hi. apply in_seq in Hi.
    apply negb_true_iff. apply (H (S i)). cbn [String.length]. lia.
Qed.

Lemma replace_first_absent pat by_ : forall s,
  ~ occursIn pat s -> Str.replace_first pat by_ s = s.
Proof.
  induction s as [|c s IH]; intros Hno.
  - cbn [Str.replace_first]. destruct (Str.starts_with pat "") eqn:E; [|done].
    exfalso. apply Hno. apply starts_with_spec in E as [rest E].
    exists "", rest. by rewrite append_nil.
  - cbn [Str.replace_first]. destruct (Str.starts_with pat (String c s)) eqn:E.
    + exfalso. apply Hno. apply starts_with_spec in E as [rest E].
      exists "", rest. by rewrite append_nil.
    + rewrite IH; [done|]. intros (before & after & ->). apply Hno.
      exists (String c before), after. by rewrite append_cons.
Qed.

(** X22. Only the first [{{EXT}}] of an action's path is replaced by the
    platform's extension: what stands before the first placeholder and
    everything after it, a second placeholder included, is kept as it is.
    The other fields of the action are untouched. *)
Theorem X22_only_the_first_placeholder_is_replaced ext action before after :
  a_path action = before +:+ "{{EXT}}" +:+ after ->
  noEarlier "{{EXT}}" before ("{{EXT}}" +:+ after) = true ->
  withExt ext action
  = mkAction (a_name action) (before +:+ ext +:+ after) (a_icon action) (a_args action)
      (a_scope action).
Proof.
  intros Hpath Hl. unfold withExt. rewrite Hpath.
  by rewrite (replace_first_leftmost "{{EXT}}" ext after before Hl).
Qed.

Lemma X22_witness :
  a_path (withExt (appExt "windows")
            (mkAction "play" "{game}/bin/Overland{{EXT}} --log={{EXT}}" None None None))
  = "{game}/bin/Overland.exe --log={{EXT}}".
Proof.
  pose proof (X22_only_the_first_placeholder_is_replaced (appExt "windows")
                (mkAction "play" "{game}/bin/Overland{{EXT}} --log={{EXT}}" None None None)
                "{game}/bin/Overland" " --log={{EXT}}" eq_refl eq_refl) as H.
  by rewrite H.
Defined.

(** X23. An action whose path holds no [{{EXT}}] goes through the
    rewriting unchanged, on every platform. *)
Theorem X23_path_without_placeholder_is_kept ext action :
  ~ occursIn "{{EXT}}" (a_path action) ->
  withExt ext action = action.
Proof.
  intros Hno. unfold withExt. rewrite (replace_first_absent _ _ _ Hno). by destruct action.
Qed.

Lemma occurs_spec pat : forall s, occurs pat s = true <-> occursIn pat s.
Proof.
  induction s as [|c s IH]; cbn [occurs].
  - rewrite orb_false_r, starts_with_spec. split.
    + intros [rest H]. exists "", rest. by rewrite append_nil.
    + intros ([|d before] & after & H).
      * exists after. by rewrite append_nil in H.
      * by rewrite append_cons in H.
  - rewrite orb_true_iff, starts_with_spec, IH. split.
    + intros [[rest H]|(before & after & ->)].
      * exists "", rest. by rewrite append_nil.
      * exists (String c before), after. by rewrite append_cons.
    + intros ([|d before] & after & H).
      * left. exists after. by rewrite append_nil in H.
      * right. rewrite append_cons in H. injection H as -> ->. by exists before, after.
Qed.

Lemma X23_witness : withExt ".exe" Demo.editor = Demo.editor.
Proof.
  apply X23_path_without_placeholder_is_kept.
  intros H. apply occurs_spec in H. discriminate H.
Defined.

(** X24. Building the buttons of the prompt stops at the first action
    without a name: the loop throws an error that gives that action's
    position (counted from 0), whatever comes after it, and no button list
    comes out, so no prompt can be shown. *)
Theorem X24_nameless_action_stops_the_prompt icons named nameless rest caves :
  forallb (fun a => negb (String.eqb (a_name a) "")) named = true ->
  a_name nameless = "" ->
  bigButtonsFrom icons 0 (named ++ nameless :: rest) caves =
    mkResult
      (Throw (mkError PlainError
                ("in manifest, action " +:+ pretty (length named) +:+ " is missing a name")
                None))
      caves [].
Proof.
  intros Hnamed Hnameless.
  enough (H : forall i,
             bigButtonsFrom icons i (named ++ nameless :: rest) caves =
               mkResult
                 (Throw (mkError PlainError
                           ("in manifest, action " +:+ pretty (i + length named)%nat
                            +:+ " is missing a name") None))
                 caves []) by apply (H 0%nat).
  induction named as [|a named IH]; intros i.
  - cbn [app bigButtonsFrom length]. rewrite Hnameless, Nat.add_0_r. reflexivity.
  - cbn [forallb] in Hnamed. apply andb_true_iff in Hnamed as [Ha Hnamed].
    apply negb_true_iff in Ha.
    cbn [app bigButtonsFrom length]. rewrite Ha.
    rewrite (bind_throw _ _ _ _ ltac:(by rewrite (IH Hnamed (S i)))).
    rewrite (IH Hnamed (S i)). cbn [r_caves r_trace].
    by replace (S i + length named)%nat with (i + S (length named))%nat by lia.
Qed.

Lemma X24_witness :
  r_completion
    (bigButtonsFrom (fun _ => None) 0
       ([Demo.play; Demo.editor] ++ mkAction "" "readme.html" None None None :: [Demo.manual])
       Demo.caves)
  = Throw (mkError PlainError "in manifest, action 2 is missing a name" None).
Proof.
  pose proof (X24_nameless_action_stops_the_prompt (fun _ => None) [Demo.play; Demo.editor]
                (mkAction "" "readme.html" None None None) [Demo.manual] Demo.caves
                eq_refl eq_refl) as H.
  by rewrite H.
Defined.

(** X25. The repair is awaited and its outcome decides: when the
    re-configuration task fails, the launch fails with its error before
    the record is read again; when the task succeeds but the record is no
    longer in the store, the second readiness check throws a [TypeError].
    In both cases nothing of the manifest or of the launch is touched. *)
Theorem X25_failed_repair_ends_the_launch w opts caves game problem :
  w_gameLazily w = Fulfilled game ->
  w_actionForGame w <> "open" ->
  caveProblem (o_cave opts) = Some problem ->
  let cave := o_cave opts in
  let upload := c_uploads cave !! c_uploadId cave in
  (forall e,
     w_configure w caves = Rejected e ->
     doStart w opts caves =
       mkResult (Throw e) caves
         [EvGameLazily (c_gameId cave);
          EvLog LWarn (LogReconfiguring problem);
          EvConfigure game cave upload])
  /\ (forall caves',
        w_configure w caves = Fulfilled caves' ->
        caves' !! c_id cave = None ->
        doStart w opts caves =
          mkResult
            (Throw (mkError TypeError "Cannot read property 'launchType' of undefined" None))
            caves'
            (EvGameLazily (c_gameId cave) :: repairEvents game cave problem)).
Proof.
  intros Hg Ha Hp cave upload. apply String.eqb_neq in Ha. split.
  - intros e Hc. apply doStart_readiness_throws. unfold readiness. cbv zeta.
    rewrite Hg, bind_await, Ha, Hp.
    rewrite (bind_throw _ _ caves e).
    + by rewrite bind_log, (bind_startTask_rejected _ _ _ _ _ Hc).
    + by rewrite bind_log, (bind_startTask_rejected _ _ _ _ _ Hc).
  - intros caves' Hc Hl. apply doStart_readiness_throws. unfold readiness. cbv zeta.
    rewrite Hg, bind_await, Ha, Hp.
    rewrite (bind_normal _ _ caves None).
    + by rewrite bind_log, (bind_startTask _ _ _ _ _ Hc), bind_emit, bind_getCaves.
    + rewrite bind_log, (bind_startTask _ _ _ _ _ Hc), bind_emit, bind_getCaves.
      unfold ret, prepend; cbn. fold cave. by rewrite Hl.
Qed.

Lemma X25_witness :
  r_completion (doStart (Demo3.noRepair Demo.boom Demo.world) Demo.brokenOpts Demo.brokenCaves)
  = Throw Demo.boom
  /\ r_completion (doStart (Demo3.uninstalling Demo.world) Demo.brokenOpts Demo.brokenCaves)
     = Throw (mkError TypeError "Cannot read property 'launchType' of undefined" None).
Proof.
  split.
  - pose proof (proj1 (X25_failed_repair_ends_the_launch
                         (Demo3.noRepair Demo.boom Demo.world) Demo.brokenOpts
                         Demo.brokenCaves Demo.game ["game.install.no_executables_found"]
                         eq_refl ltac:(discriminate) eq_refl) Demo.boom eq_refl) as H.
    by rewrite H.
  - pose proof (proj2 (X25_failed_repair_ends_the_launch
                         (Demo3.uninstalling Demo.world) Demo.brokenOpts
                         Demo.brokenCaves Demo.game ["game.install.no_executables_found"]
                         eq_refl ltac:(discriminate) eq_refl)
                  (delete "cave-1" Demo.brokenCaves) eq_refl
                  ltac:(vm_compute; reflexivity)) as H.
    by rewrite H.
Defined.
